(** * budget-app: import reconciliation, sync queue and delete queue

    A shallow embedding of the parts of the application that carry its
    state-machine and data-consistency logic:

    - [Categorizer]: learned-merchant fuzzy matching (findMatchingCategory);
    - [DeleteQueue]: the per-document delete loop of startDeletingTransactions;
    - [Bulk]: createBulkTransactions (batched upload with duplicate tolerance);
    - [SyncQueue]: startSyncingTransactions over the persisted queue;
    - [Balances]: restoreBalancesFromSnapshot over the remote balance table;
    - [CsvImport]: the two-pass balance computation of the CSV import screen;
    - [Transfers]: the transfer matcher, modelled from its specification.

    JavaScript values are modelled as the code observes them: strings as
    [string], integer amounts in minor units as [Z], decimal amounts as [Q],
    [Map]s as [gmap], objects enumerated with [Object.keys] as association
    lists in key order, and storage / remote effects as explicit state
    passing with the environment's answers supplied by oracles. *)

From stdpp Require Import gmap strings list fin_maps.
From Stdlib Require Import ZArith QArith Qround Lia.

Close Scope Q_scope.
Open Scope string_scope.
Open Scope list_scope.

(** ** JavaScript string helpers *)

Module Js.

(** [s.includes(sub)]: [sub] occurs in [s] as a contiguous substring. *)
Fixpoint includes (s sub : string) : bool :=
  if String.prefix sub s then true
  else match s with
       | EmptyString => false
       | String _ s' => includes s' sub
       end.

(** Truthiness of a string value: only the empty string is falsy. *)
Definition truthy (s : string) : bool :=
  negb (String.eqb s "").

(** ASCII case mapping, as needed to compare with the ASCII constants the
    code tests against. *)
Definition lowerAscii (c : Ascii.ascii) : Ascii.ascii :=
  let n := Ascii.nat_of_ascii c in
  if (65 <=? n)%nat && (n <=? 90)%nat then Ascii.ascii_of_nat (n + 32) else c.

Definition upperAscii (c : Ascii.ascii) : Ascii.ascii :=
  let n := Ascii.nat_of_ascii c in
  if (97 <=? n)%nat && (n <=? 122)%nat then Ascii.ascii_of_nat (n - 32) else c.

Fixpoint mapString (f : Ascii.ascii -> Ascii.ascii) (s : string) : string :=
  match s with
  | EmptyString => EmptyString
  | String c s' => String (f c) (mapString f s')
  end.

Definition toLowerCase : string -> string := mapString lowerAscii.
Definition toUpperCase : string -> string := mapString upperAscii.

Lemma app_empty (s : string) : "" +:+ s = s.
Proof. reflexivity. Qed.

Lemma app_cons (a : Ascii.ascii) (s t : string) :
  String a s +:+ t = String a (s +:+ t).
Proof. reflexivity. Qed.

Lemma prefix_app (p s : string) :
  String.prefix p s = true <-> exists post, s = p +:+ post.
Proof.
  revert s. induction p as [|a p IH]; intros s.
  - split; [intros _; exists s; reflexivity | intros _; by destruct s].
  - destruct s as [|b s]; simpl.
    + split; [discriminate | intros [post H]; discriminate].
    + destruct (Ascii.ascii_dec a b) as [->|Hne].
      * rewrite IH. split; intros [post H]; exists post.
        -- by rewrite app_cons, H.
        -- rewrite app_cons in H. by injection H.
      * split; [discriminate|]. intros [post H]. rewrite app_cons in H.
        injection H as H1 H2. congruence.
Qed.

Lemma includes_empty (sub : string) :
  includes "" sub = String.prefix sub "".
Proof. unfold includes. by destruct (String.prefix sub ""). Qed.

Lemma includes_cons (a : Ascii.ascii) (s sub : string) :
  includes (String a s) sub =
  if String.prefix sub (String a s) then true else includes s sub.
Proof. reflexivity. Qed.

(** [includes] decides the substring relation. *)
Lemma includes_spec (s sub : string) :
  includes s sub = true <-> exists pre post, s = pre +:+ sub +:+ post.
Proof.
  induction s as [|a s IH].
  - rewrite includes_empty, prefix_app. split.
    + intros [post Hp]. by exists "", post.
    + intros (pre & post & H). destruct pre.
      * rewrite app_empty in H. eauto.
      * rewrite app_cons in H. discriminate.
  - rewrite includes_cons.
    destruct (String.prefix sub (String a s)) eqn:Hp.
    + split; [intros _|done].
      apply prefix_app in Hp as [post Hp]. by exists "", post.
    + rewrite IH. split.
      * intros (pre & post & ->). by exists (String a pre), post.
      * intros (pre & post & H). destruct pre as [|b pre].
        -- rewrite app_empty in H.
           assert (String.prefix sub (String a s) = true)
             by (apply prefix_app; eauto).
           congruence.
        -- rewrite app_cons in H. injection H as -> ->. eauto.
Qed.

Lemma length_app (a b : string) :
  String.length (a +:+ b) = String.length a + String.length b.
Proof.
  induction a; [done|]. rewrite app_cons. simpl. congruence.
Qed.

(** A string cannot contain a strictly longer one. *)
Lemma includes_length (s sub : string) :
  includes s sub = true -> String.length sub <= String.length s.
Proof.
  intros (pre & post & ->)%includes_spec. rewrite !length_app. lia.
Qed.

End Js.

(** ** Learned-merchant fuzzy matching *)

Module Categorizer.

(** [MerchantMapping]: a plain object merchantKey -> categoryId, kept as
    its own (key, value) pairs in [Object.keys] order. *)
Definition MerchantMapping := list (string * string).

(** [learnedMappings[key]] over the object's own properties: [None] is
    [undefined]. *)
Fixpoint getProp (m : MerchantMapping) (key : string) : option string :=
  match m with
  | [] => None
  | (k, v) :: rest => if String.eqb k key then Some v else getProp rest key
  end.

(** [Object.keys(learnedMappings)] *)
Definition keys (m : MerchantMapping) : list string := map fst m.

(** The loop over the stored keys. *)
Fixpoint scanKeys (titleKey : string) (m : MerchantMapping)
    (merchantKeys : list string) : option string :=
  match merchantKeys with
  | [] => None
  | storedKey :: rest =>
      if (String.length storedKey <? 4)%nat then scanKeys titleKey m rest
      else if Js.includes titleKey storedKey then getProp m storedKey
      else if (5 <=? String.length titleKey)%nat && Js.includes storedKey titleKey
      then getProp m storedKey
      else scanKeys titleKey m rest
  end.

(** The exact-match test [if (learnedMappings[titleKey])]. *)
Definition exactMatch (titleKey : string) (m : MerchantMapping) : option string :=
  match getProp m titleKey with
  | Some c => if Js.truthy c then Some c else None
  | None => None
  end.

Definition findMatchingCategory (titleKey : string) (m : MerchantMapping)
    : option string :=
  match exactMatch titleKey m with
  | Some c => Some c
  | None => scanKeys titleKey m (keys m)
  end.

(** What the loop body accepts for one stored key. *)
Definition containmentMatch (titleKey storedKey : string) : Prop :=
  4 <= String.length storedKey /\
  (Js.includes titleKey storedKey = true \/
   (5 <= String.length titleKey /\ Js.includes storedKey titleKey = true)).

Lemma getProp_keys (m : MerchantMapping) (k : string) :
  In k (keys m) -> exists c, getProp m k = Some c.
Proof.
  induction m as [|[k' v] m IH]; simpl; [done|].
  intros [->|Hin].
  - rewrite String.eqb_refl. eauto.
  - destruct (String.eqb k' k); eauto.
Qed.

Lemma containmentMatch_dec (titleKey storedKey : string) :
  containmentMatch titleKey storedKey <->
  negb (String.length storedKey <? 4)%nat
  && (Js.includes titleKey storedKey
      || (5 <=? String.length titleKey)%nat && Js.includes storedKey titleKey)
  = true.
Proof.
  unfold containmentMatch.
  rewrite andb_true_iff, orb_true_iff, andb_true_iff, negb_true_iff.
  rewrite Nat.ltb_ge, Nat.leb_le. tauto.
Qed.

(** The loop returns the entry of the first stored key, in key order, that
    the loop body accepts. *)
Lemma scanKeys_sound titleKey m ks c :
  scanKeys titleKey m ks = Some c ->
  exists skipped storedKey later,
    ks = skipped ++ storedKey :: later /\
    Forall (fun k => ~ containmentMatch titleKey k) skipped /\
    getProp m storedKey = Some c /\
    containmentMatch titleKey storedKey.
Proof.
  induction ks as [|k ks IH]; [done|]. cbn [scanKeys].
  assert (Hskip : ~ containmentMatch titleKey k ->
            scanKeys titleKey m ks = Some c ->
            exists skipped storedKey later,
              k :: ks = skipped ++ storedKey :: later /\
              Forall (fun k => ~ containmentMatch titleKey k) skipped /\
              getProp m storedKey = Some c /\
              containmentMatch titleKey storedKey).
  { intros Hk (skipped & s & later & -> & Hall & Hget & Hs)%IH.
    exists (k :: skipped), s, later. split; [done|].
    split; [by constructor|]. by split. }
  assert (Hhit : containmentMatch titleKey k -> getProp m k = Some c ->
            exists skipped storedKey later,
              k :: ks = skipped ++ storedKey :: later /\
              Forall (fun k => ~ containmentMatch titleKey k) skipped /\
              getProp m storedKey = Some c /\
              containmentMatch titleKey storedKey).
  { intros Hk Hget. exists [], k, ks. split; [done|]. split; [constructor|].
    by split. }
  pose proof (containmentMatch_dec titleKey k) as Hdec.
  destruct (String.length k <? 4)%nat.
  { apply Hskip. rewrite Hdec. done. }
  destruct (Js.includes titleKey k).
  { apply Hhit. by rewrite Hdec. }
  destruct (5 <=? String.length titleKey)%nat; cbn [andb] in *.
  - destruct (Js.includes k titleKey).
    + apply Hhit. by rewrite Hdec.
    + apply Hskip. rewrite Hdec. done.
  - apply Hskip. rewrite Hdec. done.
Qed.

Lemma scanKeys_complete titleKey m ks storedKey :
  (forall k, In k ks -> In k (keys m)) ->
  In storedKey ks -> containmentMatch titleKey storedKey ->
  exists c, scanKeys titleKey m ks = Some c.
Proof.
  intros Hsub Hin (Hlen & Hc).
  induction ks as [|k ks IH]; [done|]. cbn [scanKeys].
  assert (Hk : exists c, getProp m k = Some c)
    by (apply getProp_keys, Hsub; by left).
  assert (Hrest : storedKey <> k -> exists c, scanKeys titleKey m ks = Some c).
  { intros Hne. apply IH; [intros; apply Hsub; by right|].
    destruct Hin; congruence. }
  destruct (String.length k <? 4)%nat eqn:Hk4.
  { apply Hrest. intros ->. apply Nat.ltb_lt in Hk4. lia. }
  destruct (Js.includes titleKey k) eqn:Hinc; [done|].
  destruct (5 <=? String.length titleKey)%nat eqn:H5; cbn [andb].
  - destruct (Js.includes k titleKey) eqn:Hinc'; [done|].
    apply Hrest. intros ->. destruct Hc as [?|[_ ?]]; congruence.
  - apply Hrest. intros ->. apply Nat.leb_gt in H5.
    destruct Hc as [?|[? _]]; [congruence|lia].
Qed.

Example findMatchingCategory_exact :
  findMatchingCategory "tesco" [("lidl", "c1"); ("tesco", "c2")] = Some "c2".
Proof. reflexivity. Qed.

Example findMatchingCategory_stored_in_title :
  findMatchingCategory "tescostores1234" [("lidl", "c1"); ("tesco", "c2")]
  = Some "c2".
Proof. reflexivity. Qed.

Example findMatchingCategory_title_in_stored :
  findMatchingCategory "tescos" [("tescostores", "c2")] = Some "c2".
Proof. reflexivity. Qed.

Example findMatchingCategory_short_stored_key :
  findMatchingCategory "bpstation" [("bp", "fuel")] = None.
Proof. reflexivity. Qed.

(** C8 (as stated, refuted): a single length guard of 4 characters does not
    describe the reverse containment test.  The title key "tesc" has 4
    characters, has no exact entry and is contained in the stored key
    "tesco" (5 characters), yet no containment match is produced: the
    reverse direction is only tried for title keys of at least 5
    characters. *)
Lemma findMatchingCategory_title_of_four_unmatched :
  exactMatch "tesc" [("tesco", "groceries")] = None /\
  4 <= String.length "tesc" /\
  4 <= String.length "tesco" /\
  Js.includes "tesco" "tesc" = true /\
  findMatchingCategory "tesc" [("tesco", "groceries")] = None.
Proof. repeat split; vm_compute; lia. Qed.

(** C8 (amended): when no exact key match exists, findMatchingCategory
    returns a category exactly when some stored key of at least 4
    characters either is contained in the title key, or contains the title
    key and the title key has at least 5 characters; the category returned
    is the one stored under the first such key in key order.  In particular
    neither a stored key nor a title key shorter than 4 characters ever
    produces a containment match. *)
Theorem findMatchingCategory_containment (titleKey : string) (m : MerchantMapping) :
  exactMatch titleKey m = None ->
  (forall c, findMatchingCategory titleKey m = Some c ->
     exists skipped storedKey later,
       keys m = skipped ++ storedKey :: later /\
       Forall (fun k => ~ containmentMatch titleKey k) skipped /\
       getProp m storedKey = Some c /\
       4 <= String.length storedKey /\
       (Js.includes titleKey storedKey = true \/
        (5 <= String.length titleKey /\ Js.includes storedKey titleKey = true)))
  /\ ((exists storedKey,
         In storedKey (keys m) /\ 4 <= String.length storedKey /\
         (Js.includes titleKey storedKey = true \/
          (5 <= String.length titleKey /\ Js.includes storedKey titleKey = true)))
      -> exists c, findMatchingCategory titleKey m = Some c)
  /\ (String.length titleKey < 4 -> findMatchingCategory titleKey m = None).
Proof.
  intros Hex. unfold findMatchingCategory. rewrite Hex.
  split; [|split].
  - intros c Hc.
    apply scanKeys_sound in Hc as (skipped & k & later & Hks & Hall & Hget & Hk).
    exists skipped, k, later. by destruct Hk.
  - intros (k & Hin & Hlen & Hc).
    apply scanKeys_complete with (storedKey := k); [auto|done|by split].
  - intros Hshort.
    destruct (scanKeys titleKey m (keys m)) as [c|] eqn:Hs; [|done].
    apply scanKeys_sound in Hs as (_ & k & _ & _ & _ & _ & Hlen & [Hc|[H5 _]]).
    + apply Js.includes_length in Hc. lia.
    + lia.
Qed.

Lemma findMatchingCategory_containment_witness :
  exactMatch "tescostores" [("tesco", "groceries")] = None /\
  exists c, findMatchingCategory "tescostores" [("tesco", "groceries")] = Some c.
Proof.
  split; [reflexivity|].
  destruct (findMatchingCategory_containment
              "tescostores" [("tesco", "groceries")] eq_refl) as (_ & H & _).
  apply H. exists "tesco". vm_compute. intuition lia.
Defined.

End Categorizer.

(** ** Delete queue: startDeletingTransactions

    Notifications do not feed back into a run and are left out. *)

Module DeleteQueue.

Inductive Status := Pending | InProgress | Completed | Failed.

#[global] Instance Status_eq_dec : EqDecision Status.
Proof. solve_decision. Defined.

Record DeleteOperation := {
  userId : string;
  status : Status;
  totalDeleted : nat;
  totalToDelete : nat;
  lastError : option string;
  createdAt : string;
}.

(** The fields of a rejected remote call that the handler reads. *)
Record RemoteError := {
  code : option Z;
  type : option string;
  message : option string;
}.

Inductive DeleteOutcome :=
| Deleted
| Rejected (e : RemoteError).

Inductive ListOutcome :=
| Listed (documents : list string)
| ListFailed (msg : string).

(** The environment of one run: the answer of the total count query
    ([None] when it throws), of the n-th listDocuments call of the loop and of
    the n-th deleteDocument call. *)
Record Env := {
  countDocs : option nat;
  listDocs : nat -> ListOutcome;
  deleteDoc : nat -> DeleteOutcome;
}.

(** Observable effects, in program order. *)
Inductive Event :=
| EvDelete (docId : string)                   (* databases.deleteDocument *)
| EvSleep (ms : Z)                            (* setTimeout *)
| EvAlreadyDeleted (docId : string)           (* captureMessage, 404 branch *)
| EvCapture (context : string) (docId : string) (* captureException *)
| EvProgress (deleted : nat) (st : Status)    (* onProgressUpdate *)
| EvRemoveItem (key : string)                 (* AsyncStorage.removeItem *)
| EvResetSyncStatus.                          (* resetSyncStatus *)

Definition DELETE_QUEUE_KEY := "delete_queue".
Definition SYNC_QUEUE_KEY := "budget_app_sync_queue".
Definition batchSize := 1.
Definition delayBetweenBatches := 2000%Z.
Definition delayBetweenDocuments := 500%Z.
Definition rateLimitWait := 10000%Z.

Definition optIncludes (s : option string) (sub : string) : bool :=
  match s with Some m => Js.includes m sub | None => false end.

(** [error.code === 404 || error.message?.includes('could not be found')] *)
Definition isNotFound (e : RemoteError) : bool :=
  bool_decide (code e = Some 404%Z) || optIncludes (message e) "could not be found".

(** [error.code === 429 || error.type === 'rate_limit_exceeded' ||
     error.message?.includes('rate limit')] *)
Definition isRateLimit (e : RemoteError) : bool :=
  bool_decide (code e = Some 429%Z)
  || bool_decide (type e = Some "rate_limit_exceeded")
  || optIncludes (message e) "rate limit".

(** Local variables of the run together with the effects so far. *)
Record Loop := {
  total : nat;          (* totalDeleted *)
  batchDeleted : nat;
  deleteCalls : nat;    (* deleteDocument calls issued so far *)
  listCalls : nat;      (* listDocuments calls issued by the loop so far *)
  events : list Event;
}.

Definition emit (evs : list Event) (l : Loop) : Loop :=
  {| total := total l; batchDeleted := batchDeleted l;
     deleteCalls := deleteCalls l; listCalls := listCalls l;
     events := events l ++ evs |}.

Definition counted (l : Loop) : Loop :=
  {| total := S (total l); batchDeleted := S (batchDeleted l);
     deleteCalls := deleteCalls l; listCalls := listCalls l;
     events := events l |}.

(** Issue one deleteDocument call and read its outcome. *)
Definition callDelete (env : Env) (docId : string) (l : Loop)
    : DeleteOutcome * Loop :=
  (deleteDoc env (deleteCalls l),
   {| total := total l; batchDeleted := batchDeleted l;
      deleteCalls := S (deleteCalls l); listCalls := listCalls l;
      events := events l ++ [EvDelete docId] |}).

(** The body of [for (const doc of response.documents)]. *)
Definition deleteOne (env : Env) (docId : string) (l : Loop) : Loop :=
  match callDelete env docId l with
  | (Deleted, l1) => emit [EvSleep delayBetweenDocuments] (counted l1)
  | (Rejected e, l1) =>
      if isNotFound e then emit [EvAlreadyDeleted docId] (counted l1)
      else if isRateLimit e then
        let l2 := emit [EvCapture "delete_rate_limit" docId;
                        EvSleep rateLimitWait] l1 in
        match callDelete env docId l2 with
        | (Deleted, l3) => counted l3
        | (Rejected _, l3) =>
            emit [EvCapture "delete_rate_limit_retry_failed" docId] l3
        end
      else emit [EvCapture "delete_error" docId] l1
  end.

Definition deleteBatch (env : Env) (docs : list string) (l : Loop) : Loop :=
  foldl (fun acc docId => deleteOne env docId acc) l docs.

(** [updateDeleteStatus]: merge into the stored operation, if there is one. *)
Definition updateDeleteStatus (f : DeleteOperation -> DeleteOperation)
    (stored : option DeleteOperation) : option DeleteOperation :=
  f <$> stored.

Definition setTotalDeleted (n : nat) (o : DeleteOperation) : DeleteOperation :=
  {| userId := userId o; status := status o; totalDeleted := n;
     totalToDelete := totalToDelete o; lastError := lastError o;
     createdAt := createdAt o |}.

Definition setStarted (toDelete : nat) (o : DeleteOperation) : DeleteOperation :=
  {| userId := userId o; status := InProgress; totalDeleted := totalDeleted o;
     totalToDelete := toDelete; lastError := lastError o;
     createdAt := createdAt o |}.

Definition setFailed (msg : string) (o : DeleteOperation) : DeleteOperation :=
  {| userId := userId o; status := Failed; totalDeleted := 0;
     totalToDelete := totalToDelete o; lastError := Some msg;
     createdAt := createdAt o |}.

(** Persisted delete operation and the run's local state. *)
Record State := {
  deleteQueue : option DeleteOperation;  (* AsyncStorage[DELETE_QUEUE_KEY] *)
  loop : Loop;
}.

Inductive Step :=
| Continue (s : State)     (* next iteration of [while (true)] *)
| Finished (s : State)     (* [break] after completion *)
| Thrown (s : State).      (* the catch block ran *)

Definition nextList (l : Loop) : Loop :=
  {| total := total l; batchDeleted := batchDeleted l;
     deleteCalls := deleteCalls l; listCalls := S (listCalls l);
     events := events l |}.

Definition resetBatch (l : Loop) : Loop :=
  {| total := total l; batchDeleted := 0;
     deleteCalls := deleteCalls l; listCalls := listCalls l;
     events := events l |}.

(** One iteration of the [while (true)] loop. *)
Definition iteration (env : Env) (s : State) : Step :=
  let l := loop s in
  match listDocs env (listCalls l) with
  | ListFailed msg =>
      Thrown {| deleteQueue := updateDeleteStatus (setFailed msg) (deleteQueue s);
                loop := emit [EvProgress 0 Failed] (nextList l) |}
  | Listed [] =>
      Finished {| deleteQueue := None;
                  loop := emit [EvProgress (total l) Completed;
                                EvRemoveItem DELETE_QUEUE_KEY;
                                EvRemoveItem SYNC_QUEUE_KEY;
                                EvResetSyncStatus] (nextList l) |}
  | Listed docs =>
      let l' := deleteBatch env docs (resetBatch (nextList l)) in
      Continue {| deleteQueue :=
                    updateDeleteStatus (setTotalDeleted (total l')) (deleteQueue s);
                  loop := emit [EvProgress (total l') InProgress;
                                EvSleep delayBetweenBatches] l' |}
  end.

(** The loop, cut off after [fuel] iterations ([None]: still running). *)
Fixpoint iterations (fuel : nat) (env : Env) (s : State) : option State :=
  match fuel with
  | 0 => None
  | S fuel' =>
      match iteration env s with
      | Continue s' => iterations fuel' env s'
      | Finished s' => Some s'
      | Thrown s' => Some s'
      end
  end.

Definition initialLoop : Loop :=
  {| total := 0; batchDeleted := 0; deleteCalls := 0; listCalls := 0;
     events := [] |}.

(** startDeletingTransactions, from the in-memory lock [locked] and the
    stored operation; the lock is released by [finally] on every path that
    acquired it, so only the stored operation and the effects are returned. *)
Definition startDeletingTransactions (fuel : nat) (env : Env)
    (locked : bool) (stored : option DeleteOperation) : option State :=
  if locked then Some {| deleteQueue := stored; loop := initialLoop |}
  else
    match stored with
    | None => Some {| deleteQueue := stored; loop := initialLoop |}
    | Some operation =>
        match status operation with
        | Completed | InProgress =>
            Some {| deleteQueue := stored; loop := initialLoop |}
        | Pending | Failed =>
            let toDelete := default 0 (countDocs env) in
            iterations fuel env
              {| deleteQueue := updateDeleteStatus (setStarted toDelete) stored;
                 loop := emit [EvProgress 0 InProgress] initialLoop |}
        end
    end.

(** *** Error handling of a single document *)

Section DeleteOne.

Variable env : Env.

Lemma deleteOne_deleted docId l :
  deleteDoc env (deleteCalls l) = Deleted ->
  deleteOne env docId l =
  {| total := S (total l); batchDeleted := S (batchDeleted l);
     deleteCalls := S (deleteCalls l); listCalls := listCalls l;
     events := (events l ++ [EvDelete docId]) ++ [EvSleep 500] |}.
Proof. intros H. unfold deleteOne, callDelete. by rewrite H. Qed.

Lemma deleteOne_not_found docId l e :
  deleteDoc env (deleteCalls l) = Rejected e -> isNotFound e = true ->
  deleteOne env docId l =
  {| total := S (total l); batchDeleted := S (batchDeleted l);
     deleteCalls := S (deleteCalls l); listCalls := listCalls l;
     events := (events l ++ [EvDelete docId]) ++ [EvAlreadyDeleted docId] |}.
Proof. intros H Hnf. unfold deleteOne, callDelete. by rewrite H, Hnf. Qed.

Lemma deleteOne_retry_deleted docId l e :
  deleteDoc env (deleteCalls l) = Rejected e ->
  isNotFound e = false -> isRateLimit e = true ->
  deleteDoc env (S (deleteCalls l)) = Deleted ->
  deleteOne env docId l =
  {| total := S (total l); batchDeleted := S (batchDeleted l);
     deleteCalls := S (S (deleteCalls l)); listCalls := listCalls l;
     events := ((events l ++ [EvDelete docId])
                  ++ [EvCapture "delete_rate_limit" docId; EvSleep 10000])
                 ++ [EvDelete docId] |}.
Proof.
  intros H Hnf Hrl Hretry. unfold deleteOne, callDelete.
  rewrite H, Hnf, Hrl. cbn. by rewrite Hretry.
Qed.

Lemma deleteOne_retry_rejected docId l e e' :
  deleteDoc env (deleteCalls l) = Rejected e ->
  isNotFound e = false -> isRateLimit e = true ->
  deleteDoc env (S (deleteCalls l)) = Rejected e' ->
  deleteOne env docId l =
  {| total := total l; batchDeleted := batchDeleted l;
     deleteCalls := S (S (deleteCalls l)); listCalls := listCalls l;
     events := (((events l ++ [EvDelete docId])
                   ++ [EvCapture "delete_rate_limit" docId; EvSleep 10000])
                  ++ [EvDelete docId])
                 ++ [EvCapture "delete_rate_limit_retry_failed" docId] |}.
Proof.
  intros H Hnf Hrl Hretry. unfold deleteOne, callDelete.
  rewrite H, Hnf, Hrl. cbn. by rewrite Hretry.
Qed.

Lemma deleteBatch_cons docId rest l :
  deleteBatch env (docId :: rest) l = deleteBatch env rest (deleteOne env docId l).
Proof. reflexivity. Qed.

(** A non-empty listing never ends the loop, whatever the deletes answer. *)
Lemma iteration_continues s docId rest :
  listDocs env (listCalls (loop s)) = Listed (docId :: rest) ->
  exists s', iteration env s = Continue s'.
Proof. intros H. unfold iteration. rewrite H. eauto. Qed.

(** C9: an individual delete rejected with a 404 / 'could not be found'
    error is counted as deleted (totalDeleted is incremented, no retry is
    made); a delete rejected with a 429 / rate-limit error is retried exactly
    once, after a 10 second wait; a successful retry is counted, a rejected
    retry leaves totalDeleted unchanged, is recorded as a failure, and the
    loop goes on with the remaining documents of the batch and with the next
    iteration of the outer loop. *)
Theorem delete_error_handling (docId : string) (rest : list string)
    (l : Loop) (e : RemoteError) :
  deleteDoc env (deleteCalls l) = Rejected e ->
  let l' := deleteOne env docId l in
  (isNotFound e = true ->
     total l' = S (total l) /\
     deleteCalls l' = S (deleteCalls l) /\
     events l' = events l ++ [EvDelete docId; EvAlreadyDeleted docId])
  /\
  (isNotFound e = false -> isRateLimit e = true ->
     deleteCalls l' = S (S (deleteCalls l)) /\
     (exists tail,
        events l' = events l ++ [EvDelete docId;
                                 EvCapture "delete_rate_limit" docId;
                                 EvSleep 10000;
                                 EvDelete docId] ++ tail /\
        (deleteDoc env (S (deleteCalls l)) = Deleted ->
           total l' = S (total l) /\ tail = []) /\
        (forall e', deleteDoc env (S (deleteCalls l)) = Rejected e' ->
           total l' = total l /\
           tail = [EvCapture "delete_rate_limit_retry_failed" docId])) /\
     deleteBatch env (docId :: rest) l = deleteBatch env rest l' /\
     (forall s, loop s = l ->
        listDocs env (listCalls l) = Listed (docId :: rest) ->
        exists s', iteration env s = Continue s')).
Proof.
  intros H l'.
  assert (Hb : deleteBatch env (docId :: rest) l = deleteBatch env rest l')
    by reflexivity.
  assert (Hl' : l' = deleteOne env docId l) by reflexivity.
  clearbody l'. split.
  - intros Hnf. rewrite (deleteOne_not_found _ _ _ H Hnf) in Hl'. subst l'.
    cbn. by rewrite <- app_assoc.
  - intros Hnf Hrl.
    destruct (deleteDoc env (S (deleteCalls l))) as [|e'] eqn:Hretry.
    + rewrite (deleteOne_retry_deleted _ _ _ H Hnf Hrl Hretry) in Hl'.
      split; [by subst l'|]. split; [|split; [done|]].
      * exists []. subst l'. cbn. rewrite <- !app_assoc. cbn.
        split; [done|]. split; [done|]. intros ? [=].
      * intros s <-. apply iteration_continues.
    + rewrite (deleteOne_retry_rejected _ _ _ _ H Hnf Hrl Hretry) in Hl'.
      split; [by subst l'|]. split; [|split; [done|]].
      * exists [EvCapture "delete_rate_limit_retry_failed" docId].
        subst l'. cbn. rewrite <- !app_assoc. cbn.
        split; [done|]. split; [intros [=]|done].
      * intros s <-. apply iteration_continues.
Qed.

End DeleteOne.

(** A run in which the single listed document is rate limited twice. *)
Definition rateLimited : RemoteError :=
  {| code := Some 429%Z; type := Some "rate_limit_exceeded";
     message := Some "Rate limit for the current endpoint has been exceeded" |}.

Definition notFound : RemoteError :=
  {| code := Some 404%Z; type := Some "document_not_found";
     message := Some "Document with the requested ID could not be found." |}.

Definition throttledEnv : Env :=
  {| countDocs := Some 2;
     listDocs := fun n => match n with
                          | 0 => Listed ["doc1"]
                          | 1 => Listed ["doc2"]
                          | _ => Listed []
                          end;
     deleteDoc := fun n => match n with
                           | 0 | 1 => Rejected rateLimited
                           | _ => Rejected notFound
                           end |}.

Definition pendingOp : DeleteOperation :=
  {| userId := "u1"; status := Pending; totalDeleted := 0; totalToDelete := 0;
     lastError := None; createdAt := "2025-01-01T00:00:00.000Z" |}.

Example throttled_run :
  (fun s => (deleteQueue s, total (loop s), deleteCalls (loop s)))
    <$> startDeletingTransactions 5 throttledEnv false (Some pendingOp)
  = Some (None, 1, 3).
Proof. reflexivity. Qed.

Lemma delete_error_handling_witness :
  deleteDoc throttledEnv (deleteCalls initialLoop) = Rejected rateLimited /\
  total (deleteOne throttledEnv "doc1" initialLoop) = 0 /\
  deleteCalls (deleteOne throttledEnv "doc1" initialLoop) = 2.
Proof.
  split; [reflexivity|].
  destruct (delete_error_handling throttledEnv "doc1" [] initialLoop
              rateLimited eq_refl) as [_ H].
  destruct (H eq_refl eq_refl) as (Hcalls & (tail & _ & _ & Hfail) & _).
  split; [|exact Hcalls].
  exact (proj1 (Hfail rateLimited eq_refl)).
Defined.

End DeleteQueue.

(** ** Bulk upload: createBulkTransactions *)

Module Bulk.

Inductive Kind := income | expense.

(** One element of the [transactions] argument: the optional queue id used
    as the remote document id, and the transaction fields. *)
Record Draft := {
  id : option string;
  title : string;
  subtitle : string;
  amount : Z;
  kind : Kind;
  categoryId : string;
  date : string;
  currency : string;
  account : option string;
  matchedTransferId : option string;
  importBatchId : option string;
}.

(** The answer of createTransaction: the document was created, or the call
    was rejected with [err?.message]. *)
Inductive CreateOutcome :=
| Created
| CreateFailed (message : option string).

Record BulkError := {
  message : string;
  errTitle : option string;
  errDate : option string;
}.

Record BulkCreateResult := {
  created : nat;
  failed : nat;
  errors : list BulkError;
  successfulIndices : list nat;
}.

(** What a call leaves behind: the returned result, the createTransaction
    calls it made, in order, and the number of batches it completed. *)
Record Run := {
  result : BulkCreateResult;
  calls : list Draft;
  batchesRun : nat;
}.

Definition BATCH_SIZE := 2.

(** [err?.message || "Unknown error"] *)
Definition errorMessage (m : option string) : string :=
  match m with
  | Some s => if Js.truthy s then s else "Unknown error"
  | None => "Unknown error"
  end.

Definition isDuplicate (message : string) : bool :=
  Js.includes message "Document with the requested ID already exists"
  || Js.includes message "already exists".

(** What one element of a batch contributes: the value its promise resolves
    to ([Some index] for [{ success: true, index }], [None] for [null]), the
    errors it pushes, and the createTransaction calls it makes. *)
Record Attempt := {
  resolved : option nat;
  pushed : list BulkError;
  called : list Draft;
}.

Section CreateBulk.

Context {St : Type}.

(** [create index tx]: the answer to the createTransaction call made for the
    element at [index]; [shouldCancel n]: what [shouldCancel()] returns once
    [n] batches of this call have completed; the two callbacks act on the
    caller's state. *)
Variable create : nat -> Draft -> CreateOutcome.
Variable shouldCancel : nat -> bool.
Variable onProgress : nat -> nat -> St -> St.
Variable onBatchSuccess : list nat -> St -> St.
Variable transactions : list Draft.

Definition attempt (batchesDone : nat) (index : nat) (tx : Draft) : Attempt :=
  if shouldCancel batchesDone
  then {| resolved := None; pushed := []; called := [] |}
  else
    match create index tx with
    | Created => {| resolved := Some index; pushed := []; called := [tx] |}
    | CreateFailed m =>
        let message := errorMessage m in
        if isDuplicate message
        then {| resolved := Some index; pushed := []; called := [tx] |}
        else {| resolved := None;
                pushed := [{| message := message; errTitle := Some (title tx);
                              errDate := Some (date tx) |}];
                called := [tx] |}
    end.

(** Loop state: the local variables, the calls made so far and the number
    of batches completed. *)
Record Acc := {
  accErrors : list BulkError;
  accSuccessful : list nat;
  accCreated : nat;
  accCalls : list Draft;
  batches : nat;
}.

Definition emptyAcc : Acc :=
  {| accErrors := []; accSuccessful := []; accCreated := 0; accCalls := [];
     batches := 0 |}.

(** The loop body for the batch starting at [i]. *)
Definition runBatch (i : nat) (acc : Acc) (s : St) : Acc * St :=
  let batch := take BATCH_SIZE (drop i transactions) in
  let batchResults :=
    imap (fun batchIndex tx => attempt (batches acc) (i + batchIndex) tx) batch in
  let successCount := length (filter (fun r => is_Some (resolved r)) batchResults) in
  let batchSuccessfulIndices := omap resolved batchResults in
  let s1 := match batchSuccessfulIndices with
            | [] => s
            | _ => onBatchSuccess batchSuccessfulIndices s
            end in
  let s2 := onProgress (min (i + BATCH_SIZE) (length transactions))
                       (length transactions) s1 in
  ({| accErrors := accErrors acc ++ concat (map pushed batchResults);
      accSuccessful := accSuccessful acc ++ batchSuccessfulIndices;
      accCreated := accCreated acc + successCount;
      accCalls := accCalls acc ++ concat (map called batchResults);
      batches := S (batches acc) |}, s2).

(** [for (let i = 0; i < transactions.length; i += BATCH_SIZE)], over the
    batch numbers still to run. *)
Fixpoint batchLoop (todo : list nat) (acc : Acc) (s : St) : Acc * St :=
  match todo with
  | [] => (acc, s)
  | k :: todo' =>
      if shouldCancel (batches acc) then (acc, s)
      else let '(acc', s') := runBatch (k * BATCH_SIZE) acc s in
           batchLoop todo' acc' s'
  end.

Definition batchCount : nat :=
  (length transactions + (BATCH_SIZE - 1)) / BATCH_SIZE.

Definition toResult (acc : Acc) : BulkCreateResult :=
  {| created := accCreated acc; failed := length (accErrors acc);
     errors := accErrors acc; successfulIndices := accSuccessful acc |}.

Definition toRun (acc : Acc) : Run :=
  {| result := toResult acc; calls := accCalls acc; batchesRun := batches acc |}.

(** createBulkTransactions: [inl] is the exception of the configuration
    guard. *)
Definition createBulkTransactions (configured : bool) (s : St)
    : string + (Run * St) :=
  if configured
  then let '(acc, s') := batchLoop (seq 0 batchCount) emptyAcc s in
       inr (toRun acc, s')
  else inl "Appwrite env not configured".

(** *** Properties of the upload loop *)

(** The element at [index] is taken as uploaded: the create call succeeded,
    or it was rejected as a duplicate. *)
Definition accepted (index : nat) (tx : Draft) : bool :=
  match create index tx with
  | Created => true
  | CreateFailed m => isDuplicate (errorMessage m)
  end.

(** An attempt that made its call either resolves to an index and pushes
    nothing, or resolves to [null] and pushes one non-duplicate error. *)
Definition settled (r : Attempt) : Prop :=
  length (called r) = 1 /\
  ((is_Some (resolved r) /\ pushed r = []) \/
   (resolved r = None /\
    exists e, pushed r = [e] /\ isDuplicate (message e) = false)).

Lemma attempt_settled n index tx :
  shouldCancel n = false -> settled (attempt n index tx).
Proof.
  intros Hc. unfold attempt. rewrite Hc.
  destruct (create index tx) as [|m]; [split; [done|left; eauto]|].
  destruct (isDuplicate (errorMessage m)) eqn:Hd; split; try done.
  - left. eauto.
  - right. split; [done|]. eauto.
Qed.

Lemma attempt_accepted n index tx :
  shouldCancel n = false -> accepted index tx = true ->
  resolved (attempt n index tx) = Some index.
Proof.
  intros Hc Ha. unfold attempt, accepted in *. rewrite Hc.
  destruct (create index tx) as [|m]; [done|]. by rewrite Ha.
Qed.

Lemma settled_counts (rs : list Attempt) :
  Forall settled rs ->
  length (filter (fun r => is_Some (resolved r)) rs) = length (omap resolved rs) /\
  length (omap resolved rs) + length (concat (map pushed rs))
    = length (concat (map called rs)) /\
  Forall (fun e => isDuplicate (message e) = false) (concat (map pushed rs)).
Proof.
  induction 1 as [|r rs (Hcall & Hr) _ (IH1 & IH2 & IH3)]; [done|].
  cbn [omap list_omap map concat]. rewrite filter_cons, !length_app, Hcall.
  destruct Hr as [([i Hi] & Hp)|(Hn & e & Hp & He)].
  - rewrite Hi, Hp. rewrite decide_True by eauto. cbn.
    split; [lia|]. split; [lia|done].
  - rewrite Hn, Hp. rewrite decide_False by (intros [? [=]]). cbn.
    split; [lia|]. split; [lia|]. by constructor.
Qed.

(** The counters of the loop agree with its lists. *)
Definition consistent (acc : Acc) : Prop :=
  accCreated acc = length (accSuccessful acc) /\
  accCreated acc + length (accErrors acc) = length (accCalls acc) /\
  Forall (fun e => isDuplicate (message e) = false) (accErrors acc).

Lemma runBatch_consistent i acc s :
  shouldCancel (batches acc) = false -> consistent acc ->
  consistent (runBatch i acc s).1.
Proof.
  intros Hc (H1 & H2 & H3). unfold runBatch. cbn.
  set (rs := imap _ _).
  assert (Hrs : Forall settled rs).
  { apply Forall_forall. intros r (j & tx & -> & _)%elem_of_lookup_imap.
    by apply attempt_settled. }
  destruct (settled_counts rs Hrs) as (C1 & C2 & C3).
  unfold consistent. cbn. rewrite !length_app, C1.
  split; [lia|]. split; [lia|]. by apply Forall_app.
Qed.

Lemma batchLoop_consistent todo acc s :
  consistent acc -> consistent (batchLoop todo acc s).1.
Proof.
  revert acc s. induction todo as [|k todo IH]; intros acc s Hacc; [done|].
  cbn [batchLoop]. destruct (shouldCancel (batches acc)) eqn:Hc; [done|].
  pose proof (runBatch_consistent (k * BATCH_SIZE) acc s Hc Hacc) as Hr.
  destruct (runBatch (k * BATCH_SIZE) acc s) as [acc' s']. by apply IH.
Qed.

Lemma runBatch_batches i acc s :
  batches (runBatch i acc s).1 = S (batches acc).
Proof. reflexivity. Qed.

Lemma runBatch_successful_mono i acc s x :
  x ∈ accSuccessful acc -> x ∈ accSuccessful (runBatch i acc s).1.
Proof. intros H. cbn. apply elem_of_app. by left. Qed.

Lemma batchLoop_successful_mono todo acc s x :
  x ∈ accSuccessful acc -> x ∈ accSuccessful (batchLoop todo acc s).1.
Proof.
  revert acc s. induction todo as [|k todo IH]; intros acc s Hx; [done|].
  cbn [batchLoop]. destruct (shouldCancel (batches acc)); [done|].
  pose proof (runBatch_successful_mono (k * BATCH_SIZE) acc s x Hx) as Hr.
  destruct (runBatch (k * BATCH_SIZE) acc s) as [acc' s']. by apply IH.
Qed.

Lemma runBatch_accepts k acc s index tx :
  shouldCancel (batches acc) = false ->
  transactions !! index = Some tx -> accepted index tx = true ->
  k * BATCH_SIZE <= index < k * BATCH_SIZE + BATCH_SIZE ->
  index ∈ accSuccessful (runBatch (k * BATCH_SIZE) acc s).1.
Proof.
  intros Hc Htx Ha Hk. unfold runBatch, BATCH_SIZE in *. cbn [fst accSuccessful].
  apply elem_of_app. right. apply list_elem_of_omap.
  exists (attempt (batches acc) index tx). split; [|by apply attempt_accepted].
  apply elem_of_lookup_imap. exists (index - k * 2), tx.
  split; [f_equal; lia|].
  rewrite lookup_take_lt by lia. rewrite lookup_drop.
  by replace (k * 2 + (index - k * 2)) with index by lia.
Qed.

Lemma batchLoop_accepts a m acc s index tx k :
  batches acc = a ->
  (forall j, a <= j <= k -> shouldCancel j = false) ->
  a <= k < a + m ->
  transactions !! index = Some tx -> accepted index tx = true ->
  k * BATCH_SIZE <= index < k * BATCH_SIZE + BATCH_SIZE ->
  index ∈ accSuccessful (batchLoop (seq a m) acc s).1.
Proof.
  revert a acc s. induction m as [|m IH]; intros a acc s Hb Hc Hk Htx Ha Hi.
  { lia. }
  cbn [seq batchLoop]. rewrite Hb, (Hc a) by lia.
  destruct (decide (k = a)) as [->|Hne].
  - pose proof (runBatch_accepts a acc s index tx) as Hr.
    rewrite Hb in Hr. specialize (Hr (Hc a ltac:(lia)) Htx Ha Hi).
    destruct (runBatch (a * BATCH_SIZE) acc s) as [acc' s'].
    by apply batchLoop_successful_mono.
  - pose proof (runBatch_batches (a * BATCH_SIZE) acc s) as Hb'.
    destruct (runBatch (a * BATCH_SIZE) acc s) as [acc' s'].
    apply IH; [cbn in Hb'; lia|intros; apply Hc; lia|lia|done..].
Qed.

Lemma batchCount_covers index tx :
  transactions !! index = Some tx -> index / BATCH_SIZE < batchCount.
Proof.
  intros H%lookup_lt_Some. unfold batchCount, BATCH_SIZE in *.
  change (2 - 1) with 1. apply Nat.Div0.div_lt_upper_bound.
  pose proof (Nat.div_mod_eq (length transactions + 1) 2).
  pose proof (Nat.mod_upper_bound (length transactions + 1) 2). lia.
Qed.

(** C4: a create call rejected with a duplicate-document-ID error (a
    message containing 'already exists') counts as created: provided the
    upload was not cancelled before the element's batch, its index is in
    successfulIndices; and in every result [created] is the number of
    successfulIndices, [created + failed] is the number of create calls made,
    and no recorded error is a duplicate error. *)
Theorem duplicate_create_is_success (configured : bool) (s : St)
    (index : nat) (tx : Draft) (msg : string) (r : Run) (s' : St) :
  createBulkTransactions configured s = inr (r, s') ->
  transactions !! index = Some tx ->
  create index tx = CreateFailed (Some msg) ->
  Js.includes msg "already exists" = true ->
  (forall k, k <= index / BATCH_SIZE -> shouldCancel k = false) ->
  index ∈ successfulIndices (result r) /\
  created (result r) = length (successfulIndices (result r)) /\
  created (result r) + failed (result r) = length (calls r) /\
  Forall (fun e => isDuplicate (message e) = false) (errors (result r)).
Proof.
  intros Hrun Htx Hcreate Hdup Hlive.
  unfold createBulkTransactions in Hrun.
  destruct configured; [|done].
  destruct (batchLoop (seq 0 batchCount) emptyAcc s) as [acc s1] eqn:Hbulk.
  injection Hrun as <- <-.
  assert (Hcons : consistent acc).
  { pose proof (batchLoop_consistent (seq 0 batchCount) emptyAcc s) as H.
    rewrite Hbulk in H. apply H. by repeat split. }
  destruct Hcons as (H1 & H2 & H3). cbn. split; [|done].
  assert (Hacc : accepted index tx = true).
  { unfold accepted. rewrite Hcreate. unfold isDuplicate, errorMessage.
    destruct (Js.truthy msg) eqn:Ht.
    - rewrite Hdup. apply orb_true_r.
    - unfold Js.truthy in Ht. apply negb_false_iff, String.eqb_eq in Ht.
      subst msg. done. }
  pose proof (batchLoop_accepts 0 batchCount emptyAcc s index tx
                (index / BATCH_SIZE) eq_refl) as Hin.
  rewrite Hbulk in Hin. apply Hin; try done.
  - intros j Hj. apply Hlive. lia.
  - split; [lia|]. by eapply batchCount_covers.
  - unfold BATCH_SIZE.
    pose proof (Nat.div_mod_eq index 2).
    pose proof (Nat.mod_upper_bound index 2). lia.
Qed.

End CreateBulk.

(** A retry of three queued drafts of which the second was already uploaded
    by an earlier, interrupted run. *)
Definition draft (docId title : string) : Draft :=
  {| id := Some docId; title := title; subtitle := ""; amount := (-1250)%Z;
     kind := expense; categoryId := "groceries";
     date := "2025-01-03T10:00:00.000Z"; currency := "EUR"; account := None;
     matchedTransferId := None; importBatchId := None |}.

Definition retryDrafts : list Draft :=
  [draft "q1" "Tesco"; draft "q2" "Lidl"; draft "q3" "Aldi"].

Definition duplicateMessage : string :=
  "Document with the requested ID already exists. Try again with a different ID or use ID.unique() to generate a unique ID.".

Definition retryCreate (index : nat) (tx : Draft) : CreateOutcome :=
  match index with
  | 1 => CreateFailed (Some duplicateMessage)
  | 2 => CreateFailed (Some "Server Error")
  | _ => Created
  end.

Definition noCallback : unit -> unit := fun u => u.

Definition retryRun : string + (Run * unit) :=
  createBulkTransactions retryCreate (fun _ => false)
    (fun _ _ => noCallback) (fun _ => noCallback) retryDrafts true tt.

Definition retryResult : BulkCreateResult :=
  {| created := 2; failed := 1;
     errors := [{| message := "Server Error"; errTitle := Some "Aldi";
                   errDate := Some "2025-01-03T10:00:00.000Z" |}];
     successfulIndices := [0; 1] |}.

Example retryRun_result :
  retryRun = inr ({| result := retryResult; calls := retryDrafts;
                     batchesRun := 2 |}, tt).
Proof. reflexivity. Qed.

Lemma duplicate_create_is_success_witness :
  retryDrafts !! 1 = Some (draft "q2" "Lidl") /\
  retryCreate 1 (draft "q2" "Lidl") = CreateFailed (Some duplicateMessage) /\
  Js.includes duplicateMessage "already exists" = true /\
  1 ∈ successfulIndices retryResult /\
  created retryResult = 2.
Proof.
  split; [reflexivity|]. split; [reflexivity|]. split; [reflexivity|].
  destruct (duplicate_create_is_success retryCreate (fun _ => false)
              (fun _ _ => noCallback) (fun _ => noCallback) retryDrafts
              true tt 1 (draft "q2" "Lidl") duplicateMessage
              {| result := retryResult; calls := retryDrafts; batchesRun := 2 |}
              tt eq_refl eq_refl eq_refl eq_refl (fun _ _ => eq_refl))
    as (Hin & Hcount & _).
  split; [exact Hin|exact Hcount].
Defined.

End Bulk.

(** ** Sync queue: startSyncingTransactions

    Notifications and the deferred purge of completed entries do not feed
    back into a run and are left out. *)

Module SyncQueue.

Import Bulk.

Inductive SyncState := pending | syncing | completed | failed.

#[global] Instance SyncState_eq_dec : EqDecision SyncState.
Proof. solve_decision. Defined.

(** A queued transaction: the draft to upload, whose [id] is the queue id
    reused as the remote document id, and the bookkeeping fields. *)
Record QueuedTransaction := {
  id : string;
  fields : Draft;
  userId : string;
  syncStatus : SyncState;
  attempts : nat;
  error : option string;
  createdAt : string;
}.

Record SyncStatus := {
  isSyncing : bool;
  current : nat;        (* progress.current *)
  total : nat;          (* progress.total *)
  lastSync : option string;
  failedCount : nat;
}.

Definition MAX_RETRY_ATTEMPTS := 3.

(** The environment of one run.
    - [deleteStatus n]: what the n-th getDeleteStatus() call of the run itself
      returns (n = 0 before the start, n = i + 1 at the i-th user);
    - [cancelSync n]: the value of the flag set by the polling timer, as read
      once [n] upload batches have completed in this run;
    - [create user index tx]: the answer to the createTransaction call for
      the element at [index] of that user's upload;
    - [configured]: the backend ids are set;
    - [fault user]: an exception raised inside that user's try block before
      the upload starts, with its message;
    - [now]: the time stamp taken when the run ends. *)
Record Env := {
  deleteStatus : nat -> option DeleteQueue.DeleteOperation;
  cancelSync : nat -> bool;
  create : string -> nat -> Draft -> CreateOutcome;
  configured : bool;
  fault : string -> option string;
  now : string;
}.

(** Persisted state and observable effects. *)
Record Store := {
  queue : list QueuedTransaction;     (* AsyncStorage[SYNC_QUEUE_KEY] *)
  status : SyncStatus;                (* AsyncStorage[SYNC_STATUS_KEY] *)
  progress : list SyncStatus;         (* onProgressUpdate calls, in order *)
  uploads : list (string * Draft);    (* createTransaction calls, in order *)
}.

Definition setQueue (q : list QueuedTransaction) (st : Store) : Store :=
  {| queue := q; status := status st; progress := progress st;
     uploads := uploads st |}.

(** Write the status item and report it to the caller. *)
Definition publish (s : SyncStatus) (st : Store) : Store :=
  {| queue := queue st; status := s; progress := progress st ++ [s];
     uploads := uploads st |}.

Definition setStatus (s : SyncStatus) (st : Store) : Store :=
  {| queue := queue st; status := s; progress := progress st;
     uploads := uploads st |}.

Definition recordUploads (user : string) (calls : list Draft) (st : Store) : Store :=
  {| queue := queue st; status := status st; progress := progress st;
     uploads := uploads st ++ map (fun d => (user, d)) calls |}.

Definition idleStatus : SyncStatus :=
  {| isSyncing := false; current := 0; total := 0; lastSync := None;
     failedCount := 0 |}.

Definition update (s : SyncState) (n : nat) (e : option string)
    (t : QueuedTransaction) : QueuedTransaction :=
  {| id := id t; fields := fields t; userId := userId t; syncStatus := s;
     attempts := n; error := e; createdAt := createdAt t |}.

(** The filter that selects what this run uploads. *)
Definition isDue (t : QueuedTransaction) : bool :=
  match syncStatus t with
  | pending | syncing => true
  | failed => (attempts t <? MAX_RETRY_ATTEMPTS)%nat
  | completed => false
  end.

Definition hasId (i : string) (ts : list QueuedTransaction) : bool :=
  existsb (fun p => String.eqb (id p) i) ts.

(** [findIndex(ut => ut.id === id)] *)
Fixpoint findIndex (i : string) (ts : list QueuedTransaction) : option nat :=
  match ts with
  | [] => None
  | t :: rest => if String.eqb (id t) i then Some 0
                 else S <$> findIndex i rest
  end.

Definition markSyncing (due queue : list QueuedTransaction) : list QueuedTransaction :=
  map (fun t => if hasId (id t) due
                then update syncing (attempts t) (error t) t else t) queue.

(** Revert everything marked syncing to pending. *)
Definition resetSyncing (queue : list QueuedTransaction) : list QueuedTransaction :=
  map (fun t => if decide (syncStatus t = syncing)
                then update pending (attempts t) (error t) t else t) queue.

(** [groupedByUser]: a Map in insertion order. *)
Fixpoint addToGroup (t : QueuedTransaction)
    (groups : list (string * list QueuedTransaction))
    : list (string * list QueuedTransaction) :=
  match groups with
  | [] => [(userId t, [t])]
  | (u, ts) :: rest =>
      if String.eqb u (userId t) then (u, ts ++ [t]) :: rest
      else (u, ts) :: addToGroup t rest
  end.

Definition groupByUser (due : list QueuedTransaction)
    : list (string * list QueuedTransaction) :=
  foldl (fun groups t => addToGroup t groups) [] due.

(** The element passed to createBulkTransactions for a queued transaction:
    its fields, with the queue id kept as document id. *)
Definition toDraft (t : QueuedTransaction) : Draft :=
  {| Bulk.id := Some (id t); title := title (fields t);
     subtitle := subtitle (fields t); amount := amount (fields t);
     kind := kind (fields t); categoryId := categoryId (fields t);
     date := date (fields t); currency := currency (fields t);
     account := account (fields t);
     matchedTransferId := matchedTransferId (fields t);
     importBatchId := importBatchId (fields t) |}.

(** The onBatchSuccess callback: mark the batch's items completed at once. *)
Definition markBatchCompleted (userTransactions : list QueuedTransaction)
    (batchSuccessIndices : list nat) (st : Store) : Store :=
  setQueue
    (map (fun t =>
            match findIndex (id t) userTransactions with
            | Some transactionIndex =>
                if bool_decide (transactionIndex ∈ batchSuccessIndices)
                then update completed (attempts t + 1) (error t) t else t
            | None => t
            end) (queue st)) st.

(** The onProgress callback: [syncStatus.progress.current = totalSucceeded +
    current], written and reported. *)
Definition reportProgress (totalSucceeded dueCount : nat) (cur _total : nat)
    (st : Store) : Store :=
  publish {| isSyncing := true; current := totalSucceeded + cur;
             total := dueCount; lastSync := None; failedCount := 0 |} st.

(** The queue update after an upload that was not cancelled. *)
Definition markResult (userTransactions : list QueuedTransaction)
    (result : BulkCreateResult) (queue : list QueuedTransaction)
    : list QueuedTransaction :=
  map (fun t =>
         match findIndex (id t) userTransactions with
         | Some transactionIndex =>
             if bool_decide (transactionIndex ∈ successfulIndices result)
             then update completed (attempts t + 1) (error t) t
             else match errors result with
                  | _ :: _ =>
                      update failed (attempts t + 1)
                             (Some "Failed to create transaction") t
                  | [] => t
                  end
         | None => t
         end) queue.

(** [errorMsg.includes('Network request failed') ||
     errorMsg.includes('network') || errorMsg.includes('timeout')] *)
Definition isNetworkError (errorMsg : string) : bool :=
  Js.includes errorMsg "Network request failed"
  || Js.includes errorMsg "network"
  || Js.includes errorMsg "timeout".

(** The queue update of the catch block of one user's upload. *)
Definition markBatchError (errorMsg : string)
    (userTransactions : list QueuedTransaction)
    (queue : list QueuedTransaction) : list QueuedTransaction :=
  map (fun t =>
         if hasId (id t) userTransactions then
           if isNetworkError errorMsg || (attempts t <? MAX_RETRY_ATTEMPTS - 1)%nat
           then update pending (attempts t + 1) (Some errorMsg) t
           else update failed (attempts t + 1) (Some errorMsg) t
         else t) queue.

Definition deleteActive (d : option DeleteQueue.DeleteOperation) : bool :=
  match d with
  | Some op => match DeleteQueue.status op with
               | DeleteQueue.InProgress | DeleteQueue.Pending => true
               | _ => false
               end
  | None => false
  end.

Definition deleteBlocksStart (d : option DeleteQueue.DeleteOperation) : bool :=
  match d with
  | Some op => negb (bool_decide (DeleteQueue.status op = DeleteQueue.Completed))
  | None => false
  end.

(** Local variables of the loop over the users. *)
Record Totals := {
  totalSucceeded : nat;
  totalFailed : nat;
  batchesDone : nat;      (* upload batches completed so far in this run *)
  statusCalls : nat;      (* getDeleteStatus calls made so far *)
}.

Inductive Outcome :=
| Returned (nSucceeded nFailed : nat) (st : Store)   (* early [return] *)
| LoopDone (t : Totals) (st : Store).

(** Both cancellation paths: revert, write the paused status, return the
    totals accumulated before this user. *)
Definition pause (dueCount : nat) (t : Totals) (st : Store) : Outcome :=
  let st1 := setQueue (resetSyncing (queue st)) st in
  let pausedStatus :=
    {| isSyncing := false; current := totalSucceeded t; total := dueCount;
       lastSync := None; failedCount := totalFailed t |} in
  Returned (totalSucceeded t) (totalFailed t) (publish pausedStatus st1).

(** What the try block of one user does: pause, throw, or finish the
    upload. *)
Inductive Attempted :=
| Paused (o : Outcome)
| Threw (errorMsg : string)
| Uploaded (t : Totals) (st : Store).

Definition tryUser (env : Env) (dueCount : nat) (user : string)
    (userTransactions : list QueuedTransaction) (t : Totals) (st : Store)
    : Attempted :=
  if deleteActive (deleteStatus env (statusCalls t)) then Paused (pause dueCount t st)
  else
    match fault env user with
    | Some errorMsg => Threw errorMsg
    | None =>
        let base := batchesDone t in
        let drafts := map toDraft userTransactions in
        match createBulkTransactions (create env user)
                (fun n => cancelSync env (base + n))
                (reportProgress (totalSucceeded t) dueCount)
                (markBatchCompleted userTransactions)
                drafts (configured env) st with
        | inl errorMsg => Threw errorMsg
        | inr (run, st1) =>
            let st2 := recordUploads user (calls run) st1 in
            let done := base + batchesRun run in
            if cancelSync env done then Paused (pause dueCount t st2)
            else
              Uploaded
                {| totalSucceeded := totalSucceeded t + created (result run);
                   totalFailed := totalFailed t + Bulk.failed (result run);
                   batchesDone := done; statusCalls := statusCalls t |}
                (setQueue (markResult userTransactions (result run) (queue st2))
                          st2)
        end
    end.

(** [for (const [userId, userTransactions] of groupedByUser.entries())] *)
Fixpoint processUsers (env : Env) (dueCount : nat)
    (groups : list (string * list QueuedTransaction))
    (t : Totals) (st : Store) : Outcome :=
  match groups with
  | [] => LoopDone t st
  | (user, userTransactions) :: rest =>
      match tryUser env dueCount user userTransactions t st with
      | Paused o => o
      | Threw errorMsg =>
          processUsers env dueCount rest
            {| totalSucceeded := totalSucceeded t;
               totalFailed := totalFailed t + length userTransactions;
               batchesDone := batchesDone t;
               statusCalls := S (statusCalls t) |}
            (setQueue (markBatchError errorMsg userTransactions (queue st)) st)
      | Uploaded t1 st1 =>
          processUsers env dueCount rest
            {| totalSucceeded := totalSucceeded t1;
               totalFailed := totalFailed t1;
               batchesDone := batchesDone t1;
               statusCalls := S (statusCalls t) |} st1
      end
  end.

Definition stillPending (queue : list QueuedTransaction) : nat :=
  length (filter (fun t => syncStatus t = pending \/
                           (syncStatus t = failed /\ attempts t < MAX_RETRY_ATTEMPTS))
                 queue).

(** startSyncingTransactions: the returned [{ succeeded, failed }] and the
    state it leaves. *)
Definition startSyncingTransactions (env : Env) (st : Store)
    : (nat * nat) * Store :=
  if deleteBlocksStart (deleteStatus env 0)
  then ((0, 0), publish idleStatus st)
  else
    let pendingTransactions := filter (fun t => isDue t = true) (queue st) in
    match pendingTransactions with
    | [] => ((0, 0), setStatus idleStatus st)
    | _ =>
        let dueCount := length pendingTransactions in
        let syncStatus0 :=
          {| isSyncing := true; current := 0; total := dueCount;
             lastSync := None; failedCount := 0 |} in
        let st1 := publish syncStatus0 st in
        let st2 := setQueue (markSyncing pendingTransactions (queue st1)) st1 in
        let start := {| totalSucceeded := 0; totalFailed := 0;
                        batchesDone := 0; statusCalls := 1 |} in
        match processUsers env dueCount (groupByUser pendingTransactions)
                start st2 with
        | Returned nSucceeded nFailed st3 => ((nSucceeded, nFailed), st3)
        | LoopDone t st3 =>
            let finalStatus :=
              {| isSyncing := false; current := totalSucceeded t;
                 total := totalSucceeded t + stillPending (queue st3);
                 lastSync := Some (now env); failedCount := totalFailed t |} in
            ((totalSucceeded t, totalFailed t), publish finalStatus st3)
        end
    end.

(** *** Mutual exclusion with the delete queue *)

(** C2: if, when startSyncingTransactions is called, a delete operation is
    stored whose status is not 'completed', the run makes no upload, leaves
    the queue as it is and returns { succeeded: 0, failed: 0 }. *)
Theorem sync_refuses_to_start_during_delete (env : Env) (st : Store)
    (op : DeleteQueue.DeleteOperation) :
  deleteStatus env 0 = Some op ->
  DeleteQueue.status op <> DeleteQueue.Completed ->
  (startSyncingTransactions env st).1 = (0, 0) /\
  uploads (startSyncingTransactions env st).2 = uploads st /\
  queue (startSyncingTransactions env st).2 = queue st.
Proof.
  intros Hop Hst. unfold startSyncingTransactions, deleteBlocksStart.
  rewrite Hop. by rewrite bool_decide_false.
Qed.

(** *** Cancellation *)

Lemma resetSyncing_none_syncing (q : list QueuedTransaction) :
  Forall (fun t => syncStatus t <> syncing) (resetSyncing q).
Proof.
  apply Forall_forall. intros t (t0 & -> & _)%list_elem_of_fmap.
  by destruct (decide (syncStatus t0 = syncing)).
Qed.

Lemma resetSyncing_only_syncing (q : list QueuedTransaction) (i : nat)
    (t : QueuedTransaction) :
  q !! i = Some t ->
  resetSyncing q !! i =
  Some (if decide (syncStatus t = syncing)
        then update pending (attempts t) (error t) t else t).
Proof. intros H. unfold resetSyncing. by rewrite list_lookup_fmap, H. Qed.

Lemma pause_none_syncing dueCount t st nS nF st' :
  pause dueCount t st = Returned nS nF st' ->
  Forall (fun q => syncStatus q <> syncing) (queue st').
Proof. intros [= _ _ <-]. apply resetSyncing_none_syncing. Qed.

(** Both early returns hand back the totals as they were before the
    current user's upload. *)
Lemma tryUser_paused env dueCount user uts t st o :
  tryUser env dueCount user uts t st = Paused o ->
  exists st0, o = pause dueCount t st0.
Proof.
  unfold tryUser. destruct (deleteActive _); [intros [= <-]; eauto|].
  destruct (fault env user); [done|].
  destruct (createBulkTransactions _ _ _ _ _ _ _) as [|[run st1]]; [done|].
  destruct (cancelSync env _); [intros [= <-]; eauto|done].
Qed.

(** Whenever a run is cut short by a delete operation, no queued
    transaction is left marked syncing. *)
Lemma paused_none_syncing env dueCount groups t st nS nF st' :
  processUsers env dueCount groups t st = Returned nS nF st' ->
  Forall (fun q => syncStatus q <> syncing) (queue st').
Proof.
  revert t st. induction groups as [|[user uts] rest IH]; intros t st; [done|].
  cbn [processUsers].
  destruct (tryUser env dueCount user uts t st) as [o| |] eqn:Htry; eauto.
  apply tryUser_paused in Htry as [st0 ->]. apply pause_none_syncing.
Qed.

(** Five pending transactions of one user; every create call succeeds; the
    polling timer sees the delete operation once the first batch of two has
    completed. *)
Definition queued (i user : string) : QueuedTransaction :=
  {| id := i; fields := draft i "Tesco"; userId := user;
     syncStatus := pending; attempts := 0; error := None;
     createdAt := "2025-01-03T10:00:01.000Z" |}.

Definition fiveQueued : Store :=
  {| queue := [queued "t1" "u1"; queued "t2" "u1"; queued "t3" "u1";
               queued "t4" "u1"; queued "t5" "u1"];
     status := idleStatus; progress := []; uploads := [] |}.

Definition deleteAfterFirstBatch : Env :=
  {| deleteStatus := fun _ => None;
     cancelSync := fun n => (1 <=? n)%nat;
     create := fun _ _ _ => Created;
     configured := true;
     fault := fun _ => None;
     now := "2025-01-03T10:05:00.000Z" |}.

(** C3 (code defect): on the scenario of the claim, with all five
    transactions belonging to one user, the two uploaded transactions are
    marked completed and the other three are reverted to pending, but the
    run returns { succeeded: 0, failed: 0 }: the cancellation check that
    follows the upload returns before the upload's counts are added to the
    totals. *)
Theorem cancelled_upload_drops_its_counts :
  (startSyncingTransactions deleteAfterFirstBatch fiveQueued).1 = (0, 0) /\
  map (fun t => (id t, syncStatus t))
      (queue (startSyncingTransactions deleteAfterFirstBatch fiveQueued).2)
  = [("t1", completed); ("t2", completed); ("t3", pending); ("t4", pending);
     ("t5", pending)] /\
  map (fun u => Bulk.id u.2)
      (uploads (startSyncingTransactions deleteAfterFirstBatch fiveQueued).2)
  = [Some "t1"; Some "t2"].
Proof. vm_compute. done. Qed.

(** The same five transactions split over two users, the delete operation
    being found by the check that opens the second user's turn: here the
    counts of the first user's upload are returned. *)
Definition deleteBeforeSecondUser : Env :=
  {| deleteStatus := fun n => match n with
                              | 2 => Some DeleteQueue.pendingOp
                              | _ => None
                              end;
     cancelSync := fun _ => false;
     create := fun _ _ _ => Created;
     configured := true;
     fault := fun _ => None;
     now := "2025-01-03T10:05:00.000Z" |}.

Definition twoUsersQueued : Store :=
  {| queue := [queued "t1" "u1"; queued "t2" "u1"; queued "t3" "u2";
               queued "t4" "u2"; queued "t5" "u2"];
     status := idleStatus; progress := []; uploads := [] |}.

Example paused_between_users :
  (startSyncingTransactions deleteBeforeSecondUser twoUsersQueued).1 = (2, 0).
Proof. vm_compute. done. Qed.

Lemma sync_refuses_to_start_during_delete_witness :
  deleteStatus deleteBeforeSecondUser 2 = Some DeleteQueue.pendingOp /\
  (startSyncingTransactions
     {| deleteStatus := fun _ => Some DeleteQueue.pendingOp;
        cancelSync := fun _ => false;
        create := fun _ _ _ => Created;
        configured := true;
        fault := fun _ => None;
        now := "2025-01-03T10:05:00.000Z" |} fiveQueued).1 = (0, 0).
Proof.
  split; [reflexivity|].
  apply (sync_refuses_to_start_during_delete _ fiveQueued DeleteQueue.pendingOp).
  - reflexivity.
  - discriminate.
Defined.

(** *** Failure of a user's upload *)

(** C5: when the try block of a user's upload throws, every queued
    transaction of that user gets its attempts incremented and the error
    message recorded, and is set to 'pending' if the error is network-class
    (whatever its attempt count) or if the incremented attempt count is still
    below the retry cap, and to 'failed' otherwise; other transactions are
    left alone; the retry cap MAX_RETRY_ATTEMPTS is 3. *)
Theorem upload_error_requeues_or_fails (env : Env) (dueCount : nat)
    (user : string) (userTransactions : list QueuedTransaction)
    (rest : list (string * list QueuedTransaction))
    (totals : Totals) (st : Store) (errorMsg : string) :
  tryUser env dueCount user userTransactions totals st = Threw errorMsg ->
  MAX_RETRY_ATTEMPTS = 3 /\
  exists totals' st',
    processUsers env dueCount ((user, userTransactions) :: rest) totals st
    = processUsers env dueCount rest totals' st' /\
    totalFailed totals' = totalFailed totals + length userTransactions /\
    totalSucceeded totals' = totalSucceeded totals /\
    length (queue st') = length (queue st) /\
    forall i t, queue st !! i = Some t ->
      exists t', queue st' !! i = Some t' /\
        if hasId (id t) userTransactions then
          t' = update (syncStatus t') (attempts t + 1) (Some errorMsg) t /\
          (isNetworkError errorMsg = true \/ attempts t + 1 < MAX_RETRY_ATTEMPTS
             -> syncStatus t' = pending) /\
          (isNetworkError errorMsg = false /\ MAX_RETRY_ATTEMPTS <= attempts t + 1
             -> syncStatus t' = failed)
        else t' = t.
Proof.
  intros Htry. split; [done|].
  eexists _, _. cbn [processUsers]. rewrite Htry. split; [reflexivity|].
  cbn. split; [done|]. split; [done|].
  unfold markBatchError. split; [by rewrite length_map|].
  intros i t Hi. rewrite list_lookup_fmap, Hi. cbn. eexists. split; [done|].
  destruct (hasId (id t) userTransactions); [|done].
  unfold MAX_RETRY_ATTEMPTS.
  destruct (isNetworkError errorMsg); cbn.
  - split; [done|]. split; [done|]. by intros [? _].
  - destruct (attempts t <=? 1)%nat eqn:Hlt; cbn.
    + apply Nat.leb_le in Hlt. split; [done|]. split; [done|]. lia.
    + apply Nat.leb_gt in Hlt. split; [done|].
      split; [intros [?|?]; [done|lia]|done].
Qed.

(** A queue whose user's upload throws at the configuration guard. *)
Definition unconfigured : Env :=
  {| deleteStatus := fun _ => None;
     cancelSync := fun _ => false;
     create := fun _ _ _ => Created;
     configured := false;
     fault := fun _ => None;
     now := "2025-01-03T10:05:00.000Z" |}.

Definition retried (i user : string) (n : nat) : QueuedTransaction :=
  update syncing n None (queued i user).

Example unconfigured_run :
  (fun r => (r.1, map (fun t => (id t, syncStatus t, attempts t)) (queue r.2)))
    (startSyncingTransactions unconfigured
       {| queue := [queued "t1" "u1"; update failed 2 None (queued "t2" "u1");
                    update completed 1 None (queued "t3" "u1")];
          status := idleStatus; progress := []; uploads := [] |})
  = ((0, 2), [("t1", pending, 1); ("t2", failed, 3); ("t3", completed, 1)]).
Proof. vm_compute. done. Qed.

Example network_fault_run :
  (fun r => (r.1, map (fun t => (id t, syncStatus t, attempts t)) (queue r.2)))
    (startSyncingTransactions
       {| deleteStatus := fun _ => None;
          cancelSync := fun _ => false;
          create := fun _ _ _ => Created;
          configured := true;
          fault := fun _ => Some "Network request failed";
          now := "2025-01-03T10:05:00.000Z" |}
       {| queue := [queued "t1" "u1"; update failed 2 None (queued "t2" "u1")];
          status := idleStatus; progress := []; uploads := [] |})
  = ((0, 2), [("t1", pending, 1); ("t2", pending, 3)]).
Proof. vm_compute. done. Qed.

Lemma upload_error_requeues_or_fails_witness :
  tryUser unconfigured 2 "u1" [queued "t1" "u1"; retried "t2" "u1" 2]
    {| totalSucceeded := 0; totalFailed := 0; batchesDone := 0;
       statusCalls := 1 |}
    {| queue := [retried "t1" "u1" 0; retried "t2" "u1" 2];
       status := idleStatus; progress := []; uploads := [] |}
  = Threw "Appwrite env not configured" /\
  MAX_RETRY_ATTEMPTS = 3.
Proof.
  split; [reflexivity|].
  exact (proj1 (upload_error_requeues_or_fails unconfigured 2 "u1"
                  [queued "t1" "u1"; retried "t2" "u1" 2] []
                  {| totalSucceeded := 0; totalFailed := 0; batchesDone := 0;
                     statusCalls := 1 |}
                  {| queue := [retried "t1" "u1" 0; retried "t2" "u1" 2];
                     status := idleStatus; progress := []; uploads := [] |}
                  "Appwrite env not configured" eq_refl)).
Defined.

End SyncQueue.

(** ** Balance snapshots: restoreBalancesFromSnapshot *)

Module Balances.

(** A document of the remote balance table, with its document id and the
    snapshot fields written by an import. *)
Record BalanceDoc := {
  docId : string;                       (* $id *)
  userId : string;
  accountKey : string;
  accountName : string;
  accountType : string;
  provider : option string;
  currency : string;
  balance : Z;
  lastUpdated : string;
  previousBalance : option Z;
  previousBalanceTimestamp : option string;
  importBatchId : option string;
}.

(** The remote side of one call: whether the backend ids are configured,
    whether listDocuments rejects, whether the n-th updateDocument call
    rejects, and the time stamp taken for the n-th update.  A listing is
    taken to return every matching document of the table. *)
Record Env := {
  configured : bool;
  listFails : bool;
  updateFails : nat -> bool;
  now : nat -> string;
}.

(** [Query.equal("userId", userId), Query.equal("importBatchId", id)] *)
Definition inBatch (user batch : string) (d : BalanceDoc) : bool :=
  String.eqb (userId d) user && bool_decide (importBatchId d = Some batch).

(** The update payload applied to a stored document. *)
Definition restoredDoc (stamp : string) (p : Z) (d : BalanceDoc) : BalanceDoc :=
  {| docId := docId d; userId := userId d; accountKey := accountKey d;
     accountName := accountName d; accountType := accountType d;
     provider := provider d; currency := currency d;
     balance := p; lastUpdated := stamp;
     previousBalance := None; previousBalanceTimestamp := None;
     importBatchId := None |}.

(** [databases.updateDocument(.., id, payload)] *)
Definition updateDocument (i : string) (payload : BalanceDoc -> BalanceDoc)
    (table : list BalanceDoc) : list BalanceDoc :=
  map (fun x => if String.eqb (docId x) i then payload x else x) table.

Inductive LoopResult :=
| Done (restored : nat) (table : list BalanceDoc)
| Rejected (table : list BalanceDoc).   (* an update threw *)

(** [for (const doc of balances)], with the number of update calls made so
    far. *)
Fixpoint restoreLoop (env : Env) (balances : list BalanceDoc)
    (updates restored : nat) (table : list BalanceDoc) : LoopResult :=
  match balances with
  | [] => Done restored table
  | doc :: rest =>
      match previousBalance doc with
      | Some p =>
          if updateFails env updates then Rejected table
          else restoreLoop env rest (S updates) (S restored)
                 (updateDocument (docId doc) (restoredDoc (now env updates) p) table)
      | None => restoreLoop env rest updates restored table
      end
  end.

(** restoreBalancesFromSnapshot: [inl] is the exception thrown by the
    configuration guard, [inr] the returned boolean with the table as the
    call leaves it. *)
Definition restoreBalancesFromSnapshot (env : Env) (user batch : string)
    (table : list BalanceDoc) : string + (bool * list BalanceDoc) :=
  if negb (configured env) then inl "Appwrite env not configured"
  else if listFails env then inr (false, table)
  else
    let balances := filter (fun d => inBatch user batch d = true) table in
    match balances with
    | [] => inr (false, table)
    | _ =>
        match restoreLoop env balances 0 0 table with
        | Done restored table' => inr (0 <? restored, table')%nat
        | Rejected table' => inr (false, table')
        end
    end.

(** Some document of the batch carries a snapshot. *)
Definition hasSnapshot (user batch : string) (table : list BalanceDoc) : bool :=
  existsb (fun d => inBatch user batch d && bool_decide (previousBalance d <> None))
          table.

Lemma updateDocument_lookup i payload table n x :
  table !! n = Some x ->
  updateDocument i payload table !! n =
  Some (if String.eqb (docId x) i then payload x else x).
Proof. intros H. unfold updateDocument. by rewrite list_lookup_fmap, H. Qed.

Definition snapshots (bs : list BalanceDoc) : nat :=
  length (filter (fun d => previousBalance d <> None) bs).

Lemma restoreLoop_spec env bs updates restored table :
  (forall n, updateFails env n = false) ->
  NoDup (map docId bs) ->
  exists table',
    restoreLoop env bs updates restored table = Done (restored + snapshots bs) table' /\
    length table' = length table /\
    forall n x, table !! n = Some x ->
      exists x', table' !! n = Some x' /\
        ((forall d, d ∈ bs -> previousBalance d <> None -> docId d <> docId x)
           -> x' = x) /\
        (forall d p, d ∈ bs -> previousBalance d = Some p -> docId d = docId x ->
           exists stamp, x' = restoredDoc stamp p x).
Proof.
  intros Hok. revert updates restored table.
  induction bs as [|d bs IH]; intros updates restored table Hnd.
  { exists table. cbn. split; [f_equal; unfold snapshots; cbn; lia|].
    split; [done|]. intros n x Hx. exists x. split; [done|].
    split; [done|]. intros d p Hd. by apply elem_of_nil in Hd. }
  cbn in Hnd. apply NoDup_cons in Hnd as [Hd Hnd].
  cbn [restoreLoop]. unfold snapshots. rewrite filter_cons.
  destruct (previousBalance d) as [p|] eqn:Hp.
  - rewrite Hok. rewrite decide_True by done.
    destruct (IH (S updates) (S restored)
                (updateDocument (docId d) (restoredDoc (now env updates) p) table)
                Hnd) as (table' & Hrun & Hlen & Hpt).
    exists table'. split.
    { rewrite Hrun. f_equal. unfold snapshots. cbn. lia. }
    split. { rewrite Hlen. unfold updateDocument. by rewrite length_map. }
    intros n x Hx.
    destruct (Hpt n _ (updateDocument_lookup _ _ _ _ _ Hx)) as (x' & Hx' & Hsame & Hrest).
    exists x'. split; [done|].
    destruct (String.eqb (docId x) (docId d)) eqn:Heq.
    + apply String.eqb_eq in Heq.
      assert (Hx1 : x' = restoredDoc (now env updates) p x).
      { apply Hsame. intros d' Hd' _ Hid. cbn in Hid.
        apply Hd. apply list_elem_of_fmap. exists d'. split; [congruence|done]. }
      split.
      * intros Habs. exfalso. apply (Habs d); [by left|congruence|done].
      * intros d' p' Hd' Hp' Hid. apply elem_of_cons in Hd' as [->|Hd'].
        -- exists (now env updates). congruence.
        -- exfalso. apply Hd. apply list_elem_of_fmap. exists d'.
           split; [congruence|done].
    + apply String.eqb_neq in Heq. split.
      * intros Hno. apply Hsame. intros d' Hd' Hp'. apply Hno; [by right|done].
      * intros d' p' Hd' Hp' Hid. apply elem_of_cons in Hd' as [->|Hd'].
        -- congruence.
        -- by apply (Hrest d' p').
  - rewrite decide_False by (intros H; by apply H).
    destruct (IH updates restored table Hnd) as (table' & Hrun & Hlen & Hpt).
    exists table'. split; [done|]. split; [done|].
    intros n x Hx. destruct (Hpt n x Hx) as (x' & Hx' & Hsame & Hrest).
    exists x'. split; [done|]. split.
    + intros Hno. apply Hsame. intros d' Hd' Hp'. apply Hno; [by right|done].
    + intros d' p' Hd' Hp' Hid. apply elem_of_cons in Hd' as [->|Hd'].
      * congruence.
      * by apply (Hrest d' p').
Qed.

Lemma docId_inj (table : list BalanceDoc) (d x : BalanceDoc) :
  NoDup (map docId table) -> d ∈ table -> x ∈ table ->
  docId d = docId x -> d = x.
Proof.
  induction table as [|y table IH]; cbn; intros Hnd Hd Hx Hid.
  { by apply elem_of_nil in Hd. }
  apply NoDup_cons in Hnd as [Hy Hnd].
  apply elem_of_cons in Hd as [->|Hd]; apply elem_of_cons in Hx as [->|Hx];
    [done| | |by apply IH].
  - exfalso. apply Hy. apply list_elem_of_fmap. exists x. by split.
  - exfalso. apply Hy. apply list_elem_of_fmap. exists d. by split.
Qed.

Lemma snapshots_hasSnapshot user batch table :
  (0 <? snapshots (filter (fun d => inBatch user batch d = true) table))%nat
  = hasSnapshot user batch table.
Proof.
  unfold snapshots, hasSnapshot.
  induction table as [|d table IH]; [done|].
  rewrite filter_cons. cbn [existsb].
  destruct (inBatch user batch d) eqn:Hin.
  - rewrite decide_True by done. rewrite filter_cons.
    destruct (previousBalance d) as [p|].
    + rewrite decide_True by done. by rewrite bool_decide_true.
    + rewrite decide_False by (intros H; by apply H).
      rewrite bool_decide_false by (intros H; by apply H). exact IH.
  - rewrite decide_False by done. exact IH.
Qed.


Definition balanceDoc (i key : string) (bal : Z) (prev : option Z)
    (batch : option string) : BalanceDoc :=
  {| docId := i; userId := "u1"; accountKey := key; accountName := key;
     accountType := "current"; provider := Some "revolut"; currency := "EUR";
     balance := bal; lastUpdated := "2025-02-01T09:00:00.000Z";
     previousBalance := prev;
     previousBalanceTimestamp :=
       match prev with Some _ => Some "2025-02-01T09:00:00.000Z" | None => None end;
     importBatchId := batch |}.

Definition sampleTable : list BalanceDoc :=
  [balanceDoc "b1" "revolut-current-eur" 7000%Z (Some 12000%Z) (Some "batch-7");
   balanceDoc "b2" "revolut-pocket-eur-holiday" 500%Z None (Some "batch-7");
   balanceDoc "b3" "aib-current-eur" 30000%Z (Some 100%Z) (Some "batch-6")].

Definition reliable : Env :=
  {| configured := true; listFails := false; updateFails := fun _ => false;
     now := fun _ => "2025-02-02T08:00:00.000Z" |}.

Example restore_sample :
  restoreBalancesFromSnapshot reliable "u1" "batch-7" sampleTable
  = inr (true,
         [restoredDoc "2025-02-02T08:00:00.000Z" 12000%Z
            (balanceDoc "b1" "revolut-current-eur" 7000%Z (Some 12000%Z)
               (Some "batch-7"));
          balanceDoc "b2" "revolut-pocket-eur-holiday" 500%Z None (Some "batch-7");
          balanceDoc "b3" "aib-current-eur" 30000%Z (Some 100%Z) (Some "batch-6")]).
Proof. reflexivity. Qed.

Example restore_unknown_batch :
  restoreBalancesFromSnapshot reliable "u1" "batch-9" sampleTable
  = inr (false, sampleTable).
Proof. reflexivity. Qed.

(** A rejected update ends the call with [false] although an earlier
    document was restored. *)
Example restore_second_update_rejected :
  (fun r => match r with inr (b, t) => Some (b, map balance t) | inl _ => None end)
    (restoreBalancesFromSnapshot
       {| configured := true; listFails := false;
          updateFails := fun n => bool_decide (n = 1);
          now := fun _ => "2025-02-02T08:00:00.000Z" |}
       "u1" "batch-7"
       [balanceDoc "b1" "k1" 7000%Z (Some 12000%Z) (Some "batch-7");
        balanceDoc "b2" "k2" 500%Z (Some 900%Z) (Some "batch-7")])
  = Some (false, [12000%Z; 500%Z]).
Proof. reflexivity. Qed.


End Balances.

(** ** CSV import: the balance computation of handleContinue *)

Module CsvImport.

(** A parsed CSV row, with the fields the balance computation reads.
    [amount] is [None] for a missing or NaN amount. *)
Record ParsedTransaction := {
  description : string;
  product : option string;
  currency : option string;
  state : option string;
  amount : option Q;
  balance : option string;
  completedDate : option string;
  startedDate : option string;
}.

Record ResolveArgs := {
  argDescription : string;
  argProduct : option string;
  argCurrency : string;
  argProvider : string;
  pocketNameHint : option string;
  vaultNameHint : option string;
}.

Record AccountInfo := {
  accountKey : string;
  accountName : string;
  accountType : string;
  provider : string;
  infoCurrency : string;
}.

(** What the screen takes from elsewhere.
    - [resolveAccountInfo]: the account resolver;
    - [pocketTransferName d]: the trimmed first group of
      [/To pocket (?:EUR|GBP|USD)\s+(.+?)\s+from (?:EUR|GBP|USD)/i] on [d], when
      it matches;
    - [parseFloat]: [None] for NaN;
    - [getTime text]: [new Date(text.replace(' ', 'T')).getTime()], [None]
      for NaN;
    - [clock n]: the current time in milliseconds when row [n] is
      processed. *)
Record Host := {
  resolveAccountInfo : ResolveArgs -> AccountInfo;
  pocketTransferName : string -> option string;
  parseFloat : string -> option Q;
  getTime : string -> option Z;
  clock : nat -> Z;
}.

(** [Math.round(x * 100)] on exact decimals. *)
Definition roundCents (x : Q) : Z := Qfloor (x * 100 + (1 # 2))%Q.
#[global] Arguments roundCents : simpl never.

Definition orText (o : option string) : option string :=
  match o with
  | Some s => if Js.truthy s then Some s else None
  | None => None
  end.

(** [transaction.currency || 'EUR'] *)
Definition currencyOf (r : ParsedTransaction) : string :=
  default "EUR" (orText (currency r)).

(** [state !== falsy && state.toUpperCase() === target] *)
Definition stateIs (target : string) (r : ParsedTransaction) : bool :=
  match orText (state r) with
  | Some s => String.eqb (Js.toUpperCase s) target
  | None => false
  end.

(** [transaction.state && transaction.state.toUpperCase() !== 'COMPLETED'] *)
Definition stateExcludes (r : ParsedTransaction) : bool :=
  match orText (state r) with
  | Some s => negb (String.eqb (Js.toUpperCase s) "COMPLETED")
  | None => false
  end.

(** [transaction.product?.toLowerCase()] *)
Definition productLower (r : ParsedTransaction) : option string :=
  Js.toLowerCase <$> product r.

(** The two "last seen" maps, keyed by currency. *)
Record Hints := {
  lastVaultNameByCurrency : gmap string string;
  lastPocketNameByCurrency : gmap string string;
}.

Definition noHints : Hints :=
  {| lastVaultNameByCurrency := ∅; lastPocketNameByCurrency := ∅ |}.

Definition setVault (cur name : string) (h : Hints) : Hints :=
  {| lastVaultNameByCurrency := <[cur := name]> (lastVaultNameByCurrency h);
     lastPocketNameByCurrency := lastPocketNameByCurrency h |}.

Definition setPocket (cur name : string) (h : Hints) : Hints :=
  {| lastVaultNameByCurrency := lastVaultNameByCurrency h;
     lastPocketNameByCurrency := <[cur := name]> (lastPocketNameByCurrency h) |}.

(** The scan that builds the hints before anything is resolved. *)
Definition prepassRow (host : Host) (h : Hints) (r : ParsedTransaction) : Hints :=
  if negb (stateIs "COMPLETED" r) then h
  else
    match productLower r with
    | Some "savings" =>
        match pocketTransferName host (description r) with
        | Some name => setVault (currencyOf r) name h
        | None => h
        end
    | Some "pocket" =>
        match pocketTransferName host (description r) with
        | Some name => setPocket (currencyOf r) name h
        | None => h
        end
    | _ => h
    end.

Definition prepass (host : Host) (rows : list ParsedTransaction) : Hints :=
  foldl (prepassRow host) noHints rows.

Definition resolve (host : Host) (r : ParsedTransaction)
    (pocketHint vaultHint : option string) : AccountInfo :=
  resolveAccountInfo host
    {| argDescription := description r; argProduct := product r;
       argCurrency := currencyOf r; argProvider := "revolut";
       pocketNameHint := pocketHint; vaultNameHint := vaultHint |}.

(** What a row of the first pass contributes: the resolved account, the
    balance in cents and the time stamp of the row ([None]: NaN). *)
Record Reading := {
  info : AccountInfo;
  cents : Z;
  time : option Z;
}.

(** [(completedDate || startedDate)?.replace(' ', 'T') || new Date()
    .toISOString()], as a time. *)
Definition rowTime (host : Host) (n : nat) (r : ParsedTransaction) : option Z :=
  match orText (completedDate r) with
  | Some text => getTime host text
  | None =>
      match orText (startedDate r) with
      | Some text => getTime host text
      | None => Some (clock host n)
      end
  end.

(** The hint bookkeeping of a first-pass row: the hints as the row leaves
    them, and the pocket and vault hints handed to the resolver. *)
Definition hintsFor (host : Host) (h : Hints) (r : ParsedTransaction)
    : Hints * option string * option string :=
  let cur := currencyOf r in
  match productLower r with
  | Some "savings" =>
      match pocketTransferName host (description r) with
      | Some name => (setVault cur name h, None, None)
      | None =>
          if String.eqb (Js.toLowerCase (description r)) "pocket withdrawal"
          then (h, None, lastVaultNameByCurrency h !! cur)
          else (h, None, None)
      end
  | Some "pocket" =>
      match pocketTransferName host (description r) with
      | Some name => (setPocket cur name h, None, None)
      | None => (h, lastPocketNameByCurrency h !! cur, None)
      end
  | _ => (h, None, None)
  end.

(** The body of the first pass up to the update of [accountBalances]: the
    hints as the row leaves them and, unless the row is skipped, its
    reading. *)
Definition readCompleted (host : Host) (n : nat) (h : Hints)
    (r : ParsedTransaction) : Hints * option Reading :=
  match orText (balance r) with
  | None => (h, None)
  | Some balanceText =>
      if stateExcludes r then (h, None)
      else
        let '(h', pocketHint, vaultHint) := hintsFor host h r in
        let accountInfo := resolve host r pocketHint vaultHint in
        match parseFloat host balanceText with
        | None => (h', None)
        | Some balanceAmount =>
            (h', Some {| info := accountInfo; cents := roundCents balanceAmount;
                         time := rowTime host n r |})
        end
  end.

(** A value of the [accountBalances] map. *)
Record Entry := {
  entryInfo : AccountInfo;
  entryBalance : Z;
  lastDate : option Z;
}.

(** [new Date(a).getTime() > new Date(b).getTime()]; false when either is
    NaN. *)
Definition laterThan (a b : option Z) : bool :=
  match a, b with
  | Some x, Some y => (y <? x)%Z
  | _, _ => false
  end.

(** The update of [accountBalances] for one reading. *)
Definition record (m : gmap string Entry) (rd : Reading) : gmap string Entry :=
  let key := accountKey (info rd) in
  let entry := {| entryInfo := info rd; entryBalance := cents rd;
                  lastDate := time rd |} in
  match m !! key with
  | None => <[key := entry]> m
  | Some existing =>
      if laterThan (time rd) (lastDate existing) then <[key := entry]> m else m
  end.

(** FIRST PASS, from row number [n] on. *)
Fixpoint firstPass (host : Host) (n : nat) (rows : list ParsedTransaction)
    (h : Hints) (m : gmap string Entry) : Hints * gmap string Entry :=
  match rows with
  | [] => (h, m)
  | r :: rest =>
      let '(h', reading) := readCompleted host n h r in
      firstPass host (S n) rest h'
        (match reading with Some rd => record m rd | None => m end)
  end.

(** What a row of the second pass contributes: account key and amount in
    cents. *)
Definition readPending (host : Host) (h : Hints) (r : ParsedTransaction)
    : option (string * Z) :=
  if negb (stateIs "PENDING" r) then None
  else
    let cur := currencyOf r in
    let amt := default 0%Q (amount r) in
    let accountInfo := resolve host r (lastPocketNameByCurrency h !! cur)
                               (lastVaultNameByCurrency h !! cur) in
    Some (accountKey accountInfo, roundCents amt).

(** SECOND PASS: [pendingAdjustments]. *)
Definition addPending (adj : gmap string Z) (p : string * Z) : gmap string Z :=
  <[p.1 := (default 0%Z (adj !! p.1) + p.2)%Z]> adj.

Definition secondPass (host : Host) (h : Hints) (rows : list ParsedTransaction)
    : gmap string Z :=
  foldl (fun adj r => match readPending host h r with
                      | Some p => addPending adj p
                      | None => adj
                      end) ∅ rows.

(** Apply pending adjustments: only keys already in [accountBalances] are
    touched. *)
Definition applyPending (adj : gmap string Z) (m : gmap string Entry)
    : gmap string Entry :=
  map_imap (fun key e =>
              Some match adj !! key with
                   | Some a => {| entryInfo := entryInfo e;
                                  entryBalance := (entryBalance e + a)%Z;
                                  lastDate := lastDate e |}
                   | None => e
                   end) m.

(** The balances computed by handleContinue for a parsed batch. *)
Definition finalBalances (host : Host) (rows : list ParsedTransaction)
    : gmap string Entry :=
  let h0 := prepass host rows in
  let '(h1, m) := firstPass host 0 rows h0 ∅ in
  applyPending (secondPass host h1 rows) m.

(** One balance write (local store and remote upsert) per entry. *)
Record BalanceWrite := {
  writeKey : string;
  writeName : string;
  writeBalance : Z;
}.

Definition balanceWrites (host : Host) (rows : list ParsedTransaction)
    : list BalanceWrite :=
  map (fun kv => {| writeKey := accountKey (entryInfo kv.2);
                    writeName := accountName (entryInfo kv.2);
                    writeBalance := entryBalance kv.2 |})
      (map_to_list (finalBalances host rows)).

(** *** The rows each pass takes into account *)

(** The readings of the first pass from row number [n] on, in input order,
    with the hints as the pass leaves them. *)
Fixpoint scanCompleted (host : Host) (n : nat) (rows : list ParsedTransaction)
    (h : Hints) : Hints * list Reading :=
  match rows with
  | [] => (h, [])
  | r :: rest =>
      let '(h', reading) := readCompleted host n h r in
      let '(h'', readings) := scanCompleted host (S n) rest h' in
      (h'', match reading with Some rd => rd :: readings | None => readings end)
  end.

(** The rows of a batch that the first pass reads, each with the account it
    is resolved to, its balance in cents and its time stamp. *)
Definition completedReadings (host : Host) (rows : list ParsedTransaction)
    : list Reading :=
  (scanCompleted host 0 rows (prepass host rows)).2.

(** The rows of a batch that the second pass reads, each with the key of
    the account it is resolved to and its amount in cents. *)
Definition pendingReadings (host : Host) (rows : list ParsedTransaction)
    : list (string * Z) :=
  omap (readPending host (scanCompleted host 0 rows (prepass host rows)).1) rows.

(** Sum of the pending amounts resolved to [k]. *)
Definition pendingSum (k : string) (ps : list (string * Z)) : Z :=
  foldr (fun p acc => if decide (p.1 = k) then (p.2 + acc)%Z else acc) 0%Z ps.

(** A row passes the filters of the first pass: it has a balance text that
    parses, and its state is absent or COMPLETED. *)
Definition eligible (host : Host) (r : ParsedTransaction) : bool :=
  match orText (balance r) with
  | Some text => negb (stateExcludes r) && bool_decide (is_Some (parseFloat host text))
  | None => false
  end.

Definition entryOf (rd : Reading) : Entry :=
  {| entryInfo := info rd; entryBalance := cents rd; lastDate := time rd |}.

(** [record], seen from one key. *)
Definition pick (k : string) (cur : option Entry) (rd : Reading) : option Entry :=
  if decide (accountKey (info rd) = k) then
    match cur with
    | None => Some (entryOf rd)
    | Some existing =>
        if laterThan (time rd) (lastDate existing) then Some (entryOf rd) else cur
    end
  else cur.

Lemma record_lookup (m : gmap string Entry) (rd : Reading) (k : string) :
  record m rd !! k = pick k (m !! k) rd.
Proof.
  unfold record, pick. fold (entryOf rd).
  destruct (decide (accountKey (info rd) = k)) as [<-|Hne].
  - destruct (m !! accountKey (info rd)) as [ex|] eqn:Hm.
    + destruct (laterThan (time rd) (lastDate ex)); [apply lookup_insert_eq|done].
    + apply lookup_insert_eq.
  - destruct (m !! accountKey (info rd)) as [ex|].
    + destruct (laterThan (time rd) (lastDate ex)); [|done].
      by apply lookup_insert_ne.
    + by apply lookup_insert_ne.
Qed.

Lemma foldl_record_lookup (rds : list Reading) (m : gmap string Entry) (k : string) :
  foldl record m rds !! k = foldl (pick k) (m !! k) rds.
Proof.
  revert m. induction rds as [|rd rds IH]; intros m; [done|].
  cbn. by rewrite IH, record_lookup.
Qed.

Lemma firstPass_scan host n rows h m :
  firstPass host n rows h m =
  ((scanCompleted host n rows h).1, foldl record m (scanCompleted host n rows h).2).
Proof.
  revert n h m. induction rows as [|r rows IH]; intros n h m; [done|].
  cbn [firstPass scanCompleted].
  destruct (readCompleted host n h r) as [h' reading].
  rewrite IH. destruct (scanCompleted host (S n) rows h') as [h'' rds].
  by destruct reading.
Qed.

(** [rd] is the reading of row [ir.2], the row number [ir.1] of the batch:
    the row passes the filters of the first pass, and the reading carries its
    balance in cents, its time stamp and the account the resolver gives it
    under the hints of the pass. *)
Definition readsRow (host : Host) (rd : Reading) (ir : nat * ParsedTransaction)
    : Prop :=
  eligible host ir.2 = true /\
  (exists text q, orText (balance ir.2) = Some text /\
                  parseFloat host text = Some q /\
                  cents rd = roundCents q) /\
  time rd = rowTime host ir.1 ir.2 /\
  (exists pocketHint vaultHint,
     info rd = resolve host ir.2 pocketHint vaultHint).

(** The readings are those of the eligible rows, in input order. *)
Lemma scanCompleted_rows host n rows h :
  Forall2 (readsRow host)
          (scanCompleted host n rows h).2
          (filter (fun ir => eligible host ir.2 = true)
                  (imap (fun i r => (n + i, r)) rows)).
Proof.
  revert n h. induction rows as [|r rows IH]; intros n h; [constructor|].
  cbn [scanCompleted imap]. rewrite filter_cons. cbn [snd].
  destruct (readCompleted host n h r) as [h' reading] eqn:Hread.
  specialize (IH (S n) h').
  rewrite (imap_ext _ (fun i r => (n + S i, r))) in IH
    by (intros; cbn; f_equal; lia).
  destruct (scanCompleted host (S n) rows h') as [h'' rds]. cbn [fst snd] in *.
  unfold readCompleted in Hread.
  assert (Hel : eligible host r =
                match orText (balance r) with
                | Some text => negb (stateExcludes r)
                               && bool_decide (is_Some (parseFloat host text))
                | None => false
                end) by reflexivity.
  destruct (orText (balance r)) as [text|] eqn:Hbal.
  2:{ injection Hread as <- <-. by rewrite decide_False by (by rewrite Hel). }
  destruct (stateExcludes r) eqn:Hst.
  { injection Hread as <- <-. by rewrite decide_False by (by rewrite Hel). }
  destruct (hintsFor host h r) as [[h1 ph] vh].
  destruct (parseFloat host text) as [q|] eqn:Hq.
  - injection Hread as <- <-. cbn [negb andb] in Hel.
    rewrite bool_decide_true in Hel by eauto.
    rewrite decide_True by done. constructor; [|done].
    unfold readsRow. cbn [cents time info fst snd].
    split; [done|]. split; [by exists text, q|].
    split; [by rewrite Nat.add_0_r|]. by exists ph, vh.
  - injection Hread as <- <-. cbn [negb andb] in Hel.
    rewrite bool_decide_false in Hel by (intros [? [=]]).
    by rewrite decide_False by (by rewrite Hel).
Qed.

Lemma lookup_snoc_inv {A} (l : list A) (x y : A) (j : nat) :
  (l ++ [x]) !! j = Some y ->
  (j < length l /\ l !! j = Some y) \/ (j = length l /\ y = x).
Proof.
  intros Hj. destruct (decide (j < length l)) as [Hlt|Hge].
  - left. by rewrite lookup_app_l in Hj.
  - right. apply lookup_lt_Some in Hj as Hj'. rewrite length_app in Hj'.
    cbn in Hj'. assert (j = length l) as -> by lia.
    rewrite list_lookup_middle in Hj by done. by injection Hj as <-.
Qed.

(** What the fold over the readings leaves under one key, when every time
    stamp is a number: nothing if no reading has that key, and otherwise the
    latest reading with that key, the earliest one among equally late ones. *)
Lemma latest_reading (k : string) (rds : list Reading) :
  Forall (fun rd => time rd <> None) rds ->
  match foldl (pick k) None rds with
  | None => Forall (fun rd => accountKey (info rd) <> k) rds
  | Some e =>
      exists i rd ti,
        rds !! i = Some rd /\ accountKey (info rd) = k /\ e = entryOf rd /\
        time rd = Some ti /\
        forall j rd' tj,
          rds !! j = Some rd' -> accountKey (info rd') = k ->
          time rd' = Some tj -> (tj <= ti)%Z /\ (j < i -> (tj < ti)%Z)
  end.
Proof.
  induction rds as [|x rds IH] using rev_ind; intros Hvalid; [by constructor|].
  apply Forall_app in Hvalid as [Hvalid Hx]. apply Forall_cons in Hx as [Hx _].
  specialize (IH Hvalid). rewrite foldl_app. cbn [foldl].
  destruct (time x) as [tx|] eqn:Htx; [|done].
  unfold pick at 1.
  destruct (decide (accountKey (info x) = k)) as [Hk|Hk].
  - destruct (foldl (pick k) None rds) as [e|].
    + destruct IH as (i & rd & ti & Hi & Hrd & -> & Hti & Hmax).
      pose proof (lookup_lt_Some _ _ _ Hi) as Hlen.
      cbn [entryOf lastDate]. rewrite Hti, Htx. cbn [laterThan].
      destruct (ti <? tx)%Z eqn:Hcmp.
      * apply Z.ltb_lt in Hcmp.
        exists (length rds), x, tx. split; [by rewrite list_lookup_middle|].
        split; [done|]. split; [done|]. split; [done|].
        intros j rd' tj [[Hlt Hj]|[-> ->]]%lookup_snoc_inv Hk' Htj.
        -- destruct (Hmax j rd' tj Hj Hk' Htj). lia.
        -- assert (tj = tx) by congruence. lia.
      * apply Z.ltb_ge in Hcmp.
        exists i, rd, ti. split; [by rewrite lookup_app_l|].
        split; [done|]. split; [done|]. split; [done|].
        intros j rd' tj [[Hlt Hj]|[-> ->]]%lookup_snoc_inv Hk' Htj.
        -- by apply (Hmax j rd').
        -- assert (tj = tx) by congruence. lia.
    + exists (length rds), x, tx. split; [by rewrite list_lookup_middle|].
      split; [done|]. split; [done|]. split; [done|].
      intros j rd' tj [[Hlt Hj]|[-> ->]]%lookup_snoc_inv Hk' Htj.
      * exfalso. eapply Forall_lookup_1 in IH; [|exact Hj]. done.
      * assert (tj = tx) by congruence. lia.
  - destruct (foldl (pick k) None rds) as [e|].
    + destruct IH as (i & rd & ti & Hi & Hrd & -> & Hti & Hmax).
      pose proof (lookup_lt_Some _ _ _ Hi) as Hlen.
      exists i, rd, ti. split; [by rewrite lookup_app_l|].
      split; [done|]. split; [done|]. split; [done|].
      intros j rd' tj [[Hlt Hj]|[-> ->]]%lookup_snoc_inv Hk' Htj.
      * by apply (Hmax j rd').
      * done.
    + apply Forall_app. split; [done|]. by apply Forall_singleton.
Qed.

(** No reading under a key, no entry under it, whatever the time stamps. *)
Lemma no_reading_no_entry (k : string) (rds : list Reading) (cur : option Entry) :
  Forall (fun rd => accountKey (info rd) <> k) rds ->
  foldl (pick k) cur rds = cur.
Proof.
  revert cur. induction rds as [|rd rds IH]; intros cur Hall; [done|].
  apply Forall_cons in Hall as [Hrd Hall]. cbn. unfold pick at 2.
  rewrite decide_False by done. by apply IH.
Qed.

Lemma some_reading_some_entry (k : string) (rds : list Reading) (cur : option Entry) :
  is_Some cur \/ Exists (fun rd => accountKey (info rd) = k) rds ->
  is_Some (foldl (pick k) cur rds).
Proof.
  revert cur. induction rds as [|rd rds IH]; intros cur [Hc|Hex].
  - done.
  - by apply Exists_nil in Hex.
  - cbn. apply IH. left. unfold pick. destruct Hc as [e ->].
    destruct (decide _); [|eauto]. destruct (laterThan _ _); eauto.
  - cbn. apply Exists_cons in Hex as [Hk|Hex]; [|apply IH; by right].
    apply IH. left. unfold pick. rewrite decide_True by done.
    destruct cur as [e|]; [|eauto]. destruct (laterThan _ _); eauto.
Qed.

Lemma secondPass_lookup host h rows (adj : gmap string Z) (k : string) :
  default 0%Z
    (foldl (fun adj r => match readPending host h r with
                         | Some p => addPending adj p
                         | None => adj
                         end) adj rows !! k)
  = (default 0%Z (adj !! k) + pendingSum k (omap (readPending host h) rows))%Z.
Proof.
  revert adj. induction rows as [|r rows IH]; intros adj; cbn; [lia|].
  rewrite IH. destruct (readPending host h r) as [[k' c]|]; [|done].
  cbn. unfold addPending. cbn.
  destruct (decide (k' = k)) as [->|Hne].
  - rewrite lookup_insert_eq. unfold pendingSum. cbn. lia.
  - by rewrite lookup_insert_ne.
Qed.

Lemma applyPending_lookup (adj : gmap string Z) (m : gmap string Entry) (k : string) :
  applyPending adj m !! k =
  (fun e => {| entryInfo := entryInfo e;
               entryBalance := (entryBalance e + default 0%Z (adj !! k))%Z;
               lastDate := lastDate e |}) <$> m !! k.
Proof.
  unfold applyPending. rewrite map_lookup_imap.
  destruct (m !! k) as [e|]; [|done]. cbn.
  destruct (adj !! k); cbn; [done|]. destruct e. cbn. f_equal. f_equal. lia.
Qed.

(** The entry that handleContinue leaves under a key. *)
Lemma finalBalances_lookup host rows k :
  finalBalances host rows !! k =
  (fun e => {| entryInfo := entryInfo e;
               entryBalance :=
                 (entryBalance e + pendingSum k (pendingReadings host rows))%Z;
               lastDate := lastDate e |})
    <$> foldl (pick k) None (completedReadings host rows).
Proof.
  unfold finalBalances, completedReadings, pendingReadings.
  rewrite firstPass_scan.
  destruct (scanCompleted host 0 rows (prepass host rows)) as [h1 rds]. cbn [fst snd].
  rewrite applyPending_lookup, foldl_record_lookup, lookup_empty.
  unfold secondPass. rewrite secondPass_lookup, lookup_empty. cbn.
  by destruct (foldl (pick k) None rds).
Qed.

Lemma pick_key (k : string) (rds : list Reading) (cur : option Entry) (e : Entry) :
  foldl (pick k) cur rds = Some e ->
  cur = Some e \/ accountKey (entryInfo e) = k.
Proof.
  revert cur. induction rds as [|rd rds IH]; intros cur; cbn; [by left|].
  intros [Hc|Hk]%IH; [|by right]. unfold pick in Hc.
  destruct (decide (accountKey (info rd) = k)) as [Hrd|]; [|by left].
  destruct cur as [ex|].
  - destruct (laterThan _ _); [|by left]. injection Hc as <-. by right.
  - injection Hc as <-. by right.
Qed.

(** An entry is stored under the key of its own account. *)
Lemma finalBalances_key host rows k e :
  finalBalances host rows !! k = Some e -> accountKey (entryInfo e) = k.
Proof.
  rewrite finalBalances_lookup.
  destruct (foldl (pick k) None (completedReadings host rows)) as [e0|] eqn:Hf;
    [|done].
  intros [= <-]. cbn. by apply pick_key in Hf as [[=]|Hk].
Qed.

Lemma pending_not_eligible host r :
  stateIs "PENDING" r = true -> eligible host r = false.
Proof.
  unfold stateIs, eligible, stateExcludes.
  destruct (orText (state r)) as [s|]; [|done].
  intros Hs%String.eqb_eq. rewrite Hs. cbn. by destruct (orText (balance r)).
Qed.

Lemma no_eligible_no_readings host rows :
  Forall (fun r => eligible host r = false) rows ->
  completedReadings host rows = [].
Proof.
  intros Hall. unfold completedReadings.
  pose proof (scanCompleted_rows host 0 rows (prepass host rows)) as H2.
  assert (Hnil : forall n,
            filter (fun ir => eligible host ir.2 = true)
                   (imap (fun i r => (n + i, r)) rows) = []).
  { clear H2. induction Hall as [|r rows Hr _ IH]; intros n; [done|].
    cbn [imap]. rewrite filter_cons, decide_False by (cbn; congruence).
    rewrite (imap_ext _ (fun i r => (S n + i, r)))
      by (intros; cbn; f_equal; lia).
    apply IH. }
  rewrite Hnil in H2. by apply Forall2_nil_inv_r in H2.
Qed.

(** The second pass reads exactly the rows whose state is PENDING, each with
    its amount in cents. *)
Lemma pendingReadings_rows host rows :
  Forall2 (fun p r => p.2 = roundCents (default 0%Q (amount r)) /\
                      exists pocketHint vaultHint,
                        p.1 = accountKey (resolve host r pocketHint vaultHint))
          (pendingReadings host rows)
          (filter (fun r => stateIs "PENDING" r = true) rows).
Proof.
  unfold pendingReadings.
  generalize (scanCompleted host 0 rows (prepass host rows)).1. intros h.
  induction rows as [|r rows IH]; [constructor|].
  cbn [omap list_omap]. rewrite filter_cons. unfold readPending at 1.
  destruct (stateIs "PENDING" r); cbn [negb].
  - rewrite decide_True by done. constructor; [|exact IH]. cbn. eauto.
  - rewrite decide_False by done. exact IH.
Qed.

(** *** A concrete host and two batches *)

Definition demoResolve (a : ResolveArgs) : AccountInfo :=
  let kind := default "current" (Js.toLowerCase <$> argProduct a) in
  {| accountKey := "revolut-" +:+ kind +:+ "-" +:+ Js.toLowerCase (argCurrency a);
     accountName := default (default "Main" (vaultNameHint a)) (pocketNameHint a);
     accountType := kind;
     provider := argProvider a;
     infoCurrency := argCurrency a |}.

Definition demoHost : Host :=
  {| resolveAccountInfo := demoResolve;
     pocketTransferName := fun _ => None;
     parseFloat := fun text =>
       if String.eqb text "100.00" then Some 100%Q
       else if String.eqb text "150.00" then Some 150%Q
       else if String.eqb text "90.00" then Some 90%Q
       else if String.eqb text "50.00" then Some 50%Q
       else None;
     getTime := fun text =>
       if String.eqb text "2025-01-01 10:00:00" then Some 1735725600000%Z
       else if String.eqb text "2025-01-02 10:00:00" then Some 1735812000000%Z
       else if String.eqb text "2025-01-03 10:00:00" then Some 1735898400000%Z
       else if String.eqb text "2025-01-04 10:00:00" then Some 1735984800000%Z
       else None;
     clock := fun _ => 1736000000000%Z |}.

Definition row (st : option string) (amt : Q) (bal : option string)
    (when : string) : ParsedTransaction :=
  {| description := "Card payment"; product := Some "Current";
     currency := Some "EUR"; state := st; amount := Some amt; balance := bal;
     completedDate := Some when; startedDate := Some when |}.

(** Three completed rows with balances 100, 150 and 90 at increasing time
    stamps and one pending row of -20. *)
Definition scenario : list ParsedTransaction :=
  [row (Some "COMPLETED") (-10)%Q (Some "100.00") "2025-01-01 10:00:00";
   row (Some "COMPLETED") 50%Q (Some "150.00") "2025-01-02 10:00:00";
   row (Some "COMPLETED") (-60)%Q (Some "90.00") "2025-01-03 10:00:00";
   row (Some "PENDING") (-20)%Q None "2025-01-04 10:00:00"].

Example scenario_final_balance :
  entryBalance <$> finalBalances demoHost scenario !! "revolut-current-eur"
  = Some 7000%Z.
Proof. vm_compute. reflexivity. Qed.

(** A completed row followed by a later row that has a balance but no
    state. *)
Definition statelessBatch : list ParsedTransaction :=
  [row (Some "COMPLETED") (-10)%Q (Some "100.00") "2025-01-01 10:00:00";
   row None (-50)%Q (Some "50.00") "2025-01-02 10:00:00"].

(** C1 (as stated, refuted): the balance is not always that of the latest
    COMPLETED row.  In [statelessBatch] the only COMPLETED row carries the
    balance 100.00 and no row is PENDING, yet the final balance of the
    account is 5000 cents: the later row without a state is read by the first
    pass as well.  The two rows agree on description, product and currency
    and take no hint, so every resolver gives them the same account. *)
Lemma stateless_row_sets_the_balance :
  map (stateIs "COMPLETED") statelessBatch = [true; false] /\
  map (stateIs "PENDING") statelessBatch = [false; false] /\
  map (fun r => accountKey (resolve demoHost r None None)) statelessBatch
  = ["revolut-current-eur"; "revolut-current-eur"] /\
  map (fun r => roundCents <$> (balance r ≫= parseFloat demoHost)) statelessBatch
  = [Some 10000%Z; Some 5000%Z] /\
  entryBalance <$> finalBalances demoHost statelessBatch !! "revolut-current-eur"
  = Some 5000%Z.
Proof. vm_compute. done. Qed.

(** An account that only has a pending row. *)
Definition pendingOnly : list ParsedTransaction :=
  [row (Some "PENDING") (-20)%Q None "2025-01-04 10:00:00"].

Example pendingOnly_no_entry :
  pendingReadings demoHost pendingOnly = [("revolut-current-eur", (-2000)%Z)] /\
  finalBalances demoHost pendingOnly !! "revolut-current-eur" = None /\
  balanceWrites demoHost pendingOnly = [].
Proof. vm_compute. done. Qed.

(** *** The computed balances *)

(** C1 (amended): for every batch whose first-pass rows have time stamps
    that parse, an account gets a final balance exactly when the first pass
    reads a row resolved to it, the rows read by the first pass being those
    with a parseable balance whose state is absent or COMPLETED; that final
    balance is the balance, in cents, of the latest such row resolved to the
    account (the earliest in input order among equally late ones) plus the sum
    of the amounts, in cents, of all PENDING rows resolved to the account. *)
Theorem final_balance_latest_reading_plus_pending (host : Host)
    (rows : list ParsedTransaction) (k : string) :
  Forall (fun rd => time rd <> None) (completedReadings host rows) ->
  (Exists (fun rd => accountKey (info rd) = k) (completedReadings host rows)
     <-> is_Some (finalBalances host rows !! k)) /\
  (forall e, finalBalances host rows !! k = Some e ->
     exists i rd ti,
       completedReadings host rows !! i = Some rd /\
       accountKey (info rd) = k /\ time rd = Some ti /\
       (forall j rd' tj,
          completedReadings host rows !! j = Some rd' ->
          accountKey (info rd') = k -> time rd' = Some tj ->
          (tj <= ti)%Z /\ (j < i -> (tj < ti)%Z)) /\
       entryBalance e = (cents rd + pendingSum k (pendingReadings host rows))%Z) /\
  Forall2 (readsRow host)
          (completedReadings host rows)
          (filter (fun ir => eligible host ir.2 = true)
                  (imap (fun i r => (i, r)) rows)) /\
  Forall2 (fun p r => p.2 = roundCents (default 0%Q (amount r)) /\
                      exists pocketHint vaultHint,
                        p.1 = accountKey (resolve host r pocketHint vaultHint))
          (pendingReadings host rows)
          (filter (fun r => stateIs "PENDING" r = true) rows).
Proof.
  intros Hvalid.
  split; [|split; [|split; [apply scanCompleted_rows|apply pendingReadings_rows]]].
  - rewrite finalBalances_lookup, fmap_is_Some. split.
    + intros Hex. apply some_reading_some_entry. by right.
    + intros [e He]. apply Exists_exists.
      pose proof (latest_reading k _ Hvalid) as Hl. rewrite He in Hl.
      destruct Hl as (i & rd & _ & Hi & Hk & _).
      exists rd. split; [|done]. apply list_elem_of_lookup. eauto.
  - intros e. rewrite finalBalances_lookup.
    pose proof (latest_reading k _ Hvalid) as Hl.
    destruct (foldl (pick k) None (completedReadings host rows)) as [e0|]; [|done].
    destruct Hl as (i & rd & ti & Hi & Hk & -> & Hti & Hmax).
    intros [= <-]. exists i, rd, ti.
    split; [done|]. split; [done|]. split; [done|]. split; [exact Hmax|done].
Qed.

Lemma final_balance_latest_reading_plus_pending_witness :
  Forall (fun rd => time rd <> None) (completedReadings demoHost scenario) /\
  is_Some (finalBalances demoHost scenario !! "revolut-current-eur").
Proof.
  assert (Hvalid : Forall (fun rd => time rd <> None)
                     (completedReadings demoHost scenario)).
  { vm_compute. repeat constructor; discriminate. }
  split; [exact Hvalid|].
  apply (proj1 (proj1 (final_balance_latest_reading_plus_pending demoHost
                         scenario "revolut-current-eur" Hvalid))).
  vm_compute. apply Exists_cons_hd. reflexivity.
Defined.

(** C10: the pending adjustment of an account is applied only to a balance
    that the first pass established.  An account to which the first pass
    resolves no row gets no balance entry and no balance write, whatever its
    pending amounts; in particular a batch in which every row is PENDING or
    has no parseable balance produces no entry and no write at all. *)
Theorem pending_only_account_gets_no_balance (host : Host)
    (rows : list ParsedTransaction) (k : string) :
  (Forall (fun rd => accountKey (info rd) <> k) (completedReadings host rows) ->
     finalBalances host rows !! k = None /\
     Forall (fun w => writeKey w <> k) (balanceWrites host rows)) /\
  (Forall (fun r => stateIs "PENDING" r = true \/
                    (orText (balance r) ≫= parseFloat host) = None) rows ->
     finalBalances host rows = ∅ /\ balanceWrites host rows = []).
Proof.
  assert (Hnone : forall k',
            Forall (fun rd => accountKey (info rd) <> k') (completedReadings host rows) ->
            finalBalances host rows !! k' = None).
  { intros k' Hall. rewrite finalBalances_lookup.
    by rewrite (no_reading_no_entry k' _ None Hall). }
  split.
  - intros Hall. split; [by apply Hnone|].
    apply Forall_forall. intros w Hw Hk.
    unfold balanceWrites in Hw. apply list_elem_of_fmap in Hw as ([k' e] & -> & Hin).
    apply elem_of_map_to_list in Hin. cbn in Hk.
    rewrite (finalBalances_key _ _ _ _ Hin) in Hk. subst k'.
    rewrite (Hnone k Hall) in Hin. done.
  - intros Hall.
    assert (Hempty : finalBalances host rows = ∅).
    { apply map_eq. intros k'. rewrite lookup_empty. apply Hnone.
      rewrite no_eligible_no_readings; [constructor|].
      eapply Forall_impl; [exact Hall|]. intros r [Hp|Hb].
      - by apply pending_not_eligible.
      - unfold eligible. destruct (orText (balance r)) as [text|]; [|done].
        cbn in Hb. rewrite Hb. rewrite bool_decide_false by (intros [? [=]]).
        apply andb_false_r. }
    split; [done|]. unfold balanceWrites. rewrite Hempty.
    by rewrite map_to_list_empty.
Qed.

Lemma pending_only_account_gets_no_balance_witness :
  Forall (fun rd => accountKey (info rd) <> "revolut-current-eur")
         (completedReadings demoHost pendingOnly) /\
  pendingSum "revolut-current-eur" (pendingReadings demoHost pendingOnly)
  = (-2000)%Z /\
  finalBalances demoHost pendingOnly !! "revolut-current-eur" = None.
Proof.
  assert (H : Forall (fun rd => accountKey (info rd) <> "revolut-current-eur")
                (completedReadings demoHost pendingOnly)).
  { vm_compute. constructor. }
  split; [exact H|]. split; [vm_compute; reflexivity|].
  exact (proj1 (proj1 (pending_only_account_gets_no_balance demoHost pendingOnly
                         "revolut-current-eur") H)).
Defined.

End CsvImport.

(** ** Transfer matcher *)

Module Transfers.

Inductive Kind := income | expense.

#[global] Instance Kind_eq_dec : EqDecision Kind.
Proof. solve_decision. Defined.

(** Modelled from the spec: a converted transaction of an import batch (the
    ConvertedTransaction type is not among the sources), with the fields the
    matcher reads or writes. *)
Record ConvertedTransaction := {
  id : string;
  title : string;
  amount : Z;                       (* minor units *)
  kind : Kind;
  date : Z;                         (* time stamp, milliseconds *)
  currency : string;
  account : string;
  matchedTransferId : option string;
  excludeFromAnalytics : bool;
  isAnalyticsProtected : bool;
}.

Section Matcher.

(** How far apart in time the two sides of a transfer may be. *)
Variable window : Z.

(** Modelled from the spec: the pairing test of markTransfers, whose code is
    not among the sources.  One side is a debit and the other a credit of the
    same absolute amount, between two different accounts, in the same
    currency and close in time. *)
Definition compatible (a b : ConvertedTransaction) : bool :=
  negb (bool_decide (kind a = kind b))
  && (Z.abs (amount a) =? Z.abs (amount b))%Z
  && String.eqb (currency a) (currency b)
  && negb (String.eqb (account a) (account b))
  && (Z.abs (date a - date b) <=? window)%Z.

(** Modelled from the spec: the choice among several candidates, closest in
    time first, then input order.  [best] is the candidate kept so far. *)
Fixpoint choose (t : ConvertedTransaction)
    (candidates : list (nat * ConvertedTransaction))
    (best : option (nat * ConvertedTransaction))
    : option (nat * ConvertedTransaction) :=
  match candidates with
  | [] => best
  | c :: rest =>
      match best with
      | None => choose t rest (Some c)
      | Some b =>
          if (Z.abs (date c.2 - date t) <? Z.abs (date b.2 - date t))%Z
          then choose t rest (Some c)
          else choose t rest best
      end
  end.

(** Modelled from the spec: the transactions that may still be paired with
    the one at [i], in input order. *)
Definition candidatesFor (txs : list ConvertedTransaction)
    (partner : gmap nat nat) (i : nat) (t : ConvertedTransaction)
    : list (nat * ConvertedTransaction) :=
  filter (fun c => c.1 <> i /\ partner !! c.1 = None /\ compatible t c.2 = true)
         (imap (fun j u => (j, u)) txs).

(** Modelled from the spec: one step of the matcher, for the transaction at
    [i]; [partner] maps the index of every transaction matched so far to the
    index of its counterpart. *)
Definition matchOne (txs : list ConvertedTransaction)
    (partner : gmap nat nat) (i : nat) : gmap nat nat :=
  match txs !! i with
  | None => partner
  | Some t =>
      match partner !! i with
      | Some _ => partner
      | None =>
          match choose t (candidatesFor txs partner i t) None with
          | Some (j, _) => <[j := i]> (<[i := j]> partner)
          | None => partner
          end
      end
  end.

(** Modelled from the spec: the pairs found in a batch, its transactions
    being taken in input order. *)
Definition pairing (txs : list ConvertedTransaction) : gmap nat nat :=
  foldl (matchOne txs) ∅ (seq 0 (length txs)).

(** Modelled from the spec: the link and the two flags written on a matched
    transaction. *)
Definition markMatched (other : string) (t : ConvertedTransaction)
    : ConvertedTransaction :=
  {| id := id t; title := title t; amount := amount t; kind := kind t;
     date := date t; currency := currency t; account := account t;
     matchedTransferId := Some other;
     excludeFromAnalytics := true;
     isAnalyticsProtected := true |}.

(** Modelled from the spec: markTransfers.  Transactions are taken in input
    order; each one not yet matched is paired with the closest-in-time
    compatible transaction that is not matched either; both sides of a pair
    are marked, everything else is returned as it came. *)
Definition markTransfers (txs : list ConvertedTransaction)
    : list ConvertedTransaction :=
  imap (fun n t =>
          match pairing txs !! n with
          | Some m =>
              match txs !! m with
              | Some u => markMatched (id u) t
              | None => t
              end
          | None => t
          end) txs.

(** The pairing is an involution without fixed points that links compatible
    transactions of the batch. *)
Definition paired (txs : list ConvertedTransaction) (partner : gmap nat nat) : Prop :=
  forall a b, partner !! a = Some b ->
    partner !! b = Some a /\ a <> b /\
    exists ta tb, txs !! a = Some ta /\ txs !! b = Some tb /\
                  compatible ta tb = true.

Lemma choose_from t candidates best c :
  choose t candidates best = Some c -> best = Some c \/ c ∈ candidates.
Proof.
  revert best. induction candidates as [|x rest IH]; intros best; cbn; [by left|].
  destruct best as [b|].
  - destruct (_ <? _)%Z; intros [H|H]%IH.
    + injection H as <-. right. by left.
    + right. by right.
    + by left.
    + right. by right.
  - intros [H|H]%IH.
    + injection H as <-. right. by left.
    + right. by right.
Qed.

Lemma matchOne_paired txs partner i :
  paired txs partner -> paired txs (matchOne txs partner i).
Proof.
  intros Hp. unfold matchOne.
  destruct (txs !! i) as [t|] eqn:Ht; [|done].
  destruct (partner !! i) as [?|] eqn:Hi; [done|].
  destruct (choose t (candidatesFor txs partner i t) None) as [[j u]|] eqn:Hc;
    [|done].
  apply choose_from in Hc as [[=]|Hin].
  apply list_elem_of_filter in Hin as [(Hne & Hj & Hcompat) Hin].
  apply elem_of_lookup_imap in Hin as (j' & u' & [= <- <-] & Hu).
  cbn in Hne, Hj, Hcompat.
  intros a b Hab.
  destruct (decide (a = j)) as [->|Haj].
  { rewrite lookup_insert_eq in Hab. injection Hab as <-.
    rewrite lookup_insert_ne, lookup_insert_eq by done.
    split; [done|]. split; [done|]. exists u, t.
    split; [done|]. split; [done|].
    unfold compatible in *.
    rewrite !andb_true_iff in *. destruct Hcompat as ((((H1 & H2) & H3) & H4) & H5).
    repeat split.
    - rewrite negb_true_iff, bool_decide_eq_false in *. congruence.
    - apply Z.eqb_eq in H2. apply Z.eqb_eq. lia.
    - apply String.eqb_eq in H3. apply String.eqb_eq. done.
    - rewrite negb_true_iff in *. apply String.eqb_neq in H4.
      apply String.eqb_neq. congruence.
    - apply Z.leb_le in H5. apply Z.leb_le. lia. }
  rewrite lookup_insert_ne in Hab by done.
  destruct (decide (a = i)) as [->|Hai].
  { rewrite lookup_insert_eq in Hab. injection Hab as <-.
    rewrite lookup_insert_eq. split; [done|]. split; [done|]. by exists t, u. }
  rewrite lookup_insert_ne in Hab by done.
  destruct (Hp a b Hab) as (Hba & Hneq & Hex).
  assert (b <> j) by congruence. assert (b <> i) by congruence.
  by rewrite !lookup_insert_ne.
Qed.

Lemma pairing_paired txs : paired txs (pairing txs).
Proof.
  unfold pairing. generalize (seq 0 (length txs)).
  assert (H0 : paired txs ∅) by (intros a b; by rewrite lookup_empty).
  revert H0. generalize (∅ : gmap nat nat).
  intros partner Hp l. revert partner Hp.
  induction l as [|i l IH]; intros partner Hp; [done|].
  cbn. by apply IH, matchOne_paired.
Qed.

Lemma choose_some t candidates best :
  is_Some best \/ candidates <> [] -> is_Some (choose t candidates best).
Proof.
  revert best. induction candidates as [|c rest IH]; intros best [Hb|Hne];
    try done.
  - cbn. destruct Hb as [b ->]. destruct (_ <? _)%Z; apply IH; left; eauto.
  - cbn. destruct best as [b|]; [|apply IH; left; eauto].
    destruct (_ <? _)%Z; apply IH; left; eauto.
Qed.

(** A link, once made, is never changed. *)
Lemma matchOne_keeps txs partner i a b :
  partner !! a = Some b -> matchOne txs partner i !! a = Some b.
Proof.
  intros Hab. unfold matchOne.
  destruct (txs !! i) as [t|]; [|done].
  destruct (partner !! i) as [?|] eqn:Hi; [done|].
  destruct (choose t (candidatesFor txs partner i t) None) as [[j u]|] eqn:Hc;
    [|done].
  apply choose_from in Hc as [[=]|Hin].
  apply list_elem_of_filter in Hin as [(_ & Hj & _) _]. cbn in Hj.
  rewrite !lookup_insert_ne by congruence. done.
Qed.

Lemma foldl_matchOne_keeps txs l partner a b :
  partner !! a = Some b -> foldl (matchOne txs) partner l !! a = Some b.
Proof.
  revert partner. induction l as [|i l IH]; intros partner Hab; [done|].
  cbn. by apply IH, matchOne_keeps.
Qed.

(** No transfer is missed: two compatible transactions are never both left
    unmatched. *)
Lemma pairing_maximal txs i j t u :
  txs !! i = Some t -> txs !! j = Some u -> i <> j ->
  compatible t u = true ->
  pairing txs !! i = None -> pairing txs !! j = None -> False.
Proof.
  intros Ht Hu Hne Hc Hi Hj. unfold pairing in Hi, Hj.
  pose proof (lookup_lt_Some _ _ _ Ht) as Hlen.
  replace (length txs) with (i + S (length txs - S i)) in Hi, Hj by lia.
  rewrite seq_app, foldl_app in Hi, Hj. cbn [seq foldl] in Hi, Hj.
  set (before := foldl (matchOne txs) ∅ (seq 0 i)) in *.
  assert (Hbi : before !! i = None).
  { destruct (before !! i) as [x|] eqn:Hx; [|done].
    eapply matchOne_keeps, foldl_matchOne_keeps in Hx. by rewrite Hx in Hi. }
  assert (Hbj : before !! j = None).
  { destruct (before !! j) as [x|] eqn:Hx; [|done].
    eapply matchOne_keeps, foldl_matchOne_keeps in Hx. by rewrite Hx in Hj. }
  assert (Hstep : is_Some (matchOne txs before i !! i)).
  { unfold matchOne. rewrite Ht, Hbi.
    destruct (choose_some t (candidatesFor txs before i t) None) as [[k v] Hk].
    { right. intros Hnil.
      assert (Hin : (j, u) ∈ candidatesFor txs before i t).
      { apply list_elem_of_filter. split; [by repeat split; cbn; try congruence|].
        by apply (elem_of_lookup_imap_2 (fun j u => (j, u))). }
      rewrite Hnil in Hin. by apply elem_of_nil in Hin. }
    rewrite Hk. destruct (decide (k = i)) as [->|Hki].
    - rewrite lookup_insert_eq. eauto.
    - rewrite lookup_insert_ne, lookup_insert_eq by done. eauto. }
  destruct Hstep as [x Hx].
  eapply foldl_matchOne_keeps in Hx. by rewrite Hx in Hi.
Qed.

(** C7: in the result of markTransfers every transaction is either returned
    untouched or is one side of a pair: its counterpart is another
    transaction of the batch, it carries the counterpart's id as
    matchedTransferId and the counterpart carries its id back, and both have
    isAnalyticsProtected = true and excludeFromAnalytics = true; the two
    sides are a debit and a credit of the same absolute amount. *)
Theorem markTransfers_symmetric (txs : list ConvertedTransaction)
    (n : nat) (t : ConvertedTransaction) :
  txs !! n = Some t ->
  markTransfers txs !! n = Some t \/
  exists m u,
    m <> n /\ txs !! m = Some u /\
    markTransfers txs !! n = Some (markMatched (id u) t) /\
    markTransfers txs !! m = Some (markMatched (id t) u) /\
    kind t <> kind u /\ Z.abs (amount t) = Z.abs (amount u).
Proof.
  intros Ht. unfold markTransfers. rewrite list_lookup_imap, Ht. cbn.
  destruct (pairing txs !! n) as [m|] eqn:Hn; [|by left].
  destruct (pairing_paired txs n m Hn) as (Hm & Hne & ta & tb & Ha & Hb & Hc).
  rewrite Ht in Ha. injection Ha as <-. rewrite Hb.
  right. exists m, tb. split; [done|]. split; [done|]. split; [done|].
  rewrite list_lookup_imap, Hb. cbn. rewrite Hm, Ht. split; [done|].
  unfold compatible in Hc. rewrite !andb_true_iff in Hc.
  destruct Hc as ((((H1 & H2) & _) & _) & _).
  rewrite negb_true_iff, bool_decide_eq_false in H1. apply Z.eqb_eq in H2.
  by split.
Qed.

End Matcher.

Definition transfer (i title : string) (amt : Z) (k : Kind) (acct : string)
    (when : Z) : ConvertedTransaction :=
  {| id := i; title := title; amount := amt; kind := k; date := when;
     currency := "EUR"; account := acct; matchedTransferId := None;
     excludeFromAnalytics := false; isAnalyticsProtected := false |}.

(** "Transfer to Savings -50 EUR" and "Transfer from Checking +50 EUR" at the
    same time stamp, next to an ordinary payment. *)
Definition sameTimeBatch : list ConvertedTransaction :=
  [transfer "x1" "Transfer to Savings" (-5000) expense "Checking" 1735725600000;
   transfer "x2" "Coffee" (-350) expense "Checking" 1735725700000;
   transfer "x3" "Transfer from Checking" 5000 income "Savings" 1735725600000].

Example sameTimeBatch_marked :
  markTransfers 86400000 sameTimeBatch =
  [markMatched "x3" (transfer "x1" "Transfer to Savings" (-5000) expense
                       "Checking" 1735725600000);
   transfer "x2" "Coffee" (-350) expense "Checking" 1735725700000;
   markMatched "x1" (transfer "x3" "Transfer from Checking" 5000 income
                       "Savings" 1735725600000)].
Proof. vm_compute. reflexivity. Qed.

Lemma markTransfers_symmetric_witness :
  sameTimeBatch !! 0
  = Some (transfer "x1" "Transfer to Savings" (-5000) expense "Checking"
            1735725600000) /\
  (markTransfers 86400000 sameTimeBatch !! 0
   = Some (transfer "x1" "Transfer to Savings" (-5000) expense "Checking"
             1735725600000) \/
   exists m u,
     m <> 0 /\ sameTimeBatch !! m = Some u /\
     markTransfers 86400000 sameTimeBatch !! 0
     = Some (markMatched (id u)
               (transfer "x1" "Transfer to Savings" (-5000) expense "Checking"
                  1735725600000)) /\
     markTransfers 86400000 sameTimeBatch !! m
     = Some (markMatched "x1" u) /\
     expense <> kind u /\ 5000%Z = Z.abs (amount u)).
Proof.
  split; [reflexivity|].
  exact (markTransfers_symmetric 86400000 sameTimeBatch 0 _ eq_refl).
Defined.

End Transfers.

(** ** Bulk upload: what a call does, position by position *)

Module BulkFacts.

Import Bulk.

Section Upload.

Context {St : Type}.

Variable create : nat -> Draft -> CreateOutcome.
Variable shouldCancel : nat -> bool.
Variable onProgress : nat -> nat -> St -> St.
Variable onBatchSuccess : list nat -> St -> St.
Variable transactions : list Draft.

(** The element at [index] exists and its create call is taken as
    uploaded. *)
Definition acceptedAt (index : nat) : bool :=
  match transactions !! index with
  | Some tx => accepted create index tx
  | None => false
  end.

(** The error record pushed for the element at [index], if any. *)
Definition errorAt (index : nat) : option BulkError :=
  match transactions !! index with
  | Some tx =>
      match create index tx with
      | Created => None
      | CreateFailed m =>
          if isDuplicate (errorMessage m) then None
          else Some {| message := errorMessage m; errTitle := Some (title tx);
                       errDate := Some (date tx) |}
      end
  | None => None
  end.

(** The caller's state after batch number [k] has run. *)
Definition afterBatch (k : nat) (s : St) : St :=
  let ok := filter (fun i => acceptedAt i = true)
                   (seq (k * BATCH_SIZE) BATCH_SIZE) in
  onProgress (min (k * BATCH_SIZE + BATCH_SIZE) (length transactions))
             (length transactions)
             (match ok with [] => s | _ => onBatchSuccess ok s end).

Lemma attempts_of_slice n (l : list Draft) (i : nat) :
  shouldCancel n = false ->
  (forall j tx, l !! j = Some tx -> transactions !! (i + j) = Some tx) ->
  let rs := imap (fun j tx => attempt create shouldCancel n (i + j) tx) l in
  omap resolved rs = filter (fun i => acceptedAt i = true) (seq i (length l)) /\
  concat (map pushed rs) = omap errorAt (seq i (length l)) /\
  concat (map called rs) = l.
Proof.
  intros Hc. revert i. induction l as [|tx l IH]; intros i Hl; [done|].
  cbn zeta. rewrite imap_cons. cbn [omap list_omap map concat length seq].
  rewrite filter_cons.
  assert (Htx : transactions !! i = Some tx).
  { specialize (Hl 0 tx eq_refl). by rewrite Nat.add_0_r in Hl. }
  destruct (IH (S i)) as (I1 & I2 & I3).
  { intros j tx' Hj. specialize (Hl (S j) tx' Hj).
    by replace (S i + j) with (i + S j) by lia. }
  assert (Hext : imap ((fun j tx0 => attempt create shouldCancel n (i + j) tx0) ∘ S) l
                 = imap (fun j tx0 => attempt create shouldCancel n (S i + j) tx0) l).
  { apply imap_ext. intros j x _. cbn. f_equal. lia. }
  rewrite Hext, I1, I2, I3. rewrite Nat.add_0_r.
  assert (Ha : acceptedAt i = accepted create i tx).
  { unfold acceptedAt. by rewrite Htx. }
  assert (He : errorAt i = match create i tx with
                           | Created => None
                           | CreateFailed m =>
                               if isDuplicate (errorMessage m) then None
                               else Some {| message := errorMessage m;
                                            errTitle := Some (title tx);
                                            errDate := Some (date tx) |}
                           end).
  { unfold errorAt. by rewrite Htx. }
  rewrite Ha, He. unfold attempt, accepted. rewrite Hc.
  destruct (create i tx) as [|m].
  - rewrite decide_True by done. done.
  - destruct (isDuplicate (errorMessage m)).
    + rewrite decide_True by done. done.
    + rewrite decide_False by done. done.
Qed.

Lemma beyond_length_not_accepted i n :
  length transactions <= i ->
  filter (fun i => acceptedAt i = true) (seq i n) = [] /\
  omap errorAt (seq i n) = [].
Proof.
  revert i. induction n as [|n IH]; intros i Hi; [done|].
  cbn [seq omap list_omap]. rewrite filter_cons.
  destruct (IH (S i)) as [-> ->]; [lia|].
  unfold acceptedAt, errorAt. rewrite lookup_ge_None_2 by lia.
  by rewrite decide_False.
Qed.

Lemma truncate_indices i m n :
  m <= n -> length transactions <= i + m ->
  filter (fun i => acceptedAt i = true) (seq i n)
    = filter (fun i => acceptedAt i = true) (seq i m) /\
  omap errorAt (seq i n) = omap errorAt (seq i m).
Proof.
  intros Hm Hlen. replace n with (m + (n - m)) by lia.
  rewrite seq_app, filter_app, omap_app.
  destruct (beyond_length_not_accepted (i + m) (n - m)) as [-> ->]; [lia|].
  by rewrite !app_nil_r.
Qed.

Lemma slice_indices i n :
  let m := length (take n (drop i transactions)) in
  filter (fun i => acceptedAt i = true) (seq i n)
    = filter (fun i => acceptedAt i = true) (seq i m) /\
  omap errorAt (seq i n) = omap errorAt (seq i m).
Proof.
  cbn zeta. rewrite length_take, length_drop.
  destruct (decide (n <= length transactions - i)).
  - by rewrite Nat.min_l by lia.
  - rewrite Nat.min_r by lia. apply truncate_indices; lia.
Qed.

Lemma runBatch_spec k acc s :
  shouldCancel (batches acc) = false ->
  runBatch create shouldCancel onProgress onBatchSuccess transactions
    (k * BATCH_SIZE) acc s
  = ({| accErrors := accErrors acc
                     ++ omap errorAt (seq (k * BATCH_SIZE) BATCH_SIZE);
        accSuccessful := accSuccessful acc
                     ++ filter (fun i => acceptedAt i = true)
                               (seq (k * BATCH_SIZE) BATCH_SIZE);
        accCreated := accCreated acc
                     + length (filter (fun i => acceptedAt i = true)
                                      (seq (k * BATCH_SIZE) BATCH_SIZE));
        accCalls := accCalls acc
                     ++ take BATCH_SIZE (drop (k * BATCH_SIZE) transactions);
        batches := S (batches acc) |}, afterBatch k s).
Proof.
  intros Hc. unfold runBatch, afterBatch.
  set (i := k * BATCH_SIZE). set (batch := take BATCH_SIZE (drop i transactions)).
  destruct (attempts_of_slice (batches acc) batch i Hc) as (A1 & A2 & A3).
  { intros j tx Hj. unfold batch in Hj.
    apply lookup_take_Some in Hj as [Hj _]. by rewrite lookup_drop in Hj. }
  cbn zeta in A1, A2, A3.
  destruct (slice_indices i BATCH_SIZE) as [S1 S2]. cbn zeta in S1, S2.
  fold batch in S1, S2.
  set (rs := imap _ batch) in *.
  assert (Hrs : Forall settled rs).
  { apply Forall_forall. intros r (j & tx & -> & _)%elem_of_lookup_imap.
    by apply attempt_settled. }
  destruct (settled_counts rs Hrs) as (C1 & _).
  rewrite C1, A1, A2, A3, <- S1, <- S2. done.
Qed.

(** The caller's state after batches [a], ..., [b - 1] have run. *)
Definition afterBatches (a b : nat) (s : St) : St :=
  foldl (fun s k => afterBatch k s) s (seq a (b - a)).

Lemma afterBatches_none a s : afterBatches a a s = s.
Proof. unfold afterBatches. by rewrite Nat.sub_diag. Qed.

Lemma afterBatches_first a b s :
  a < b -> afterBatches a b s = afterBatches (S a) b (afterBatch a s).
Proof.
  intros H. unfold afterBatches.
  replace (b - a) with (S (b - S a)) by lia. done.
Qed.

Lemma batchLoop_spec m : forall a acc s,
  batches acc = a ->
  exists b,
    a <= b <= a + m /\
    (b = a + m \/ shouldCancel b = true) /\
    (forall j, a <= j < b -> shouldCancel j = false) /\
    batchLoop create shouldCancel onProgress onBatchSuccess transactions
      (seq a m) acc s
    = ({| accErrors := accErrors acc
            ++ omap errorAt (seq (a * BATCH_SIZE) ((b - a) * BATCH_SIZE));
          accSuccessful := accSuccessful acc
            ++ filter (fun i => acceptedAt i = true)
                      (seq (a * BATCH_SIZE) ((b - a) * BATCH_SIZE));
          accCreated := accCreated acc
            + length (filter (fun i => acceptedAt i = true)
                             (seq (a * BATCH_SIZE) ((b - a) * BATCH_SIZE)));
          accCalls := accCalls acc
            ++ take ((b - a) * BATCH_SIZE) (drop (a * BATCH_SIZE) transactions);
          batches := b |}, afterBatches a b s).
Proof.
  assert (Hstop : forall a acc s, batches acc = a ->
            (acc, s)
            = ({| accErrors := accErrors acc
                    ++ omap errorAt (seq (a * BATCH_SIZE) ((a - a) * BATCH_SIZE));
                  accSuccessful := accSuccessful acc
                    ++ filter (fun i => acceptedAt i = true)
                              (seq (a * BATCH_SIZE) ((a - a) * BATCH_SIZE));
                  accCreated := accCreated acc
                    + length (filter (fun i => acceptedAt i = true)
                                (seq (a * BATCH_SIZE) ((a - a) * BATCH_SIZE)));
                  accCalls := accCalls acc
                    ++ take ((a - a) * BATCH_SIZE)
                            (drop (a * BATCH_SIZE) transactions);
                  batches := a |}, afterBatches a a s)).
  { intros a acc s <-. rewrite afterBatches_none, Nat.sub_diag. cbn.
    rewrite !app_nil_r, Nat.add_0_r. by destruct acc. }
  induction m as [|m IH]; intros a acc s Hb.
  { exists a. split; [lia|]. split; [left; lia|]. split; [intros; lia|].
    by apply Hstop. }
  cbn [seq batchLoop]. rewrite Hb.
  destruct (shouldCancel a) eqn:Hc.
  { exists a. split; [lia|]. split; [by right|]. split; [intros; lia|].
    by apply Hstop. }
  rewrite runBatch_spec by (by rewrite Hb).
  set (acc1 := Build_Acc _ _ _ _ _).
  destruct (IH (S a) acc1 (afterBatch a s)) as (b & Hab & Hend & Hlive & ->).
  { unfold acc1. cbn. by rewrite Hb. }
  exists b. split; [lia|]. split; [destruct Hend; [left; lia|by right]|].
  split.
  { intros j Hj. destruct (decide (j = a)) as [->|]; [done|]. apply Hlive. lia. }
  rewrite (afterBatches_first a b) by lia. f_equal.
  unfold acc1. cbn [accErrors accSuccessful accCreated accCalls batches].
  replace ((b - a) * BATCH_SIZE) with (BATCH_SIZE + (b - S a) * BATCH_SIZE)
    by (unfold BATCH_SIZE; lia).
  replace (S a * BATCH_SIZE) with (a * BATCH_SIZE + BATCH_SIZE)
    by (unfold BATCH_SIZE; lia).
  rewrite seq_app, filter_app, omap_app, length_app, <- take_take_drop, drop_drop.
  rewrite <- !(assoc_L (++)), Nat.add_assoc. done.
Qed.

Lemma batchCount_enough : length transactions <= batchCount transactions * BATCH_SIZE.
Proof.
  unfold batchCount, BATCH_SIZE. change (2 - 1) with 1.
  pose proof (Nat.div_mod_eq (length transactions + 1) 2).
  pose proof (Nat.mod_upper_bound (length transactions + 1) 2). lia.
Qed.

Lemma errorAt_rejected index tx :
  transactions !! index = Some tx -> accepted create index tx = false ->
  is_Some (errorAt index).
Proof.
  intros Htx Ha. unfold errorAt, accepted in *. rewrite Htx.
  destruct (create index tx) as [|m]; [done|]. rewrite Ha. eauto.
Qed.

(** The outcome of a call that passed the configuration guard, written over
    the number [b] of batches it ran. *)
Lemma createBulkTransactions_spec configured s r s' :
  createBulkTransactions create shouldCancel onProgress onBatchSuccess
    transactions configured s = inr (r, s') ->
  exists b,
    b <= batchCount transactions /\
    (b = batchCount transactions \/ shouldCancel b = true) /\
    (forall j, j < b -> shouldCancel j = false) /\
    batchesRun r = b /\
    calls r = take (b * BATCH_SIZE) transactions /\
    successfulIndices (result r)
      = filter (fun i => acceptedAt i = true) (seq 0 (b * BATCH_SIZE)) /\
    errors (result r) = omap errorAt (seq 0 (b * BATCH_SIZE)) /\
    created (result r) = length (successfulIndices (result r)) /\
    failed (result r) = length (errors (result r)) /\
    created (result r) + failed (result r) = length (calls r) /\
    s' = afterBatches 0 b s.
Proof.
  unfold createBulkTransactions. destruct configured; [|done].
  pose proof (batchLoop_consistent create shouldCancel onProgress
                onBatchSuccess transactions
                (seq 0 (batchCount transactions)) emptyAcc s) as Hcons.
  destruct (batchLoop_spec (batchCount transactions) 0 emptyAcc s eq_refl)
    as (b & Hb & Hend & Hlive & Hloop).
  rewrite Hloop in Hcons |- *.
  destruct Hcons as (_ & H2 & _); [by repeat split|].
  intros [= <- <-]. exists b. rewrite Nat.sub_0_r in *.
  split; [lia|]. split; [done|]. split; [intros; apply Hlive; lia|].
  repeat split; done.
Qed.

Lemma afterBatches_invariant (P : St -> Prop) a b s :
  (forall cur tot s, P s -> P (onProgress cur tot s)) ->
  (forall l s, P s -> P (onBatchSuccess l s)) ->
  P s -> P (afterBatches a b s).
Proof.
  intros Hp Hb. unfold afterBatches. generalize (seq a (b - a)) as ks.
  intros ks. revert s. induction ks as [|k ks IH]; intros s Hs; [done|].
  cbn [foldl]. apply IH. unfold afterBatch. apply Hp.
  destruct (filter _ _); [done|by apply Hb].
Qed.

(** A run that completed every batch left no position out: each one is in
    successfulIndices or has pushed an error. *)
Lemma complete_run_covers configured s r s' index :
  createBulkTransactions create shouldCancel onProgress onBatchSuccess
    transactions configured s = inr (r, s') ->
  shouldCancel (batchesRun r) = false ->
  index < length transactions ->
  index ∈ successfulIndices (result r) \/ errors (result r) <> [].
Proof.
  intros (b & Hb & Hend & _ & -> & _ & Hs & He & _)%createBulkTransactions_spec
         Hlive Hi.
  destruct Hend as [->|Hend]; [|congruence].
  pose proof batchCount_enough as Hlen.
  destruct (lookup_lt_is_Some_2 transactions index Hi) as [tx Htx].
  destruct (accepted create index tx) eqn:Ha.
  - left. rewrite Hs, list_elem_of_filter, elem_of_seq.
    unfold acceptedAt. rewrite Htx. split; [done|lia].
  - right. destruct (errorAt_rejected index tx Htx Ha) as [e Herr].
    assert (He' : e ∈ errors (result r)).
    { rewrite He. apply list_elem_of_omap. exists index.
      split; [apply elem_of_seq; lia|done]. }
    intros Hnil. rewrite Hnil in He'. by apply elem_of_nil in He'.
Qed.

Lemma complete_run_calls configured s r s' :
  createBulkTransactions create shouldCancel onProgress onBatchSuccess
    transactions configured s = inr (r, s') ->
  shouldCancel (batchesRun r) = false ->
  calls r = transactions /\
  created (result r) + failed (result r) = length transactions.
Proof.
  intros (b & Hb & Hend & _ & -> & Hc & _ & _ & _ & _ & Hsum & _)%createBulkTransactions_spec
         Hlive.
  destruct Hend as [->|Hend]; [|congruence].
  pose proof batchCount_enough as Hlen.
  rewrite take_ge in Hc by lia. by rewrite Hsum, Hc.
Qed.

(** What the call returns does not depend on the caller's state. *)
Lemma batchLoop_result_independent todo acc s (s0 : St) :
  (batchLoop create shouldCancel onProgress onBatchSuccess transactions
     todo acc s).1
  = (batchLoop create shouldCancel onProgress onBatchSuccess transactions
       todo acc s0).1.
Proof.
  revert acc s s0. induction todo as [|k todo IH]; intros acc s s0; [done|].
  cbn [batchLoop]. destruct (shouldCancel (batches acc)); [done|].
  unfold runBatch. apply IH.
Qed.

(** X1: the create calls of a call to createBulkTransactions are the
    elements of a prefix of [transactions] made of whole batches, in order,
    each element once; the loop stops short of the last batch only where
    shouldCancel answered true, and never runs a batch after that. *)
Theorem bulk_calls_are_whole_batches (configured : bool) (s : St)
    (r : Run) (s' : St) :
  createBulkTransactions create shouldCancel onProgress onBatchSuccess
    transactions configured s = inr (r, s') ->
  calls r = take (batchesRun r * BATCH_SIZE) transactions /\
  batchesRun r <= batchCount transactions /\
  (batchesRun r = batchCount transactions \/ shouldCancel (batchesRun r) = true) /\
  (forall j, j < batchesRun r -> shouldCancel j = false).
Proof.
  intros (b & Hb & Hend & Hlive & -> & Hcalls & _)%createBulkTransactions_spec.
  done.
Qed.


(** X3: when shouldCancel never answers true, every element is attempted
    exactly once: the calls are [transactions] itself, created + failed is
    its length, and a position is in successfulIndices exactly when its
    create call succeeded or was rejected as a duplicate. *)
Theorem bulk_uncancelled_attempts_everything (configured : bool) (s : St)
    (r : Run) (s' : St) :
  createBulkTransactions create shouldCancel onProgress onBatchSuccess
    transactions configured s = inr (r, s') ->
  (forall n, shouldCancel n = false) ->
  calls r = transactions /\
  created (result r) + failed (result r) = length transactions /\
  forall index tx, transactions !! index = Some tx ->
    (index ∈ successfulIndices (result r) <-> accepted create index tx = true).
Proof.
  intros Hrun Hlive.
  destruct (complete_run_calls _ _ _ _ Hrun (Hlive _)) as [Hcalls Hsum].
  split; [done|]. split; [done|].
  destruct (createBulkTransactions_spec _ _ _ _ Hrun)
    as (b & Hb & Hend & _ & Hrb & _ & Hs & _).
  destruct Hend as [->|Hend]; [|by rewrite Hlive in Hend].
  pose proof batchCount_enough as Hlen.
  intros index tx Htx. rewrite Hs, list_elem_of_filter, elem_of_seq.
  unfold acceptedAt. rewrite Htx. apply lookup_lt_Some in Htx.
  split; [by intros [? _]|]. intros Ha. split; [done|lia].
Qed.

End Upload.

(** The retry of [retryDrafts], and the same upload cancelled once its first
    batch has completed. *)
Definition retryOutcome : Run :=
  {| result := retryResult; calls := retryDrafts; batchesRun := 2 |}.

Definition cancelAfterFirst (n : nat) : bool := (1 <=? n)%nat.

Definition cancelledOutcome : Run :=
  {| result := {| created := 2; Bulk.failed := 0; errors := [];
                  successfulIndices := [0; 1] |};
     calls := [draft "q1" "Tesco"; draft "q2" "Lidl"]; batchesRun := 1 |}.

Example cancelled_retry :
  createBulkTransactions retryCreate cancelAfterFirst
    (fun _ _ => noCallback) (fun _ => noCallback) retryDrafts true tt
  = inr (cancelledOutcome, tt).
Proof. reflexivity. Qed.

Lemma bulk_calls_are_whole_batches_witness :
  calls cancelledOutcome = take (1 * BATCH_SIZE) retryDrafts /\
  cancelAfterFirst 1 = true.
Proof.
  destruct (bulk_calls_are_whole_batches retryCreate cancelAfterFirst
              (fun _ _ => noCallback) (fun _ => noCallback) retryDrafts
              true tt cancelledOutcome tt eq_refl) as (Hcalls & _ & Hstop & _).
  split; [exact Hcalls|].
  destruct Hstop as [Hall|Hstop]; [discriminate Hall|exact Hstop].
Defined.


Lemma bulk_uncancelled_attempts_everything_witness :
  calls retryOutcome = retryDrafts /\
  created retryResult + Bulk.failed retryResult = 3.
Proof.
  destruct (bulk_uncancelled_attempts_everything retryCreate (fun _ => false)
              (fun _ _ => noCallback) (fun _ => noCallback) retryDrafts
              true tt retryOutcome tt eq_refl (fun _ => eq_refl))
    as (Hcalls & Hsum & _).
  split; [exact Hcalls|exact Hsum].
Defined.

End BulkFacts.

(** ** Sync queue: invariants of a run and the other queue operations *)

Module SyncFacts.

Import Bulk SyncQueue BulkFacts.

(** *** Grouping by user *)

Lemma addToGroup_members t groups :
  concat (map snd (addToGroup t groups)) ≡ₚ concat (map snd groups) ++ [t].
Proof.
  induction groups as [|[u ts] groups IH]; [done|].
  cbn [addToGroup]. destruct (String.eqb u (userId t)); cbn [map concat snd].
  - by rewrite <- !(assoc_L (++)), (comm (++) [t]), !(assoc_L (++)).
  - by rewrite IH, (assoc_L (++)).
Qed.

Lemma groupByUser_members due :
  concat (map snd (groupByUser due)) ≡ₚ due.
Proof.
  unfold groupByUser.
  enough (forall groups,
            concat (map snd (foldl (fun groups t => addToGroup t groups) groups due))
            ≡ₚ concat (map snd groups) ++ due) as H by apply (H []).
  induction due as [|t due IH]; intros groups; cbn [foldl].
  - by rewrite app_nil_r.
  - by rewrite IH, addToGroup_members, <- (assoc_L (++)).
Qed.

(** Every member of a group carries the group's user id. *)
Definition owned (g : string * list QueuedTransaction) : Prop :=
  Forall (fun p => userId p = g.1) g.2.

Lemma addToGroup_owned t groups :
  Forall owned groups -> Forall owned (addToGroup t groups).
Proof.
  induction 1 as [|[u ts] groups Hg Hgs IH]; cbn [addToGroup].
  - repeat constructor.
  - destruct (String.eqb u (userId t)) eqn:Hu.
    + constructor; [|done]. apply String.eqb_eq in Hu.
      apply Forall_app. split; [done|]. by constructor.
    + by constructor.
Qed.

Lemma groupByUser_owned due : Forall owned (groupByUser due).
Proof.
  unfold groupByUser.
  enough (forall groups, Forall owned groups ->
            Forall owned (foldl (fun groups t => addToGroup t groups) groups due))
    as H by (apply H; constructor).
  induction due as [|t due IH]; intros groups Hg; [done|].
  cbn [foldl]. by apply IH, addToGroup_owned.
Qed.

(** The create calls a queue entry stands for. *)
Definition uploadOf (p : QueuedTransaction) : string * Draft :=
  (userId p, toDraft p).

Lemma owned_uploads g :
  owned g -> map (fun d => (g.1, d)) (map toDraft g.2) = map uploadOf g.2.
Proof.
  destruct g as [u ts]. unfold owned. cbn. intros H.
  rewrite <- list_fmap_compose. apply Forall_fmap_ext_1.
  eapply Forall_impl; [exact H|]. intros p Hp. unfold uploadOf. cbn. by rewrite Hp.
Qed.

Definition groupUploads (groups : list (string * list QueuedTransaction))
    : list (string * Draft) :=
  concat (map (fun g => map (fun d => (g.1, d)) (map toDraft g.2)) groups).

Lemma groupUploads_owned groups :
  Forall owned groups ->
  groupUploads groups = map uploadOf (concat (map snd groups)).
Proof.
  unfold groupUploads. induction 1 as [|g groups Hg _ IH]; [done|].
  cbn [map concat]. by rewrite IH, owned_uploads, fmap_app.
Qed.

Lemma groupByUser_uploads due :
  groupUploads (groupByUser due) ≡ₚ map uploadOf due.
Proof.
  rewrite groupUploads_owned by apply groupByUser_owned.
  by rewrite groupByUser_members.
Qed.

(** *** What a run does to one queue entry *)

(** The identity of an entry: everything but the bookkeeping fields. *)
Definition entry (t : QueuedTransaction) : string * Draft * string * string :=
  (id t, fields t, userId t, createdAt t).

(** [t'] is [t] after some steps of a run: the same entry, and if it is
    still marked syncing, it was not written at all. *)
Definition touched (t t' : QueuedTransaction) : Prop :=
  entry t' = entry t /\ (syncStatus t' = syncing -> t' = t).

Lemma touched_refl t : touched t t.
Proof. by split. Qed.

Lemma touched_trans a b c : touched a b -> touched b c -> touched a c.
Proof.
  intros [E1 S1] [E2 S2]. split; [congruence|].
  intros Hc. specialize (S2 Hc). subst c. by apply S1.
Qed.

Lemma touched_update s n e t : s <> syncing -> touched t (update s n e t).
Proof. by split. Qed.

Lemma touched_map (f : QueuedTransaction -> QueuedTransaction) q :
  (forall t, touched t (f t)) -> Forall2 touched q (map f q).
Proof.
  intros Hf. apply Forall2_fmap_r, Forall_Forall2_diag, Forall_forall.
  intros t _. apply Hf.
Qed.

Lemma touched_queue_trans a b c :
  Forall2 touched a b -> Forall2 touched b c -> Forall2 touched a c.
Proof.
  intros Hab. revert c. induction Hab as [|x y a b Hxy _ IH]; intros c Hbc.
  - by inversion Hbc.
  - inversion Hbc as [|? z ? c' Hyz Hbc']; subst. constructor.
    + by eapply touched_trans.
    + by apply IH.
Qed.

Lemma touched_entries a b :
  Forall2 touched a b -> map entry b = map entry a.
Proof. induction 1 as [|x y a b [Hxy _] _ IH]; [done|]. cbn. by rewrite Hxy, IH. Qed.

Lemma markBatchCompleted_touched uts l st :
  Forall2 touched (queue st) (queue (markBatchCompleted uts l st)).
Proof.
  cbn. apply touched_map. intros t.
  destruct (findIndex (id t) uts); [|apply touched_refl].
  destruct (bool_decide _); [by apply touched_update|apply touched_refl].
Qed.

Lemma markResult_touched uts res q :
  Forall2 touched q (markResult uts res q).
Proof.
  apply touched_map. intros t.
  destruct (findIndex (id t) uts); [|apply touched_refl].
  destruct (bool_decide _); [by apply touched_update|].
  destruct (errors res); [apply touched_refl|by apply touched_update].
Qed.

Lemma markBatchError_touched msg uts q :
  Forall2 touched q (markBatchError msg uts q).
Proof.
  apply touched_map. intros t.
  destruct (hasId (id t) uts); [|apply touched_refl].
  destruct (_ || _); by apply touched_update.
Qed.

Lemma resetSyncing_touched q : Forall2 touched q (resetSyncing q).
Proof.
  apply touched_map. intros t.
  destruct (decide _); [by apply touched_update|apply touched_refl].
Qed.

Lemma findIndex_hasId i ts :
  findIndex i ts = None <-> hasId i ts = false.
Proof.
  induction ts as [|t ts IH]; [done|]. cbn.
  destruct (String.eqb (id t) i); cbn; [done|].
  rewrite <- IH. destruct (findIndex i ts); cbn; [split; done|done].
Qed.

Lemma findIndex_lt i ts n : findIndex i ts = Some n -> n < length ts.
Proof.
  revert n. induction ts as [|t ts IH]; intros n; [done|]. cbn.
  destruct (String.eqb (id t) i); [intros [= <-]; lia|].
  destruct (findIndex i ts) as [m|]; [|done]. intros [= <-].
  specialize (IH m eq_refl). lia.
Qed.

Lemma hasId_elem p ts : p ∈ ts -> hasId (id p) ts = true.
Proof.
  intros Hp. unfold hasId. apply existsb_exists. exists p.
  split; [by apply list_elem_of_In|apply String.eqb_refl].
Qed.

Lemma hasId_inv i ts : hasId i ts = true -> exists p, p ∈ ts /\ id p = i.
Proof.
  intros (p & Hp & Heq)%existsb_exists. exists p.
  split; [by apply list_elem_of_In|by apply String.eqb_eq].
Qed.

(** *** One user's upload *)

Section User.

Variable env : Env.
Variable dueCount : nat.
Variable user : string.
Variable userTransactions : list QueuedTransaction.
Variable t : Totals.
Variable st : Store.

Lemma upload_state b :
  let st1 := afterBatches (create env user)
               (reportProgress (totalSucceeded t) dueCount)
               (markBatchCompleted userTransactions)
               (map toDraft userTransactions) 0 b st in
  Forall2 touched (queue st) (queue st1) /\ uploads st1 = uploads st.
Proof.
  cbn zeta.
  apply (afterBatches_invariant _ _ _ _
           (fun s => Forall2 touched (queue st) (queue s) /\ uploads s = uploads st)).
  - intros cur tot s H. exact H.
  - intros l s [H1 H2]. split; [|exact H2].
    eapply touched_queue_trans; [exact H1|apply markBatchCompleted_touched].
  - split; [|done]. apply Forall_Forall2_diag, Forall_forall.
    intros ? _. apply touched_refl.
Qed.

(** The three ways a user's turn can end. *)
Lemma tryUser_spec :
  match tryUser env dueCount user userTransactions t st with
  | Paused o =>
      exists st0 sent,
        o = pause dueCount t st0 /\
        Forall2 touched (queue st) (queue st0) /\
        uploads st0 = uploads st ++ map (fun d => (user, d)) sent /\
        sent `sublist_of` map toDraft userTransactions
  | Threw _ => True
  | Uploaded t1 st1 =>
      Forall2 touched (queue st) (queue st1) /\
      uploads st1
        = uploads st ++ map (fun d => (user, d)) (map toDraft userTransactions) /\
      totalSucceeded t1 + totalFailed t1
        = totalSucceeded t + totalFailed t + length userTransactions /\
      Forall (fun q => syncStatus q = syncing ->
                       hasId (id q) userTransactions = false) (queue st1)
  end.
Proof.
  unfold tryUser.
  destruct (deleteActive _).
  { exists st, []. split; [done|]. split.
    - apply Forall_Forall2_diag, Forall_forall. intros ? _. apply touched_refl.
    - split; [by rewrite app_nil_r|apply sublist_nil_l]. }
  destruct (fault env user); [done|].
  destruct (createBulkTransactions _ _ _ _ _ _ _) as [msg|[run st1]] eqn:Hrun;
    [done|].
  pose proof (createBulkTransactions_spec _ _ _ _ _ _ _ _ _ Hrun)
    as (b & Hb & Hend & Hlive & Hrb & Hcalls & Hs & He & Hc & Hf & Hsum & ->).
  destruct (upload_state b) as [Hq Hu]. cbn zeta in Hq, Hu.
  destruct (cancelSync env (batchesDone t + batchesRun run)) eqn:Hcancel.
  - eexists _, (calls run). split; [reflexivity|]. cbn.
    split; [done|]. split; [by rewrite Hu|].
    rewrite Hcalls. apply sublist_take.
  - destruct (complete_run_calls _ _ _ _ _ _ _ _ _ Hrun Hcancel) as [Hall Hlen].
    rewrite length_map in Hlen. cbn.
    split; [|split; [|split]].
    + eapply touched_queue_trans; [exact Hq|apply markResult_touched].
    + by rewrite Hu, Hall.
    + lia.
    + apply Forall_forall. intros q (q0 & -> & _)%list_elem_of_fmap.
      destruct (findIndex (id q0) userTransactions) as [n|] eqn:Hfind.
      * apply findIndex_lt in Hfind.
        destruct (complete_run_covers _ _ _ _ _ _ _ _ _ n Hrun Hcancel)
          as [Hin|Herr]; [by rewrite length_map|..].
        -- by rewrite bool_decide_true.
        -- destruct (bool_decide _); [done|].
           destruct (errors (result run)); done.
      * intros _. by apply findIndex_hasId.
Qed.

End User.

(** *** The loop over the users *)

Definition storeOf (o : Outcome) : Store :=
  match o with Returned _ _ st => st | LoopDone _ st => st end.

Definition countsOf (o : Outcome) : nat * nat :=
  match o with
  | Returned nSucceeded nFailed _ => (nSucceeded, nFailed)
  | LoopDone t _ => (totalSucceeded t, totalFailed t)
  end.

Definition groupSize (groups : list (string * list QueuedTransaction)) : nat :=
  length (concat (map snd groups)).

Lemma touched_queue_refl q : Forall2 touched q q.
Proof. apply Forall_Forall2_diag, Forall_forall. intros ? _. apply touched_refl. Qed.

Lemma processUsers_touched env dueCount groups : forall t st,
  Forall2 touched (queue st)
    (queue (storeOf (processUsers env dueCount groups t st))).
Proof.
  induction groups as [|[user uts] rest IH]; intros t st.
  { apply touched_queue_refl. }
  cbn [processUsers]. pose proof (tryUser_spec env dueCount user uts t st) as H.
  destruct (tryUser env dueCount user uts t st) as [o|msg|t1 st1].
  - destruct H as (st0 & sent & -> & Hq & _). cbn.
    eapply touched_queue_trans; [exact Hq|apply resetSyncing_touched].
  - eapply touched_queue_trans; [|apply IH]. apply markBatchError_touched.
  - destruct H as (Hq & _). eapply touched_queue_trans; [exact Hq|apply IH].
Qed.

Lemma processUsers_uploads env dueCount groups : forall t st,
  exists sent,
    uploads (storeOf (processUsers env dueCount groups t st))
      = uploads st ++ sent /\
    sent ⊆+ groupUploads groups.
Proof.
  induction groups as [|[user uts] rest IH]; intros t st.
  { exists []. by rewrite app_nil_r. }
  cbn [processUsers]. pose proof (tryUser_spec env dueCount user uts t st) as H.
  unfold groupUploads. cbn [map concat fst snd]. fold (groupUploads rest).
  destruct (tryUser env dueCount user uts t st) as [o|msg|t1 st1].
  - destruct H as (st0 & sent & -> & _ & Hu & Hsub). cbn.
    exists (map (fun d => (user, d)) sent). split; [done|].
    apply submseteq_inserts_r. by apply sublist_submseteq, fmap_sublist.
  - destruct (IH
      {| totalSucceeded := totalSucceeded t;
         totalFailed := totalFailed t + length uts;
         batchesDone := batchesDone t; statusCalls := S (statusCalls t) |}
      (setQueue (markBatchError msg uts (queue st)) st)) as (sent & -> & Hsub).
    exists sent. split; [done|]. by apply submseteq_inserts_l.
  - destruct H as (_ & Hu & _).
    destruct (IH
      {| totalSucceeded := totalSucceeded t1; totalFailed := totalFailed t1;
         batchesDone := batchesDone t1; statusCalls := S (statusCalls t) |}
      st1) as (sent & -> & Hsub).
    eexists (_ ++ sent). split; [by rewrite Hu, (assoc_L (++))|].
    by apply submseteq_skips_l.
Qed.

Lemma processUsers_counts env dueCount groups : forall t st,
  let o := processUsers env dueCount groups t st in
  (countsOf o).1 + (countsOf o).2
    <= totalSucceeded t + totalFailed t + groupSize groups /\
  (forall t' st', o = LoopDone t' st' ->
     totalSucceeded t' + totalFailed t'
       = totalSucceeded t + totalFailed t + groupSize groups).
Proof.
  induction groups as [|[user uts] rest IH]; intros t st; cbn zeta.
  { cbn. split; [lia|]. intros t' st' [= <- <-]. unfold groupSize. cbn. lia. }
  cbn [processUsers]. pose proof (tryUser_spec env dueCount user uts t st) as H.
  assert (Hsize : groupSize ((user, uts) :: rest) = length uts + groupSize rest).
  { unfold groupSize. cbn. by rewrite length_app. }
  rewrite Hsize.
  destruct (tryUser env dueCount user uts t st) as [o|msg|t1 st1].
  - destruct H as (st0 & sent & -> & _). cbn. split; [lia|done].
  - match goal with |- context [processUsers _ _ _ ?t2 ?st2] =>
      destruct (IH t2 st2) as [I1 I2] end.
    cbn [totalSucceeded totalFailed] in I1, I2. split; [lia|].
    intros t' st' Ho. rewrite (I2 _ _ Ho). lia.
  - destruct H as (_ & _ & Hsum & _).
    match goal with |- context [processUsers _ _ _ ?t2 ?st2] =>
      destruct (IH t2 st2) as [I1 I2] end.
    cbn [totalSucceeded totalFailed] in I1, I2. split; [lia|].
    intros t' st' Ho. rewrite (I2 _ _ Ho). lia.
Qed.

(** Without a delete operation in sight the loop visits every user. *)
Lemma processUsers_runs_through env dueCount groups : forall t st,
  (forall n, deleteActive (deleteStatus env n) = false) ->
  (forall n, cancelSync env n = false) ->
  exists t' st', processUsers env dueCount groups t st = LoopDone t' st'.
Proof.
  intros t st Hd Hc. revert t st.
  induction groups as [|[user uts] rest IH]; intros t st; [by eexists _, _|].
  cbn [processUsers].
  assert (Hnp : forall o, tryUser env dueCount user uts t st <> Paused o).
  { intros o. unfold tryUser. rewrite Hd. destruct (fault env user); [done|].
    destruct (createBulkTransactions _ _ _ _ _ _ _) as [|[run st1]]; [done|].
    by rewrite Hc. }
  destruct (tryUser env dueCount user uts t st) as [o|msg|t1 st1];
    [by destruct (Hnp o)|apply IH..].
Qed.

(** Every entry still marked syncing belongs to a user whose turn is yet to
    come. *)
Definition awaited (groups : list (string * list QueuedTransaction))
    (q : list QueuedTransaction) : Prop :=
  Forall (fun x => syncStatus x = syncing ->
                   exists g, g ∈ groups /\ hasId (id x) g.2 = true) q.

Lemma awaited_next user uts rest q q' :
  Forall2 touched q q' ->
  Forall (fun x => syncStatus x = syncing -> hasId (id x) uts = false) q' ->
  awaited ((user, uts) :: rest) q -> awaited rest q'.
Proof.
  intros Hq Hdone Hw. unfold awaited in *. rewrite Forall_forall in *.
  intros x' Hx' Hs. specialize (Hdone x' Hx' Hs).
  apply list_elem_of_lookup in Hx' as [i Hi].
  destruct (Forall2_lookup_r _ _ _ _ _ Hq Hi) as (x & Hx & [_ Hsame]).
  specialize (Hsame Hs). subst x'.
  destruct (Hw x (list_elem_of_lookup_2 _ _ _ Hx) Hs) as (g & Hg & Hid).
  apply elem_of_cons in Hg as [->|Hg]; [|eauto].
  exfalso. change (hasId (id x) uts = true) in Hid. congruence.
Qed.

Lemma markBatchError_not_syncing msg uts q :
  Forall (fun x => syncStatus x = syncing -> hasId (id x) uts = false)
         (markBatchError msg uts q).
Proof.
  apply Forall_forall. intros x (x0 & -> & _)%list_elem_of_fmap.
  destruct (hasId (id x0) uts) eqn:Hid; [|done].
  by destruct (_ || _).
Qed.

Lemma processUsers_none_syncing env dueCount groups : forall t st,
  awaited groups (queue st) ->
  Forall (fun x => syncStatus x <> syncing)
         (queue (storeOf (processUsers env dueCount groups t st))).
Proof.
  induction groups as [|[user uts] rest IH]; intros t st Hw.
  { cbn. eapply Forall_impl; [exact Hw|]. intros x Hx Hs.
    destruct (Hx Hs) as (g & Hg & _). by apply elem_of_nil in Hg. }
  cbn [processUsers]. pose proof (tryUser_spec env dueCount user uts t st) as H.
  destruct (tryUser env dueCount user uts t st) as [o|msg|t1 st1].
  - destruct H as (st0 & sent & -> & _). cbn. apply resetSyncing_none_syncing.
  - apply IH. cbn. eapply awaited_next; [|apply markBatchError_not_syncing|exact Hw].
    apply markBatchError_touched.
  - destruct H as (Hq & _ & _ & Hdone). apply IH.
    by eapply awaited_next.
Qed.

(** *** The whole run *)

Lemma markSyncing_entries due q :
  map entry (markSyncing due q) = map entry q.
Proof.
  unfold markSyncing. rewrite <- list_fmap_compose. apply list_fmap_ext.
  intros i x _. cbn. by destruct (hasId (id x) due).
Qed.

Lemma markSyncing_awaited q :
  let due := filter (fun x => isDue x = true) q in
  awaited (groupByUser due) (markSyncing due q).
Proof.
  cbn zeta. set (due := filter _ q). apply Forall_forall.
  intros x' (x & -> & Hx)%list_elem_of_fmap.
  destruct (hasId (id x) due) eqn:Hid.
  - intros _. apply hasId_inv in Hid as (p & Hp & Hpid).
    rewrite <- (groupByUser_members due) in Hp.
    apply list_elem_of_In, in_concat in Hp as (ts & Hts & Hpts).
    apply list_elem_of_In in Hts, Hpts.
    apply list_elem_of_fmap in Hts as (g & -> & Hg).
    exists g. split; [done|]. cbn. rewrite <- Hpid. by apply hasId_elem.
  - intros Hs. assert (Hdue : x ∈ due).
    { apply list_elem_of_filter. split; [|done]. unfold isDue. by rewrite Hs. }
    apply hasId_elem in Hdue. congruence.
Qed.

(** X4: a run changes only the bookkeeping fields of the queue: afterwards
    the queue holds the same entries (id, transaction fields, user,
    creation time) in the same order; nothing is added, dropped or moved. *)
Theorem sync_run_keeps_queue_entries (env : Env) (st : Store) :
  map entry (queue (startSyncingTransactions env st).2) = map entry (queue st).
Proof.
  unfold startSyncingTransactions.
  destruct (deleteBlocksStart _); [done|].
  destruct (filter _ (queue st)) as [|p due] eqn:Hdue; [done|].
  match goal with |- context [processUsers ?e ?d ?g ?t ?s] =>
    pose proof (processUsers_touched e d g t s) as H;
    destruct (processUsers e d g t s) as [nS nF st3|t3 st3] end;
    apply touched_entries in H;
    cbn [storeOf queue setQueue publish snd] in H |- *; rewrite H;
    apply markSyncing_entries.
Qed.

(** X5: unless it is refused at the start, a run leaves no queue entry
    marked syncing, whatever the create calls answer and however the run
    ends (completed, paused by a delete operation, or cut by errors). *)
Theorem sync_run_leaves_nothing_syncing (env : Env) (st : Store) :
  deleteBlocksStart (deleteStatus env 0) = false ->
  Forall (fun t => syncStatus t <> syncing)
         (queue (startSyncingTransactions env st).2).
Proof.
  intros Hstart. unfold startSyncingTransactions. rewrite Hstart.
  pose proof (markSyncing_awaited (queue st)) as Hw. cbn zeta in Hw.
  destruct (filter _ (queue st)) as [|p due] eqn:Hdue.
  { cbn. apply Forall_forall. intros x Hx Hs.
    assert (x ∈ filter (fun x => isDue x = true) (queue st)) as Hin.
    { apply list_elem_of_filter. split; [|done]. unfold isDue. by rewrite Hs. }
    rewrite Hdue in Hin. by apply elem_of_nil in Hin. }
  match goal with |- context [processUsers ?e ?d ?g ?t ?s] =>
    pose proof (processUsers_none_syncing e d g t s Hw) as H;
    destruct (processUsers e d g t s) as [nS nF st3|t3 st3] end; exact H.
Qed.

(** X6: the two counts a run returns never add up to more than the number
    of due entries; and when no getDeleteStatus call of the run finds an
    operation that is not completed and the polling timer never raises the
    cancel flag, they add up to exactly that number, whatever the create
    calls answer. *)
Theorem sync_run_accounts_for_due (env : Env) (st : Store) :
  let due := filter (fun t => isDue t = true) (queue st) in
  let r := (startSyncingTransactions env st).1 in
  r.1 + r.2 <= length due /\
  ((forall n, deleteBlocksStart (deleteStatus env n) = false) ->
   (forall n, cancelSync env n = false) ->
   r.1 + r.2 = length due).
Proof.
  cbn zeta. unfold startSyncingTransactions.
  destruct (deleteBlocksStart (deleteStatus env 0)) eqn:Hstart.
  { cbn. split; [lia|]. intros H. by rewrite H in Hstart. }
  pose proof (groupByUser_members (filter (fun t => isDue t = true) (queue st)))
    as Hperm.
  apply Permutation_length in Hperm.
  destruct (filter _ (queue st)) as [|p due] eqn:Hdue; [done|].
  match goal with |- context [processUsers ?e ?d ?g ?t ?s] =>
    pose proof (processUsers_counts e d g t s) as [Hle Heq];
    pose proof (processUsers_runs_through e d g t s) as Hrun;
    destruct (processUsers e d g t s) as [nS nF st3|t3 st3] end;
    unfold groupSize in *; cbn in *.
  - split; [lia|]. intros Hd Hc.
    destruct Hrun as (t' & st' & [=]); [|done].
    intros n. specialize (Hd n). unfold deleteBlocksStart, deleteActive in *.
    destruct (deleteStatus env n) as [op|]; [|done].
    destruct (DeleteQueue.status op); done.
  - split; [lia|]. intros _ _. specialize (Heq _ _ eq_refl). lia.
Qed.

(** X7: the create calls of a run are calls for due entries only, each
    under the entry's own user id and with the entry's own queue id as
    document id, and no due entry is sent twice in one run: the calls form a
    sub-multiset of the due entries' uploads. Entries that are completed, or
    failed with the retry cap reached, are never sent. *)
Theorem sync_run_uploads_only_due (env : Env) (st : Store) :
  exists sent,
    uploads (startSyncingTransactions env st).2 = uploads st ++ sent /\
    sent ⊆+ map uploadOf (filter (fun t => isDue t = true) (queue st)).
Proof.
  unfold startSyncingTransactions.
  destruct (deleteBlocksStart _).
  { exists []. split; [by rewrite app_nil_r|apply submseteq_nil_l]. }
  pose proof (groupByUser_uploads (filter (fun t => isDue t = true) (queue st)))
    as Hperm.
  destruct (filter _ (queue st)) as [|p due] eqn:Hdue.
  { exists []. split; [by rewrite app_nil_r|apply submseteq_nil_l]. }
  match goal with |- context [processUsers ?e ?d ?g ?t ?s] =>
    destruct (processUsers_uploads e d g t s) as (sent & Hu & Hsub);
    destruct (processUsers e d g t s) as [nS nF st3|t3 st3] end;
    exists sent; (split; [exact Hu|by rewrite <- Hperm]).
Qed.

(** *** What a run reads from the queue *)

Lemma createBulkTransactions_independent {St : Type} create shouldCancel
    (onProgress : nat -> nat -> St -> St) onBatchSuccess transactions
    configured (s s0 : St) :
  match createBulkTransactions create shouldCancel onProgress onBatchSuccess
          transactions configured s,
        createBulkTransactions create shouldCancel onProgress onBatchSuccess
          transactions configured s0 with
  | inl m, inl m0 => m = m0
  | inr (r, _), inr (r0, _) => r = r0
  | _, _ => False
  end.
Proof.
  unfold createBulkTransactions. destruct configured; [|done].
  pose proof (batchLoop_result_independent create shouldCancel onProgress
                onBatchSuccess transactions
                (seq 0 (batchCount transactions)) emptyAcc s s0) as H.
  destruct (batchLoop _ _ _ _ _ _ _ s) as [acc s1].
  destruct (batchLoop _ _ _ _ _ _ _ s0) as [acc0 s2].
  cbn in H. by subst.
Qed.

Lemma tryUser_independent env dueCount user uts t st st' :
  uploads st = uploads st' ->
  match tryUser env dueCount user uts t st,
        tryUser env dueCount user uts t st' with
  | Paused o, Paused o' =>
      countsOf o = countsOf o' /\ uploads (storeOf o) = uploads (storeOf o')
  | Threw m, Threw m' => m = m'
  | Uploaded t1 s1, Uploaded t1' s1' => t1 = t1' /\ uploads s1 = uploads s1'
  | _, _ => False
  end.
Proof.
  intros Hu. unfold tryUser.
  destruct (deleteActive _); [by cbn|].
  destruct (fault env user); [done|].
  match goal with
  | |- context [createBulkTransactions ?c ?sc ?op ?ob ?txs ?cfg st] =>
      pose proof (createBulkTransactions_independent c sc op ob txs cfg st st')
        as Hind;
      pose proof (createBulkTransactions_spec c sc op ob txs cfg st) as Hspec;
      pose proof (createBulkTransactions_spec c sc op ob txs cfg st') as Hspec';
      destruct (createBulkTransactions c sc op ob txs cfg st)
        as [m|[run st1]];
      destruct (createBulkTransactions c sc op ob txs cfg st')
        as [m'|[run' st1']]; try done
  end.
  subst run'.
  destruct (Hspec _ _ eq_refl) as (b & _ & _ & _ & Hb & _ & _ & _ & _ & _ & _ & ->).
  destruct (Hspec' _ _ eq_refl)
    as (b' & _ & _ & _ & Hb' & _ & _ & _ & _ & _ & _ & ->).
  destruct (upload_state env dueCount user uts t st b) as [_ H1].
  destruct (upload_state env dueCount user uts t st' b') as [_ H2].
  cbn zeta in H1, H2.
  destruct (cancelSync env _); cbn; rewrite H1, H2, Hu; done.
Qed.

Lemma processUsers_independent env dueCount groups : forall t st st',
  uploads st = uploads st' ->
  countsOf (processUsers env dueCount groups t st)
    = countsOf (processUsers env dueCount groups t st') /\
  uploads (storeOf (processUsers env dueCount groups t st))
    = uploads (storeOf (processUsers env dueCount groups t st')).
Proof.
  induction groups as [|[user uts] rest IH]; intros t st st' Hu; [done|].
  cbn [processUsers].
  pose proof (tryUser_independent env dueCount user uts t st st' Hu) as H.
  destruct (tryUser env dueCount user uts t st) as [o|m|t1 s1];
    destruct (tryUser env dueCount user uts t st') as [o'|m'|t1' s1'];
    try done.
  - subst m'. by apply IH.
  - destruct H as [-> H]. by apply IH.
Qed.

(** What a run returns and uploads is decided by the due entries alone. *)
Lemma sync_reads_due_entries_only env st st' :
  filter (fun t => isDue t = true) (queue st)
    = filter (fun t => isDue t = true) (queue st') ->
  uploads st = uploads st' ->
  (startSyncingTransactions env st).1 = (startSyncingTransactions env st').1 /\
  uploads (startSyncingTransactions env st).2
    = uploads (startSyncingTransactions env st').2.
Proof.
  intros Hdue Hu. unfold startSyncingTransactions. rewrite <- Hdue.
  destruct (deleteBlocksStart _); [done|].
  destruct (filter _ (queue st)) as [|p due]; [done|].
  match goal with
  | |- context [processUsers ?e ?d ?g ?t ?s1] =>
      match goal with
      | |- context [processUsers e d g t ?s2] =>
          lazymatch s1 with
          | s2 => fail
          | _ => pose proof (processUsers_independent e d g t s1 s2 Hu) as [Hc Hup]
          end
      end
  end.
  match type of Hc with
  | countsOf ?o1 = countsOf ?o2 =>
      destruct o1 as [a b s3|t3 s3]; destruct o2 as [a' b' s3'|t3' s3'];
      cbn in Hc, Hup |- *; injection Hc as -> ->; by rewrite Hup
  end.
Qed.

(** *** The other operations on the stored queue *)

(** clearCompletedTransactions *)
Definition clearCompletedTransactions (st : Store) : Store :=
  setQueue (filter (fun t => syncStatus t <> completed) (queue st)) st.

(** removeQueuedTransaction *)
Definition removeQueuedTransaction (transactionId : string) (st : Store) : Store :=
  setQueue (filter (fun t => id t <> transactionId) (queue st)) st.

(** getPendingTransactionCount; [who] is the optional argument. *)
Definition getPendingTransactionCount (who : option string) (st : Store) : nat :=
  let filtered :=
    match who with
    | Some u => if Js.truthy u then filter (fun t => userId t = u) (queue st)
                else queue st
    | None => queue st
    end in
  length (filter (fun t => syncStatus t = pending \/ syncStatus t = failed)
                 filtered).

(** queueTransactionsForSync: [unique i] and [clock i] are what ID.unique()
    and new Date().toISOString() return for the element at [i]; a property
    of the spread element overrides the literal's [id]. *)
Definition queueTransactionsForSync (unique clock : nat -> string)
    (user : string) (transactions : list Draft) (st : Store)
    : list QueuedTransaction * Store :=
  let newTransactions :=
    imap (fun i t => {| id := default (unique i) (Bulk.id t); fields := t;
                        userId := user; syncStatus := pending; attempts := 0;
                        error := None; createdAt := clock i |}) transactions in
  (newTransactions, setQueue (queue st ++ newTransactions) st).


Lemma clearCompleted_due (q : list QueuedTransaction) :
  filter (fun t => isDue t = true) (filter (fun t => syncStatus t <> completed) q)
  = filter (fun t => isDue t = true) q.
Proof.
  apply list_filter_filter_l. intros t Hdue Hc. unfold isDue in Hdue.
  by rewrite Hc in Hdue.
Qed.

Lemma clearCompleted_count (P : QueuedTransaction -> Prop)
    `{forall t, Decision (P t)} (q : list QueuedTransaction) :
  filter (fun t => syncStatus t = pending \/ syncStatus t = failed)
         (filter P (filter (fun t => syncStatus t <> completed) q))
  = filter (fun t => syncStatus t = pending \/ syncStatus t = failed)
           (filter P q).
Proof.
  induction q as [|t q IH]; [done|].
  rewrite !(filter_cons _ t). destruct (decide (syncStatus t <> completed)) as [Hc|Hc].
  - rewrite !(filter_cons _ t). destruct (decide (P t)); [|done].
    rewrite !(filter_cons _ t). by rewrite IH.
  - rewrite IH. destruct (decide (P t)); [|done].
    rewrite filter_cons. rewrite decide_False; [done|].
    intros [Hp|Hf]; apply Hc; congruence.
Qed.

(** X8: clearCompletedTransactions, the deferred purge that follows a run,
    drops no work: the pending count of every user is unchanged, and the next
    run returns the same counts and makes the same create calls as it would
    have made on the unpurged queue. *)
Theorem clearing_completed_keeps_pending_work (env : Env) (st : Store)
    (who : option string) :
  getPendingTransactionCount who (clearCompletedTransactions st)
    = getPendingTransactionCount who st /\
  (startSyncingTransactions env (clearCompletedTransactions st)).1
    = (startSyncingTransactions env st).1 /\
  uploads (startSyncingTransactions env (clearCompletedTransactions st)).2
    = uploads (startSyncingTransactions env st).2.
Proof.
  split.
  - unfold getPendingTransactionCount, clearCompletedTransactions.
    cbn [queue setQueue].
    assert (Hall :
      filter (fun t => syncStatus t = pending \/ syncStatus t = failed)
             (filter (fun t => syncStatus t <> completed) (queue st))
      = filter (fun t => syncStatus t = pending \/ syncStatus t = failed)
               (queue st)).
    { apply list_filter_filter_l. intros t [Hp|Hf] Hc; congruence. }
    destruct who as [u|]; [|by rewrite Hall].
    destruct (Js.truthy u); [|by rewrite Hall].
    by rewrite clearCompleted_count.
  - apply sync_reads_due_entries_only; [|done].
    apply clearCompleted_due.
Qed.

(** X9: queueTransactionsForSync appends one pending entry per
    transaction, in order, behind the entries already queued: the pending
    count of the user (and the overall count) grows by the number of
    transactions, the count of any other user is unchanged, and the next run
    has that many more due entries. *)
Theorem queueing_adds_pending_entries (unique clock : nat -> string)
    (user : string) (transactions : list Draft) (st : Store) :
  let r := queueTransactionsForSync unique clock user transactions st in
  queue r.2 = queue st ++ r.1 /\
  map fields r.1 = transactions /\
  getPendingTransactionCount None r.2
    = getPendingTransactionCount None st + length transactions /\
  (Js.truthy user = true ->
   getPendingTransactionCount (Some user) r.2
     = getPendingTransactionCount (Some user) st + length transactions) /\
  (forall other, other <> user -> Js.truthy other = true ->
   getPendingTransactionCount (Some other) r.2
     = getPendingTransactionCount (Some other) st) /\
  length (filter (fun t => isDue t = true) (queue r.2))
    = length (filter (fun t => isDue t = true) (queue st)) + length transactions.
Proof.
  cbn zeta. unfold queueTransactionsForSync. cbn [fst snd queue setQueue].
  set (new := imap _ transactions).
  assert (Hnew : Forall (fun t => userId t = user /\ syncStatus t = pending) new).
  { apply Forall_forall. by intros t (i & x & -> & _)%elem_of_lookup_imap. }
  assert (Hlen : length new = length transactions) by apply length_imap.
  assert (Hall : forall (P : QueuedTransaction -> Prop) `{forall t, Decision (P t)},
             (forall t, userId t = user -> syncStatus t = pending -> P t) ->
             filter P new = new).
  { intros P ? HP. clear Hlen. induction Hnew as [|t new [Hu Hs] _ IH]; [done|].
    rewrite filter_cons, decide_True by auto. by rewrite IH. }
  assert (Hnone : forall (P : QueuedTransaction -> Prop) `{forall t, Decision (P t)},
             (forall t, userId t = user -> ~ P t) -> filter P new = []).
  { intros P ? HP. clear Hlen Hall. induction Hnew as [|t new [Hu Hs] _ IH]; [done|].
    rewrite filter_cons, decide_False by auto. exact IH. }
  split; [done|]. split.
  { unfold new. clear. revert unique clock.
    induction transactions as [|t ts IH]; intros unique clock; [done|].
    rewrite imap_cons. cbn. f_equal. apply IH. }
  unfold getPendingTransactionCount. cbn [queue setQueue].
  split; [|split; [|split]].
  - rewrite filter_app, length_app, Hall, Hlen; auto.
  - intros ->. rewrite !filter_app, length_app, (Hall (fun t => userId t = user)),
      Hall, Hlen; auto.
  - intros other Hne ->. rewrite filter_app, (Hnone (fun t => userId t = other)).
    + by rewrite app_nil_r.
    + intros t Hu. congruence.
  - rewrite filter_app, length_app, Hall, Hlen; [done|].
    intros t _ Hs. unfold isDue. by rewrite Hs.
Qed.




(** *** A run in which every create call is accepted *)

Section AllAccepted.

Variable env : Env.

Hypothesis no_delete : forall n, deleteBlocksStart (deleteStatus env n) = false.
Hypothesis no_cancel : forall n, cancelSync env n = false.
Hypothesis is_configured : configured env = true.
Hypothesis no_fault : forall user, fault env user = None.
Hypothesis all_accepted :
  forall user index tx, accepted (create env user) index tx = true.

(** The entry once its upload has been recorded [n] times. *)
Definition uploaded (n : nat) (t : QueuedTransaction) : QueuedTransaction :=
  update completed (attempts t + n) (error t) t.

Lemma no_delete_active n : deleteActive (deleteStatus env n) = false.
Proof.
  specialize (no_delete n). unfold deleteBlocksStart, deleteActive in *.
  destruct (deleteStatus env n) as [op|]; [|done].
  by destruct (DeleteQueue.status op).
Qed.

Lemma accepted_positions user (drafts : list Draft) a n index :
  index ∈ filter (fun i => acceptedAt (create env user) drafts i = true) (seq a n)
  <-> a <= index < a + n /\ index < length drafts.
Proof.
  rewrite list_elem_of_filter, elem_of_seq. unfold acceptedAt.
  destruct (drafts !! index) as [tx|] eqn:Htx.
  - apply lookup_lt_Some in Htx. rewrite all_accepted. intuition.
  - apply lookup_ge_None in Htx. split; [by intros [? ?]|]. lia.
Qed.

Lemma no_errors user (drafts : list Draft) l :
  omap (errorAt (create env user) drafts) l = [].
Proof.
  induction l as [|i l IH]; [done|]. cbn. rewrite IH.
  unfold errorAt. destruct (drafts !! i) as [tx|]; [|done].
  pose proof (all_accepted user i tx) as Ha. unfold accepted in Ha.
  destruct (create env user i tx) as [|m]; [done|]. by rewrite Ha.
Qed.

Section OneUser.

Variable dueCount : nat.
Variable user : string.
Variable uts : list QueuedTransaction.
Variable t : Totals.

(** An entry after the first [b] batches of its user's upload. *)
Definition afterUpload (b : nat) (x : QueuedTransaction) : QueuedTransaction :=
  match findIndex (id x) uts with
  | Some index => if (index <? b * BATCH_SIZE)%nat then uploaded 1 x else x
  | None => x
  end.

Lemma afterBatch_queue k s :
  queue (afterBatch (create env user)
           (reportProgress (totalSucceeded t) dueCount)
           (markBatchCompleted uts) (map toDraft uts) k s)
  = map (fun x =>
           match findIndex (id x) uts with
           | Some index =>
               if bool_decide (k * BATCH_SIZE <= index < k * BATCH_SIZE + BATCH_SIZE)
               then uploaded 1 x else x
           | None => x
           end) (queue s).
Proof.
  unfold afterBatch. cbn [reportProgress publish queue].
  set (ok := filter _ _).
  assert (Hok : forall x index, findIndex (id x) uts = Some index ->
            bool_decide (index ∈ ok)
            = bool_decide (k * BATCH_SIZE <= index < k * BATCH_SIZE + BATCH_SIZE)).
  { intros x index Hf%findIndex_lt. apply bool_decide_ext. unfold ok.
    rewrite accepted_positions, length_map. intuition. }
  assert (Hmark : queue (markBatchCompleted uts ok s)
                  = map (fun x =>
                      match findIndex (id x) uts with
                      | Some index =>
                          if bool_decide (k * BATCH_SIZE <= index
                                          < k * BATCH_SIZE + BATCH_SIZE)
                          then uploaded 1 x else x
                      | None => x
                      end) (queue s)).
  { unfold markBatchCompleted. cbn [queue setQueue].
    apply list_fmap_ext. intros i x _.
    destruct (findIndex (id x) uts) as [index|] eqn:Hf; [|done].
    by rewrite (Hok x index Hf). }
  destruct ok as [|i0 ok'] eqn:Hnil; [|exact Hmark].
  rewrite <- Hmark. unfold markBatchCompleted. cbn [queue setQueue]. symmetry. rewrite <- (list_fmap_id (queue s)) at 2.
  apply list_fmap_ext. intros i x _. by destruct (findIndex (id x) uts).
Qed.

Lemma afterBatches_last {St : Type} create (onProgress : nat -> nat -> St -> St)
    onBatchSuccess transactions b s :
  afterBatches create onProgress onBatchSuccess transactions 0 (S b) s
  = afterBatch create onProgress onBatchSuccess transactions b
      (afterBatches create onProgress onBatchSuccess transactions 0 b s).
Proof.
  unfold afterBatches. rewrite !Nat.sub_0_r, seq_S, foldl_app. done.
Qed.

Lemma afterBatches_queue b s :
  queue (afterBatches (create env user)
           (reportProgress (totalSucceeded t) dueCount)
           (markBatchCompleted uts) (map toDraft uts) 0 b s)
  = map (afterUpload b) (queue s).
Proof.
  induction b as [|b IH].
  { rewrite afterBatches_none. symmetry. rewrite <- (list_fmap_id (queue s)) at 2.
    apply list_fmap_ext. intros i x _. unfold afterUpload.
    destruct (findIndex (id x) uts); [|done]. done. }
  rewrite afterBatches_last, afterBatch_queue, IH, <- list_fmap_compose.
  apply list_fmap_ext. intros i x _. cbn. unfold afterUpload, BATCH_SIZE.
  destruct (findIndex (id x) uts) as [index|] eqn:Hf.
  - destruct (index <? b * 2)%nat eqn:Hlt.
    + apply Nat.ltb_lt in Hlt. cbn [uploaded update id]. rewrite Hf.
      rewrite bool_decide_false by lia.
      by rewrite (proj2 (Nat.ltb_lt index (S b * 2))) by lia.
    + apply Nat.ltb_ge in Hlt. rewrite Hf.
      destruct (decide (index < S b * 2)) as [Hin|Hout].
      * rewrite bool_decide_true by lia.
        by rewrite (proj2 (Nat.ltb_lt index (S b * 2))) by lia.
      * rewrite bool_decide_false by lia.
        by rewrite (proj2 (Nat.ltb_ge index (S b * 2))) by lia.
  - by rewrite Hf.
Qed.

(** A user's turn: every entry of the user is uploaded and recorded
    twice, once by the batch callback and once after the upload. *)
Lemma tryUser_all_accepted st :
  exists t1 st1,
    tryUser env dueCount user uts t st = Uploaded t1 st1 /\
    totalSucceeded t1 = totalSucceeded t + length uts /\
    totalFailed t1 = totalFailed t /\
    queue st1 = map (fun x => if hasId (id x) uts then uploaded 2 x else x)
                    (queue st) /\
    uploads st1 = uploads st ++ map (fun d => (user, d)) (map toDraft uts).
Proof.
  pose proof (tryUser_spec env dueCount user uts t st) as Hspec.
  unfold tryUser in *. rewrite no_delete_active, no_fault, is_configured in *.
  destruct (createBulkTransactions _ _ _ _ _ _ _) as [msg|[run st1]] eqn:Hrun.
  { unfold createBulkTransactions in Hrun.
    by destruct (batchLoop _ _ _ _ _ _ _ _). }
  rewrite no_cancel in *. destruct Hspec as (_ & Hu & _).
  pose proof (createBulkTransactions_spec _ _ _ _ _ _ _ _ _ Hrun)
    as (b & Hb & Hend & _ & Hrb & _ & Hs & He & Hc & Hf & Hsum & ->).
  destruct (complete_run_calls _ _ _ _ _ _ _ _ _ Hrun (no_cancel _)) as [_ Hlen].
  destruct Hend as [->|Hend]; [|by rewrite no_cancel in Hend].
  rewrite no_errors in He. rewrite He in Hf. cbn in Hf.
  rewrite length_map in Hlen.
  eexists _, _. split; [reflexivity|].
  cbn [totalSucceeded totalFailed queue setQueue recordUploads uploads
       result calls].
  split; [lia|]. split; [lia|]. split; [|exact Hu].
  unfold markResult. rewrite afterBatches_queue, <- list_fmap_compose.
  apply list_fmap_ext. intros i x _. cbn. unfold afterUpload.
  pose proof (batchCount_enough (map toDraft uts)) as Henough.
  rewrite length_map in Henough.
  destruct (findIndex (id x) uts) as [index|] eqn:Hfind.
  - assert (Hid : hasId (id x) uts = true).
    { destruct (hasId (id x) uts) eqn:Hh; [done|].
      apply findIndex_hasId in Hh. congruence. }
    pose proof (findIndex_lt _ _ _ Hfind) as Hlt.
    rewrite (proj2 (Nat.ltb_lt index _))
      by (eapply Nat.lt_le_trans; [exact Hlt|exact Henough]).
    cbn [uploaded update id]. rewrite Hfind, Hid.
    rewrite bool_decide_true.
    + unfold uploaded, update. cbn. f_equal. lia.
    + rewrite Hs. apply accepted_positions. rewrite length_map. lia.
  - rewrite Hfind. apply findIndex_hasId in Hfind. by rewrite Hfind.
Qed.

End OneUser.

(** An entry after the turns of [groups]. *)
Definition afterUsers (groups : list (string * list QueuedTransaction))
    (x : QueuedTransaction) : QueuedTransaction :=
  foldl (fun x g => if hasId (id x) g.2 then uploaded 2 x else x) x groups.

Lemma processUsers_all_accepted dueCount groups : forall t st,
  exists t' st',
    processUsers env dueCount groups t st = LoopDone t' st' /\
    totalSucceeded t' = totalSucceeded t + groupSize groups /\
    totalFailed t' = totalFailed t /\
    queue st' = map (afterUsers groups) (queue st) /\
    uploads st' = uploads st ++ groupUploads groups.
Proof.
  induction groups as [|[user uts] rest IH]; intros t st.
  { eexists _, _. split; [reflexivity|]. unfold groupSize, groupUploads. cbn.
    rewrite app_nil_r, list_fmap_id. split; [lia|done]. }
  cbn [processUsers].
  destruct (tryUser_all_accepted dueCount user uts t st)
    as (t1 & st1 & -> & HS & HF & Hq & Hu).
  match goal with |- context [processUsers _ _ _ ?t2 st1] =>
    destruct (IH t2 st1) as (t' & st' & -> & HS' & HF' & Hq' & Hu') end.
  cbn [totalSucceeded totalFailed] in HS', HF'.
  eexists _, _. split; [reflexivity|].
  unfold groupSize, groupUploads in *. cbn [map concat fst snd].
  rewrite length_app. split; [lia|]. split; [lia|]. split.
  - rewrite Hq', Hq, <- list_fmap_compose. done.
  - by rewrite Hu', Hu, (assoc_L (++)).
Qed.

Lemma hasId_app i ts1 ts2 : hasId i (ts1 ++ ts2) = hasId i ts1 || hasId i ts2.
Proof. apply existsb_app. Qed.

Lemma hasId_perm i ts1 ts2 : ts1 ≡ₚ ts2 -> hasId i ts1 = hasId i ts2.
Proof.
  intros Hp. destruct (hasId i ts2) eqn:H2.
  - apply hasId_inv in H2 as (p & Hp2 & <-). rewrite <- Hp in Hp2.
    by apply hasId_elem.
  - destruct (hasId i ts1) eqn:H1; [|done].
    apply hasId_inv in H1 as (p & Hp1 & <-). rewrite Hp in Hp1.
    apply hasId_elem in Hp1. congruence.
Qed.

Lemma NoDup_ids_app_l (ts1 ts2 : list QueuedTransaction) i :
  NoDup (map id (ts1 ++ ts2)) -> hasId i ts1 = true -> hasId i ts2 = false.
Proof.
  rewrite fmap_app. intros (_ & Hdisj & _)%NoDup_app Hin.
  destruct (hasId i ts2) eqn:H2; [|done].
  apply hasId_inv in Hin as (p & Hp & <-).
  apply hasId_inv in H2 as (p' & Hp' & Heq).
  destruct (Hdisj (id p)).
  - apply list_elem_of_fmap. eauto.
  - apply list_elem_of_fmap. eauto.
Qed.

Lemma afterUsers_spec groups x :
  NoDup (map id (concat (map snd groups))) ->
  afterUsers groups x
  = if hasId (id x) (concat (map snd groups)) then uploaded 2 x else x.
Proof.
  revert x. induction groups as [|[user uts] rest IH]; intros x Hnd; [done|].
  cbn [map concat snd] in *. unfold afterUsers in *. cbn [foldl snd].
  rewrite hasId_app.
  assert (Hrest : NoDup (map id (concat (map snd rest)))).
  { rewrite fmap_app in Hnd. by apply NoDup_app in Hnd as (_ & _ & ?). }
  destruct (hasId (id x) uts) eqn:Hx.
  - rewrite IH by done. cbn [uploaded update id orb].
    by rewrite (NoDup_ids_app_l _ _ _ Hnd Hx).
  - by rewrite IH.
Qed.

Lemma NoDup_ids_inj (q : list QueuedTransaction) x y :
  NoDup (map id q) -> x ∈ q -> y ∈ q -> id x = id y -> x = y.
Proof.
  induction q as [|z q IH]; [by intros _ ?%elem_of_nil|].
  cbn. intros [Hz Hq]%NoDup_cons [->|Hx]%elem_of_cons [->|Hy]%elem_of_cons Hid.
  - done.
  - destruct Hz. rewrite Hid. apply list_elem_of_fmap. eauto.
  - destruct Hz. rewrite <- Hid. apply list_elem_of_fmap. eauto.
  - by apply IH.
Qed.

(** X11: when no delete operation is found, the cancel flag is never
    raised, the backend is configured, nothing throws, every create call
    succeeds or is rejected as a duplicate, and the queue ids are distinct, a
    run returns { succeeded: number of due entries, failed: 0 }, makes one
    create call per due entry, and leaves every due entry completed with its
    attempts raised by two (once by the batch callback, once by the update
    that follows the upload) and every other entry as it was. *)
Theorem sync_run_all_accepted (st : Store) :
  NoDup (map id (queue st)) ->
  let due := filter (fun t => isDue t = true) (queue st) in
  let r := startSyncingTransactions env st in
  r.1 = (length due, 0) /\
  queue r.2 = map (fun t => if isDue t then uploaded 2 t else t) (queue st) /\
  exists sent, uploads r.2 = uploads st ++ sent /\ sent ≡ₚ map uploadOf due.
Proof.
  intros Hnd. cbn zeta. unfold startSyncingTransactions. rewrite no_delete.
  set (due := filter (fun t => isDue t = true) (queue st)).
  assert (Hdue : forall x, x ∈ queue st -> hasId (id x) due = isDue x).
  { intros x Hx. destruct (isDue x) eqn:Hd.
    - apply hasId_elem, list_elem_of_filter. done.
    - destruct (hasId (id x) due) eqn:Hh; [|done].
      apply hasId_inv in Hh as (p & [Hp Hpq]%list_elem_of_filter & Hid).
      rewrite (NoDup_ids_inj _ _ _ Hnd Hpq Hx Hid) in Hp. congruence. }
  destruct due as [|p due'] eqn:Edue.
  { cbn. split; [done|]. split.
    - symmetry. rewrite <- (list_fmap_id (queue st)) at 2.
      apply list_fmap_ext. intros i x Hx%list_elem_of_lookup_2.
      rewrite <- (Hdue x Hx). done.
    - exists []. by rewrite app_nil_r. }
  rewrite <- Edue in *.
  match goal with |- context [processUsers ?e ?d ?g ?t ?s] =>
    destruct (processUsers_all_accepted d g t s)
      as (t' & st' & -> & HS & HF & Hq & Hu) end.
  cbn [fst snd queue publish uploads setQueue totalSucceeded totalFailed] in *.
  pose proof (groupByUser_members due) as Hmem.
  split; [|split].
  - unfold groupSize in HS. rewrite (Permutation_length Hmem) in HS.
    by rewrite HS, HF.
  - rewrite Hq. unfold markSyncing. rewrite <- list_fmap_compose.
    apply list_fmap_ext. intros i x Hx%list_elem_of_lookup_2. cbn.
    rewrite afterUsers_spec.
    2:{ rewrite Hmem. apply (sublist_NoDup _ (map id (queue st))); [done|].
        apply fmap_sublist, sublist_filter. }
    rewrite (hasId_perm _ _ _ Hmem).
    rewrite (Hdue x Hx). destruct (isDue x) eqn:Hd.
    + cbn [update id]. rewrite (Hdue x Hx), Hd. done.
    + by rewrite (Hdue x Hx), Hd.
  - exists (groupUploads (groupByUser due)). split; [done|].
    apply groupByUser_uploads.
Qed.

End AllAccepted.

(** A backend that accepts everything, with no delete operation around. *)
Definition reliable : Env :=
  {| deleteStatus := fun _ => None;
     cancelSync := fun _ => false;
     create := fun _ _ _ => Created;
     configured := true;
     fault := fun _ => None;
     now := "2025-01-03T10:05:00.000Z" |}.


Example reliable_run :
  (fun r => (r.1, map (fun t => (id t, syncStatus t, attempts t)) (queue r.2)))
    (startSyncingTransactions reliable twoUsersQueued)
  = ((5, 0), [("t1", completed, 2); ("t2", completed, 2); ("t3", completed, 2);
              ("t4", completed, 2); ("t5", completed, 2)]).
Proof. vm_compute. done. Qed.

Lemma sync_run_leaves_nothing_syncing_witness :
  deleteBlocksStart (deleteStatus deleteAfterFirstBatch 0) = false /\
  Forall (fun t => syncStatus t <> syncing)
         (queue (startSyncingTransactions deleteAfterFirstBatch fiveQueued).2).
Proof.
  split; [reflexivity|].
  apply sync_run_leaves_nothing_syncing. reflexivity.
Defined.

Lemma sync_run_accounts_for_due_witness :
  (startSyncingTransactions unconfigured twoUsersQueued).1.1
  + (startSyncingTransactions unconfigured twoUsersQueued).1.2 = 5.
Proof.
  exact (proj2 (sync_run_accounts_for_due unconfigured twoUsersQueued)
               (fun _ => eq_refl) (fun _ => eq_refl)).
Defined.


Lemma twoUsersQueued_ids : NoDup (map id (queue twoUsersQueued)).
Proof. apply (bool_decide_unpack _). vm_compute. exact I. Defined.

Lemma sync_run_all_accepted_witness :
  (startSyncingTransactions reliable twoUsersQueued).1 = (5, 0).
Proof.
  exact (proj1 (sync_run_all_accepted reliable (fun _ => eq_refl)
                  (fun _ => eq_refl) eq_refl (fun _ => eq_refl)
                  (fun _ _ _ => eq_refl) twoUsersQueued twoUsersQueued_ids)).
Defined.

End SyncFacts.

(** ** Delete queue: whole runs, resumption and the background task *)

Module DeleteFacts.

Import DeleteQueue.

(** *** The other entry points of the delete queue *)

Definition setPending (o : DeleteOperation) : DeleteOperation :=
  {| userId := userId o; status := Pending; totalDeleted := totalDeleted o;
     totalToDelete := totalToDelete o; lastError := lastError o;
     createdAt := createdAt o |}.

(** initializeDeleteStatus *)
Definition initializeDeleteStatus (stored : option DeleteOperation)
    : option DeleteOperation :=
  match stored with
  | Some op => if decide (status op = InProgress)
               then updateDeleteStatus setPending stored else stored
  | None => stored
  end.

Inductive BackgroundFetchResult := NoData | NewData | TaskFailed.

(** The BACKGROUND_DELETE_TASK of backgroundTasks.ts. With the stored item
    readable, nothing in its try block throws, so the [Failed] result of its
    catch block does not arise. *)
Definition backgroundDeleteTask (fuel : nat) (env : Env) (locked : bool)
    (stored : option DeleteOperation) : option (BackgroundFetchResult * State) :=
  let idle := {| deleteQueue := stored; loop := initialLoop |} in
  match stored with
  | None => Some (NoData, idle)
  | Some deleteStatus =>
      if decide (status deleteStatus = Completed) then Some (NoData, idle)
      else
        match startDeletingTransactions fuel env locked stored with
        | None => None
        | Some s =>
            let finalStatus := deleteQueue s in
            Some (match finalStatus with
                  | Some f => if decide (status f = Completed)
                              then NewData else NoData
                  | None => NoData
                  end, s)
        end
  end.

(** *** Invariants of the loop *)

Definition documentsOf (o : ListOutcome) : list string :=
  match o with Listed docs => docs | ListFailed _ => [] end.

(** The number of documents returned by the first [n] listings. *)
Fixpoint listedBefore (env : Env) (n : nat) : nat :=
  match n with
  | 0 => 0
  | S m => listedBefore env m + length (documentsOf (listDocs env m))
  end.

Definition notCompleted (s : State) : Prop :=
  forall f, deleteQueue s = Some f -> status f <> Completed.

Lemma iteration_notCompleted env s :
  notCompleted s ->
  match iteration env s with
  | Continue s' | Finished s' | Thrown s' => notCompleted s'
  end.
Proof.
  intros Hs. unfold iteration.
  destruct (listDocs env (listCalls (loop s))) as [[|d ds]|msg];
    unfold notCompleted in *; cbn.
  - done.
  - destruct (deleteQueue s) as [f|]; [|done]. intros f' [= <-]. cbn. eauto.
  - destruct (deleteQueue s) as [f|]; [|done]. by intros f' [= <-].
Qed.

Lemma iterations_notCompleted fuel env : forall s s',
  notCompleted s -> iterations fuel env s = Some s' -> notCompleted s'.
Proof.
  induction fuel as [|fuel IH]; intros s s' Hs; [done|]. cbn.
  pose proof (iteration_notCompleted env s Hs) as Hi.
  destruct (iteration env s) as [s1|s1|s1]; [by apply IH|by intros [= <-]..].
Qed.

Lemma run_notCompleted fuel env locked stored s :
  (forall op, stored = Some op -> status op <> Completed) ->
  startDeletingTransactions fuel env locked stored = Some s ->
  notCompleted s.
Proof.
  intros Hstored. unfold startDeletingTransactions.
  assert (Hidle : notCompleted {| deleteQueue := stored; loop := initialLoop |}).
  { intros f Hf. by apply Hstored. }
  destruct locked; [by intros [= <-]|].
  destruct stored as [op|]; [|by intros [= <-]].
  destruct (status op) eqn:Hst; try (by intros [= <-]);
    apply iterations_notCompleted; by intros f [= <-].
Qed.

(** X12: the background delete task never reports new data: when the run
    it starts completes the deletion, the stored operation has been removed
    by the time the task reads it back, and in every other case the stored
    status is not 'completed'. *)
Theorem background_delete_never_reports_new_data (fuel : nat) (env : Env)
    (locked : bool) (stored : option DeleteOperation)
    (r : BackgroundFetchResult) (s : State) :
  backgroundDeleteTask fuel env locked stored = Some (r, s) -> r = NoData.
Proof.
  unfold backgroundDeleteTask. destruct stored as [op|]; [|by intros [= <- _]].
  destruct (decide (status op = Completed)) as [Hc|Hc]; [by intros [= <- _]|].
  destruct (startDeletingTransactions fuel env locked (Some op)) as [s'|] eqn:Hrun;
    [|done].
  apply run_notCompleted in Hrun; [|by intros ? [= <-]].
  intros [= <- <-]. destruct (deleteQueue s') as [f|] eqn:Hf; [|done].
  by rewrite decide_False by (by apply Hrun).
Qed.

(** Delete calls and counted deletions of one document. *)
Lemma deleteOne_counts env docId l :
  let l' := deleteOne env docId l in
  listCalls l' = listCalls l /\
  S (deleteCalls l) <= deleteCalls l' <= S (S (deleteCalls l)) /\
  total l <= total l' <= S (total l) /\
  total l' - total l <= deleteCalls l' - deleteCalls l /\
  batchDeleted l' - batchDeleted l = total l' - total l /\
  batchDeleted l <= batchDeleted l'.
Proof.
  cbn zeta. unfold deleteOne, callDelete.
  destruct (deleteDoc env (deleteCalls l)) as [|e]; cbn; [lia|].
  destruct (isNotFound e); cbn; [lia|].
  destruct (isRateLimit e); cbn; [|lia].
  destruct (deleteDoc env (S (deleteCalls l))); cbn; lia.
Qed.

Lemma deleteBatch_counts env docs : forall l,
  let l' := deleteBatch env docs l in
  listCalls l' = listCalls l /\
  deleteCalls l + length docs <= deleteCalls l'
    <= deleteCalls l + 2 * length docs /\
  total l <= total l' <= total l + length docs /\
  total l' - total l <= deleteCalls l' - deleteCalls l /\
  batchDeleted l' - batchDeleted l = total l' - total l /\
  batchDeleted l <= batchDeleted l'.
Proof.
  induction docs as [|d docs IH]; intros l; cbn zeta.
  { cbn. lia. }
  rewrite deleteBatch_cons.
  pose proof (deleteOne_counts env d l) as H1. cbn zeta in H1.
  pose proof (IH (deleteOne env d l)) as H2. cbn zeta in H2.
  cbn [length]. lia.
Qed.





(** *** Runs against a backend that lists documents until none is left *)

Definition sameOperation (a b : option DeleteOperation) : Prop :=
  match a, b with
  | Some f, Some f' =>
      userId f' = userId f /\ status f' = status f /\
      totalToDelete f' = totalToDelete f /\ createdAt f' = createdAt f
  | None, None => True
  | _, _ => False
  end.

Lemma sameOperation_refl a : sameOperation a a.
Proof. by destruct a. Qed.

Lemma sameOperation_trans a b c :
  sameOperation a b -> sameOperation b c -> sameOperation a c.
Proof.
  destruct a, b, c; cbn; try done.
  intros (? & ? & ? & ?) (? & ? & ? & ?). repeat split; congruence.
Qed.

(** With non-empty listings up to call [n], the loop reaches call [n] with
    the stored operation still in progress. *)
Lemma iterations_reach env n : forall k s,
  listCalls (loop s) + k = n ->
  (forall i, listCalls (loop s) <= i < n ->
     exists d ds, listDocs env i = Listed (d :: ds)) ->
  exists s_n,
    listCalls (loop s_n) = n /\
    sameOperation (deleteQueue s) (deleteQueue s_n) /\
    (exists more, events (loop s_n) = events (loop s) ++ more) /\
    forall fuel, iterations (k + fuel) env s = iterations fuel env s_n.
Proof.
  induction k as [|k IH]; intros s Hk Hlist.
  { exists s. rewrite Nat.add_0_r in Hk. split; [done|].
    split; [apply sameOperation_refl|]. split; [|done].
    exists []. by rewrite app_nil_r. }
  destruct (Hlist (listCalls (loop s))) as (d & ds & Hl); [lia|].
  pose proof (deleteBatch_counts env (d :: ds) (resetBatch (nextList (loop s))))
    as (B1 & _).
  assert (Hev : forall docs l, exists more,
            events (deleteBatch env docs l) = events l ++ more).
  { clear. induction docs as [|d docs IH]; intros l.
    - exists []. by rewrite app_nil_r.
    - rewrite deleteBatch_cons. destruct (IH (deleteOne env d l)) as [m ->].
      assert (exists m1, events (deleteOne env d l) = events l ++ m1) as [m1 ->].
      { unfold deleteOne, callDelete.
        destruct (deleteDoc env (deleteCalls l)) as [|e]; cbn.
        - rewrite <- app_assoc. eauto.
        - destruct (isNotFound e); cbn; [rewrite <- app_assoc; eauto|].
          destruct (isRateLimit e); cbn; [|rewrite <- app_assoc; eauto].
          destruct (deleteDoc env (S (deleteCalls l))); cbn;
            rewrite <- ?app_assoc; eauto. }
      rewrite <- app_assoc. eauto. }
  destruct (Hev (d :: ds) (resetBatch (nextList (loop s)))) as [more Hmore].
  set (s1 := {| deleteQueue :=
                  updateDeleteStatus
                    (setTotalDeleted
                       (total (deleteBatch env (d :: ds)
                                 (resetBatch (nextList (loop s))))))
                    (deleteQueue s);
                loop := emit [EvProgress
                                (total (deleteBatch env (d :: ds)
                                          (resetBatch (nextList (loop s)))))
                                InProgress;
                              EvSleep delayBetweenBatches]
                          (deleteBatch env (d :: ds)
                             (resetBatch (nextList (loop s)))) |}).
  assert (Hstep : iteration env s = Continue s1).
  { unfold iteration. by rewrite Hl. }
  assert (Hcalls : listCalls (loop s1) = S (listCalls (loop s))).
  { unfold s1. cbn [loop emit listCalls]. by rewrite B1. }
  destruct (IH s1) as (s_n & Hn & Hsame & [more' Hmore'] & Hrun).
  { lia. }
  { intros i Hi. apply Hlist. lia. }
  exists s_n. split; [done|]. split; [|split].
  - eapply sameOperation_trans; [|exact Hsame].
    unfold s1. cbn. by destruct (deleteQueue s).
  - rewrite Hmore'. unfold s1. cbn [loop emit events]. rewrite Hmore.
    cbn [resetBatch nextList events]. rewrite <- !app_assoc. eauto.
  - intros fuel. cbn [Nat.add iterations]. by rewrite Hstep.
Qed.

(** When every delete call succeeds, the count is the number of documents
    listed. *)
Lemma iterations_exact fuel env : forall s s',
  (forall k, deleteDoc env k = Deleted) ->
  total (loop s) = listedBefore env (listCalls (loop s)) ->
  iterations fuel env s = Some s' ->
  total (loop s') = listedBefore env (listCalls (loop s') - 1)
  \/ total (loop s') = listedBefore env (listCalls (loop s')).
Proof.
  intros s s' Hdel. revert s.
  assert (Hbatch : forall docs l,
            total (deleteBatch env docs l) = total l + length docs).
  { induction docs as [|d docs IH]; intros l; [cbn; lia|].
    rewrite deleteBatch_cons, IH, deleteOne_deleted by apply Hdel. cbn. lia. }
  induction fuel as [|fuel IH]; intros s Hs; [done|]. cbn [iterations].
  unfold iteration.
  destruct (listDocs env (listCalls (loop s))) as [[|d ds]|msg] eqn:Hl.
  - intros [= <-]. left. cbn. by rewrite Nat.sub_0_r.
  - apply IH. cbn [loop emit total listCalls].
    pose proof (deleteBatch_counts env (d :: ds) (resetBatch (nextList (loop s))))
      as (B1 & _).
    rewrite B1, Hbatch. cbn [resetBatch nextList total listCalls listedBefore].
    rewrite Hl. cbn [documentsOf]. lia.
  - intros [= <-]. left. cbn. by rewrite Nat.sub_0_r.
Qed.

Definition restartable (op : DeleteOperation) : Prop :=
  status op = Pending \/ status op = Failed.

Definition completionEvents (deleted : nat) : list Event :=
  [EvProgress deleted Completed; EvRemoveItem DELETE_QUEUE_KEY;
   EvRemoveItem SYNC_QUEUE_KEY; EvResetSyncStatus].

Lemma run_reaches fuel env n op :
  restartable op ->
  (forall i, i < n -> exists d ds, listDocs env i = Listed (d :: ds)) ->
  exists s_n,
    listCalls (loop s_n) = n /\
    sameOperation (Some (setStarted (default 0 (countDocs env)) op))
                  (deleteQueue s_n) /\
    startDeletingTransactions (n + fuel) env false (Some op)
    = iterations fuel env s_n.
Proof.
  intros Hop Hlist.
  destruct (iterations_reach env n n
              {| deleteQueue :=
                   updateDeleteStatus (setStarted (default 0 (countDocs env)))
                                      (Some op);
                 loop := emit [EvProgress 0 InProgress] initialLoop |})
    as (s_n & Hn & Hsame & _ & Hrun); [done|intros i Hi; apply Hlist; cbn in Hi; lia|].
  exists s_n. split; [done|]. split; [exact Hsame|].
  unfold startDeletingTransactions. rewrite <- Hrun.
  by destruct Hop as [-> | ->].
Qed.

Lemma run_completes fuel env n op :
  restartable op ->
  (forall i, i < n -> exists d ds, listDocs env i = Listed (d :: ds)) ->
  listDocs env n = Listed [] ->
  n < fuel ->
  exists s,
    startDeletingTransactions fuel env false (Some op) = Some s /\
    deleteQueue s = None /\
    listCalls (loop s) = S n /\
    exists before,
      events (loop s) = before ++ completionEvents (total (loop s)).
Proof.
  intros Hop Hlist Hend Hfuel.
  destruct (run_reaches (fuel - n) env n op Hop Hlist) as (s_n & Hn & _ & Hrun).
  replace (n + (fuel - n)) with fuel in Hrun by lia. rewrite Hrun.
  destruct (fuel - n) as [|rest] eqn:Hrest; [lia|]. cbn [iterations].
  unfold iteration. rewrite Hn, Hend.
  eexists. split; [reflexivity|]. cbn. split; [done|]. split; [by rewrite Hn|].
  eauto.
Qed.

(** X14: against a backend whose listings are non-empty up to call [n]
    and empty at call [n], a pending or failed operation started with the lock
    free runs to completion whatever the delete calls answer: the loop stops
    at listing [n], the stored operation is removed, and the last effects are
    the 'completed' progress report, the removal of the delete and sync queue
    items and the reset of the sync status; when every delete call succeeds
    the reported count is the number of documents listed. *)
Theorem delete_run_completes (fuel n : nat) (env : Env) (op : DeleteOperation) :
  restartable op ->
  (forall i, i < n -> exists d ds, listDocs env i = Listed (d :: ds)) ->
  listDocs env n = Listed [] ->
  n < fuel ->
  exists s,
    startDeletingTransactions fuel env false (Some op) = Some s /\
    deleteQueue s = None /\
    listCalls (loop s) = S n /\
    (exists before,
       events (loop s) = before ++ completionEvents (total (loop s))) /\
    ((forall k, deleteDoc env k = Deleted) ->
     total (loop s) = listedBefore env n).
Proof.
  intros Hop Hlist Hend Hfuel.
  destruct (run_completes fuel env n op Hop Hlist Hend Hfuel)
    as (s & Hrun & Hq & Hcalls & Hev).
  exists s. do 4 (split; [done|]). intros Hdel.
  assert (Hex : total (loop s) = listedBefore env (listCalls (loop s) - 1)
                \/ total (loop s) = listedBefore env (listCalls (loop s))).
  { unfold startDeletingTransactions in Hrun.
    destruct Hop as [Hs|Hs]; rewrite Hs in Hrun;
      by apply (iterations_exact _ _ _ _ Hdel) in Hrun. }
  rewrite Hcalls in Hex. cbn [listedBefore] in Hex. rewrite Hend in Hex.
  cbn in Hex. rewrite Nat.sub_0_r in Hex. lia.
Qed.

(** X15: when listing [n] is rejected after non-empty listings, the run
    ends with the operation stored as failed with the error's message and
    with totalDeleted reset to 0, whatever was deleted before; the operation
    is then restartable. *)
Theorem delete_run_listing_failure (fuel n : nat) (env : Env)
    (op : DeleteOperation) (msg : string) :
  restartable op ->
  (forall i, i < n -> exists d ds, listDocs env i = Listed (d :: ds)) ->
  listDocs env n = ListFailed msg ->
  n < fuel ->
  exists s f,
    startDeletingTransactions fuel env false (Some op) = Some s /\
    deleteQueue s = Some f /\
    status f = Failed /\ lastError f = Some msg /\ totalDeleted f = 0 /\
    userId f = userId op /\ restartable f.
Proof.
  intros Hop Hlist Hend Hfuel.
  destruct (run_reaches (fuel - n) env n op Hop Hlist)
    as (s_n & Hn & Hsame & Hrun).
  replace (n + (fuel - n)) with fuel in Hrun by lia. rewrite Hrun.
  destruct (fuel - n) as [|rest] eqn:Hrest; [lia|]. cbn [iterations].
  unfold iteration. rewrite Hn, Hend.
  destruct (deleteQueue s_n) as [f|] eqn:Hf; [|done].
  destruct Hsame as (Hu & _).
  eexists _, _. split; [reflexivity|]. cbn.
  split; [done|]. repeat split; try done. by right.
Qed.

(** X16: an operation left 'in-progress' by a killed run is skipped by
    startDeletingTransactions, which does nothing at all; once
    initializeDeleteStatus has reset it to 'pending', the same call runs the
    deletion to completion. *)
Theorem initialize_delete_status_resumes (fuel n : nat) (env : Env)
    (op : DeleteOperation) :
  status op = InProgress ->
  (forall i, i < n -> exists d ds, listDocs env i = Listed (d :: ds)) ->
  listDocs env n = Listed [] ->
  n < fuel ->
  startDeletingTransactions fuel env false (Some op)
    = Some {| deleteQueue := Some op; loop := initialLoop |} /\
  exists s,
    startDeletingTransactions fuel env false (initializeDeleteStatus (Some op))
      = Some s /\
    deleteQueue s = None.
Proof.
  intros Hop Hlist Hend Hfuel. split.
  { unfold startDeletingTransactions. by rewrite Hop. }
  unfold initializeDeleteStatus. rewrite decide_True by done. cbn.
  destruct (run_completes fuel env n (setPending op)) as (s & Hrun & Hq & _);
    [by left|done..|].
  eauto.
Qed.

(** Three documents, listed one at a time, all deleted at the first call. *)
Definition threeDocuments : Env :=
  {| countDocs := Some 3;
     listDocs := fun n => match n with
                          | 0 => Listed ["doc1"]
                          | 1 => Listed ["doc2"]
                          | 2 => Listed ["doc3"]
                          | _ => Listed []
                          end;
     deleteDoc := fun _ => Deleted |}.

(** The same backend, unreachable at the third listing. *)
Definition unreachableAtThird : Env :=
  {| countDocs := Some 3;
     listDocs := fun n => match n with
                          | 0 => Listed ["doc1"]
                          | 1 => Listed ["doc2"]
                          | _ => ListFailed "Network request failed"
                          end;
     deleteDoc := fun _ => Deleted |}.

Definition interruptedOp : DeleteOperation :=
  {| userId := "u1"; status := InProgress; totalDeleted := 1;
     totalToDelete := 3; lastError := None;
     createdAt := "2025-01-01T00:00:00.000Z" |}.

Lemma threeDocuments_listings i :
  i < 3 -> exists d ds, listDocs threeDocuments i = Listed (d :: ds).
Proof.
  intros Hi. destruct i as [|[|[|i]]]; [cbn; eauto..|lia].
Defined.

Lemma background_delete_never_reports_new_data_witness :
  fst <$> backgroundDeleteTask 5 threeDocuments false (Some pendingOp)
  = Some NoData.
Proof.
  destruct (backgroundDeleteTask 5 threeDocuments false (Some pendingOp))
    as [[r s]|] eqn:Hrun; [|discriminate Hrun].
  cbn. f_equal.
  exact (background_delete_never_reports_new_data _ _ _ _ _ _ Hrun).
Defined.


Lemma delete_run_completes_witness :
  exists s, startDeletingTransactions 5 threeDocuments false (Some pendingOp) = Some s /\
            total (loop s) = 3.
Proof.
  destruct (delete_run_completes 5 3 threeDocuments pendingOp
              (or_introl eq_refl) threeDocuments_listings eq_refl
              ltac:(lia))
    as (s & Hrun & _ & _ & _ & Htotal).
  exists s. split; [exact Hrun|]. exact (Htotal (fun _ => eq_refl)).
Defined.

Lemma delete_run_listing_failure_witness :
  exists s f, startDeletingTransactions 5 unreachableAtThird false (Some pendingOp)
              = Some s /\
              deleteQueue s = Some f /\ totalDeleted f = 0.
Proof.
  assert (Hl : forall i, i < 2 ->
            exists d ds, listDocs unreachableAtThird i = Listed (d :: ds)).
  { intros i Hi. destruct i as [|[|i]]; [cbn; eauto..|lia]. }
  destruct (delete_run_listing_failure 5 2 unreachableAtThird pendingOp
              "Network request failed" (or_introl eq_refl) Hl eq_refl
              ltac:(lia))
    as (s & f & Hrun & Hq & _ & _ & Hzero & _).
  exists s, f. split; [exact Hrun|]. split; [exact Hq|exact Hzero].
Defined.

Lemma initialize_delete_status_resumes_witness :
  startDeletingTransactions 5 threeDocuments false (Some interruptedOp)
  = Some {| deleteQueue := Some interruptedOp; loop := initialLoop |}.
Proof.
  exact (proj1 (initialize_delete_status_resumes 5 3 threeDocuments
                  interruptedOp eq_refl threeDocuments_listings eq_refl
                  ltac:(lia))).
Defined.

End DeleteFacts.

(** ** Account balances: upsert, snapshot and restore together *)

Module BalanceFacts.

Import Balances.

(** The [data] argument of upsertAccountBalance, which is also the element
    type of the [balances] argument of saveBalanceSnapshotToAppwrite and of
    the list returned by getAccountBalancesFromAppwrite. *)
Module Data.
Record t := {
  accountKey : string;
  accountName : string;
  accountType : string;
  provider : option string;
  currency : string;
  balance : Z;
  lastUpdated : option string;
}.
End Data.

(** What createDocument needs from outside: the id drawn by ID.unique() and
    whether the call is rejected. *)
Record Creation := {
  unique : string;
  createFails : bool;
}.

(** A call that passed the configuration guard: the value it returns
    ([None] when a remote call threw) and the table it leaves. *)
Definition Call (A : Type) : Type := string + (option A * list BalanceDoc).

(** [Query.equal("userId", userId), Query.equal("accountKey", key)] *)
Definition sameAccount (user key : string) (d : BalanceDoc) : bool :=
  String.eqb (userId d) user && String.eqb (accountKey d) key.

(** [res.documents?.[0]] of a listing limited to one document. *)
Definition firstDocument (user key : string) (table : list BalanceDoc)
    : option BalanceDoc :=
  head (filter (fun d => sameAccount user key d = true) table).

(** [data.lastUpdated || new Date().toISOString()] *)
Definition stampOf (data : Data.t) (clock : string) : string :=
  match Data.lastUpdated data with
  | Some s => if Js.truthy s then s else clock
  | None => clock
  end.

(** The update with the upsert payload; an absent provider is not part of
    the serialised payload and leaves the stored one. *)
Definition upserted (user : string) (data : Data.t) (clock : string)
    (d : BalanceDoc) : BalanceDoc :=
  {| docId := docId d; userId := user; accountKey := Data.accountKey data;
     accountName := Data.accountName data;
     accountType := Data.accountType data;
     provider := match Data.provider data with
                 | Some p => Some p
                 | None => provider d
                 end;
     currency := Data.currency data; balance := Data.balance data;
     lastUpdated := stampOf data clock;
     previousBalance := previousBalance d;
     previousBalanceTimestamp := previousBalanceTimestamp d;
     importBatchId := importBatchId d |}.

Definition created (i user : string) (data : Data.t) (clock : string)
    : BalanceDoc :=
  {| docId := i; userId := user; accountKey := Data.accountKey data;
     accountName := Data.accountName data;
     accountType := Data.accountType data; provider := Data.provider data;
     currency := Data.currency data; balance := Data.balance data;
     lastUpdated := stampOf data clock;
     previousBalance := None; previousBalanceTimestamp := None;
     importBatchId := None |}.

(** upsertAccountBalance *)
Definition upsertAccountBalance (env : Env) (mk : Creation) (user : string)
    (data : Data.t) (table : list BalanceDoc) : Call BalanceDoc :=
  if negb (configured env) then inl "Appwrite env not configured"
  else if listFails env then inr (None, table)
  else
    match firstDocument user (Data.accountKey data) table with
    | Some doc =>
        if updateFails env 0 then inr (None, table)
        else inr (Some (upserted user data (now env 0) doc),
                  updateDocument (docId doc) (upserted user data (now env 0))
                                 table)
    | None =>
        if createFails mk then inr (None, table)
        else let doc := created (unique mk) user data (now env 0) in
             inr (Some doc, table ++ [doc])
    end.

Definition toData (d : BalanceDoc) : Data.t :=
  {| Data.accountKey := accountKey d; Data.accountName := accountName d;
     Data.accountType := accountType d; Data.provider := provider d;
     Data.currency := currency d; Data.balance := balance d;
     Data.lastUpdated := Some (lastUpdated d) |}.

(** getAccountBalancesFromAppwrite *)
Definition getAccountBalancesFromAppwrite (env : Env) (user : string)
    (table : list BalanceDoc) : Call (list Data.t) :=
  if negb (configured env) then inl "Appwrite env not configured"
  else if listFails env then inr (None, table)
  else inr (Some (map toData
                    (filter (fun d => String.eqb (userId d) user = true) table)),
            table).

(** The snapshot update of saveBalanceSnapshotToAppwrite. *)
Definition snapshotted (batch stamp : string) (b : Z) (d : BalanceDoc)
    : BalanceDoc :=
  {| docId := docId d; userId := userId d; accountKey := accountKey d;
     accountName := accountName d; accountType := accountType d;
     provider := provider d; currency := currency d; balance := balance d;
     lastUpdated := lastUpdated d;
     previousBalance := Some b; previousBalanceTimestamp := Some stamp;
     importBatchId := Some batch |}.

(** [for (const balance of balances)], with the number of update calls made
    so far; [None] when an update threw. *)
Fixpoint snapshotLoop (env : Env) (user batch stamp : string)
    (balances : list Data.t) (updates : nat) (table : list BalanceDoc)
    : option unit * list BalanceDoc :=
  match balances with
  | [] => (Some tt, table)
  | b :: rest =>
      match firstDocument user (Data.accountKey b) table with
      | Some doc =>
          if updateFails env updates then (None, table)
          else snapshotLoop env user batch stamp rest (S updates)
                 (updateDocument (docId doc)
                    (snapshotted batch stamp (Data.balance b)) table)
      | None => snapshotLoop env user batch stamp rest updates table
      end
  end.

(** saveBalanceSnapshotToAppwrite; the time stamp is taken once, before the
    loop. *)
Definition saveBalanceSnapshotToAppwrite (env : Env) (user batch : string)
    (balances : list Data.t) (table : list BalanceDoc) : Call unit :=
  if negb (configured env) then inl "Appwrite env not configured"
  else
    match balances with
    | [] => inr (Some tt, table)
    | _ => if listFails env then inr (None, table)
           else inr (snapshotLoop env user batch (now env 0) balances 0 table)
    end.

(** *** One document per account *)

Definition account (d : BalanceDoc) : string * string := (userId d, accountKey d).

(** No two documents of the table belong to the same user and account. *)
Definition oneDocPerAccount (table : list BalanceDoc) : Prop :=
  NoDup (map account table).

Lemma sameAccount_account user key d :
  sameAccount user key d = true <-> account d = (user, key).
Proof.
  unfold sameAccount, account. rewrite andb_true_iff, !String.eqb_eq.
  split; [by intros [-> ->]|by intros [= -> ->]].
Qed.

Lemma filter_fmap_comm {A B : Type} (f : A -> B) (P : B -> Prop) (Q : A -> Prop)
    `{forall y, Decision (P y)} `{forall x, Decision (Q x)} (l : list A) :
  (forall x, x ∈ l -> (P (f x) <-> Q x)) ->
  filter P (map f l) = map f (filter Q l).
Proof.
  induction l as [|x l IH]; intros Hl; [done|]. cbn [map].
  rewrite !filter_cons.
  assert (Hx : P (f x) <-> Q x) by (apply Hl; by left).
  rewrite IH by (intros y Hy; apply Hl; by right).
  destruct (decide (P (f x))), (decide (Q x)); tauto || done.
Qed.

Lemma filter_none_in {A : Type} (P : A -> Prop) `{forall x, Decision (P x)}
    (l : list A) :
  (forall x, x ∈ l -> ~ P x) -> filter P l = [].
Proof.
  induction l as [|x l IH]; intros Hl; [done|].
  rewrite filter_cons, decide_False by (apply Hl; by left).
  apply IH. intros y Hy. apply Hl. by right.
Qed.

Lemma filter_same_in {A : Type} (P Q : A -> Prop) `{forall x, Decision (P x)}
    `{forall x, Decision (Q x)} (l : list A) :
  (forall x, x ∈ l -> (P x <-> Q x)) -> filter P l = filter Q l.
Proof.
  induction l as [|x l IH]; intros Hl; [done|].
  rewrite !filter_cons, IH by (intros y Hy; apply Hl; by right).
  assert (Hx : P x <-> Q x) by (apply Hl; by left).
  destruct (decide (P x)), (decide (Q x)); tauto || done.
Qed.

Lemma the_document_of_an_account table d :
  oneDocPerAccount table -> d ∈ table ->
  filter (fun x => sameAccount (userId d) (accountKey d) x = true) table = [d].
Proof.
  unfold oneDocPerAccount.
  induction table as [|y table IH]; intros Hnd Hd; [by apply elem_of_nil in Hd|].
  cbn in Hnd. apply NoDup_cons in Hnd as [Hy Hnd]. rewrite filter_cons.
  apply elem_of_cons in Hd as [->|Hd].
  - rewrite decide_True by (by apply sameAccount_account).
    f_equal. apply filter_none_in. intros x Hx Hsame%sameAccount_account.
    apply Hy. apply list_elem_of_fmap. exists x. by split.
  - rewrite decide_False; [by apply IH|].
    intros Hsame%sameAccount_account. apply Hy.
    apply list_elem_of_fmap. exists d. by split.
Qed.

Lemma firstDocument_Some user key table doc :
  firstDocument user key table = Some doc ->
  doc ∈ table /\ userId doc = user /\ accountKey doc = key.
Proof.
  unfold firstDocument. intros H%head_Some_elem_of.
  apply list_elem_of_filter in H as [Hsame Hin]. split; [done|].
  apply sameAccount_account in Hsame. by injection Hsame.
Qed.

Lemma firstDocument_None user key table :
  firstDocument user key table = None ->
  forall d, d ∈ table -> account d <> (user, key).
Proof.
  unfold firstDocument. intros Hnil%head_None d Hd Hacc.
  assert (d ∈ filter (fun x => sameAccount user key x = true) table) as Hin.
  { apply list_elem_of_filter. split; [by apply sameAccount_account|done]. }
  rewrite Hnil in Hin. by apply elem_of_nil in Hin.
Qed.

(** With distinct document ids an update by id rewrites one document. *)
Lemma updateDocument_one table doc payload :
  NoDup (map docId table) -> doc ∈ table ->
  forall x, x ∈ table ->
    (if String.eqb (docId x) (docId doc) then payload x else x)
    = (if bool_decide (docId x = docId doc) then payload doc else x) /\
    (docId x = docId doc <-> x = doc).
Proof.
  intros Hnd Hdoc x Hx.
  assert (Hiff : docId x = docId doc <-> x = doc).
  { split; [by apply (docId_inj table)|by intros ->]. }
  split; [|done].
  destruct (String.eqb (docId x) (docId doc)) eqn:Heq.
  - apply String.eqb_eq in Heq. rewrite bool_decide_true by done.
    by rewrite (proj1 Hiff Heq).
  - apply String.eqb_neq in Heq. by rewrite bool_decide_false.
Qed.

Section Upsert.

Variable env : Env.
Variable mk : Creation.
Variable user : string.
Variable data : Data.t.
Variable table : list BalanceDoc.

Hypothesis is_configured : configured env = true.
Hypothesis listing_works : listFails env = false.
Hypothesis update_works : updateFails env 0 = false.
Hypothesis create_works : createFails mk = false.
Hypothesis distinct_ids : NoDup (map docId table).
Hypothesis fresh_id : unique mk ∉ map docId table.

(** The table after an upsert, document by document. *)
Lemma upsert_spec :
  exists doc table',
    upsertAccountBalance env mk user data table = inr (Some doc, table') /\
    account doc = (user, Data.accountKey data) /\
    balance doc = Data.balance data /\
    NoDup (map docId table') /\
    ((exists old,
        old ∈ table /\ account old = (user, Data.accountKey data) /\
        doc = upserted user data (now env 0) old /\
        table' = map (fun x => if bool_decide (docId x = docId old)
                               then doc else x) table /\
        map account table' = map account table /\
        map docId table' = map docId table)
     \/
     ((forall d, d ∈ table -> account d <> (user, Data.accountKey data)) /\
      doc = created (unique mk) user data (now env 0) /\
      table' = table ++ [doc])).
Proof.
  unfold upsertAccountBalance.
  rewrite is_configured, listing_works. cbn [negb].
  destruct (firstDocument user (Data.accountKey data) table) as [old|] eqn:Hfirst.
  - rewrite update_works.
    destruct (firstDocument_Some _ _ _ _ Hfirst) as (Hin & Hu & Hk).
    assert (Hacc : account old = (user, Data.accountKey data)).
    { unfold account. by rewrite Hu, Hk. }
    assert (Htable : updateDocument (docId old)
                       (upserted user data (now env 0)) table
                     = map (fun x => if bool_decide (docId x = docId old)
                                     then upserted user data (now env 0) old
                                     else x) table).
    { unfold updateDocument. apply list_fmap_ext. intros i x Hx%list_elem_of_lookup_2.
      by apply (updateDocument_one table old). }
    assert (Hids : map docId (updateDocument (docId old)
                                (upserted user data (now env 0)) table)
                   = map docId table).
    { rewrite Htable, <- list_fmap_compose. apply list_fmap_ext.
      intros i x _. cbn. destruct (bool_decide (docId x = docId old)) eqn:Hd; [|done].
      apply bool_decide_eq_true in Hd. by cbn. }
    assert (Haccs : map account (updateDocument (docId old)
                                   (upserted user data (now env 0)) table)
                    = map account table).
    { rewrite Htable, <- list_fmap_compose. apply list_fmap_ext.
      intros i x Hx%list_elem_of_lookup_2. cbn.
      destruct (bool_decide (docId x = docId old)) eqn:Hd; [|done].
      apply bool_decide_eq_true in Hd.
      apply (updateDocument_one table old) in Hd; [|done..]. subst x.
      by rewrite Hacc. }
    eexists _, _. split; [reflexivity|]. split; [done|]. split; [done|].
    split; [by rewrite Hids|]. left. exists old.
    rewrite <- Htable. done.
  - rewrite create_works.
    eexists _, _. split; [reflexivity|]. split; [done|]. split; [done|].
    split.
    + rewrite fmap_app. apply NoDup_app. split; [done|]. split.
      * intros i Hi Hnew. cbn in Hnew. apply list_elem_of_singleton in Hnew.
        subst i. by apply fresh_id.
      * cbn. apply NoDup_singleton.
    + right. split; [by apply firstDocument_None|done].
Qed.

Hypothesis one_per_account : oneDocPerAccount table.

(** What an upsert leaves alone: the documents of every other account, in
    their order. *)
Lemma upsert_frame doc table' (P : string * string -> Prop)
    `{forall a, Decision (P a)} :
  upsertAccountBalance env mk user data table = inr (Some doc, table') ->
  ~ P (user, Data.accountKey data) ->
  filter (fun d => P (account d)) table' = filter (fun d => P (account d)) table.
Proof.
  intros Hrun HP.
  destruct upsert_spec as (doc0 & table0 & Hrun0 & Hacc & _ & _ & Hcase).
  rewrite Hrun0 in Hrun. injection Hrun as -> ->.
  destruct Hcase as [(old & Hold & Haccold & _ & -> & _ & _)|(_ & _ & ->)].
  - rewrite (filter_fmap_comm _ _ (fun d => P (account d))).
    + rewrite <- (list_fmap_id (filter _ table)) at 2.
      apply list_fmap_ext. intros i x Hx%list_elem_of_lookup_2.
      apply list_elem_of_filter in Hx as [HPx Hx].
      rewrite bool_decide_false; [done|]. intros Hid.
      apply (docId_inj table) in Hid; [|done..]. subst x.
      apply HP. by rewrite <- Haccold.
    + intros x Hx. destruct (bool_decide (docId x = docId old)) eqn:Hd; [|done].
      apply bool_decide_eq_true, (docId_inj table) in Hd; [|done..]. subst x.
      rewrite Hacc, Haccold. tauto.
  - rewrite filter_app, (filter_none_in _ [_]); [by rewrite app_nil_r|].
    intros x ->%list_elem_of_singleton. by rewrite Hacc.
Qed.

Lemma upsert_one_per_account doc table' :
  upsertAccountBalance env mk user data table = inr (Some doc, table') ->
  oneDocPerAccount table' /\ doc ∈ table'.
Proof.
  intros Hrun.
  destruct upsert_spec as (doc0 & table0 & Hrun0 & Hacc & _ & _ & Hcase).
  rewrite Hrun0 in Hrun. injection Hrun as -> ->.
  unfold oneDocPerAccount.
  destruct Hcase as [(old & Hold & Haccold & _ & -> & Haccs & _)|(Hnone & _ & ->)].
  - split; [by rewrite Haccs|].
    apply list_elem_of_fmap. exists old. by rewrite bool_decide_true.
  - split; [|apply elem_of_app; right; by left].
    rewrite fmap_app. apply NoDup_app. split; [done|]. split.
    + intros a Ha Hnew. cbn in Hnew. apply list_elem_of_singleton in Hnew.
      subst a. apply list_elem_of_fmap in Ha as (d & Hd & Hin).
      apply (Hnone d); [done|congruence].
    + apply NoDup_singleton.
Qed.

Lemma get_spec who (t : list BalanceDoc) :
  getAccountBalancesFromAppwrite env who t
  = inr (Some (map toData
                 (filter (fun d => String.eqb (userId d) who = true) t)), t).
Proof.
  unfold getAccountBalancesFromAppwrite.
  by rewrite is_configured, listing_works.
Qed.

(** X17: with the remote calls succeeding, distinct document ids and at
    most one document per (user, account), upsertAccountBalance followed by
    getAccountBalancesFromAppwrite returns for that account exactly one
    entry, carrying the upserted balance, name, type and currency; the
    entries of the user's other accounts are the same as before, in the same
    order, every other user's list is unchanged, and the table still has
    distinct ids and one document per account. *)
Theorem upsert_then_get :
  exists doc table' before after,
    upsertAccountBalance env mk user data table = inr (Some doc, table') /\
    getAccountBalancesFromAppwrite env user table = inr (Some before, table) /\
    getAccountBalancesFromAppwrite env user table' = inr (Some after, table') /\
    filter (fun e => Data.accountKey e = Data.accountKey data) after
      = [toData doc] /\
    Data.balance (toData doc) = Data.balance data /\
    Data.accountName (toData doc) = Data.accountName data /\
    Data.accountType (toData doc) = Data.accountType data /\
    Data.currency (toData doc) = Data.currency data /\
    filter (fun e => Data.accountKey e <> Data.accountKey data) after
      = filter (fun e => Data.accountKey e <> Data.accountKey data) before /\
    (forall other, other <> user ->
       exists l,
         getAccountBalancesFromAppwrite env other table = inr (Some l, table) /\
         getAccountBalancesFromAppwrite env other table' = inr (Some l, table')) /\
    NoDup (map docId table') /\ oneDocPerAccount table'.
Proof.
  destruct upsert_spec as (doc & table' & Hrun & Hacc & Hbal & Hids & Hcase).
  destruct (upsert_one_per_account doc table' Hrun) as [Hone Hin].
  exists doc, table'. eexists _, _. split; [exact Hrun|].
  split; [apply get_spec|]. split; [apply get_spec|].
  assert (Hfields : Data.accountName (toData doc) = Data.accountName data /\
                    Data.accountType (toData doc) = Data.accountType data /\
                    Data.currency (toData doc) = Data.currency data).
  { destruct Hcase as [(old & _ & _ & -> & _)|(_ & -> & _)]; done. }
  destruct Hfields as (Hname & Htype & Hcur).
  injection Hacc as Hu Hk.
  split; [|do 4 (split; [done|]); split; [|split; [|done]]].
  - rewrite (filter_fmap_comm _ _
               (fun d => accountKey d = Data.accountKey data)) by done.
    rewrite list_filter_filter.
    rewrite (filter_same_in _
               (fun x => sameAccount (userId doc) (accountKey doc) x = true)).
    + by rewrite (the_document_of_an_account table' doc).
    + intros x _. rewrite sameAccount_account, Hu, Hk, String.eqb_eq.
      unfold account. split; [by intros [-> ->]|by intros [= -> ->]].
  - rewrite !(filter_fmap_comm _ _
                (fun d => accountKey d <> Data.accountKey data)) by done.
    f_equal. rewrite !list_filter_filter.
    assert (Hf := upsert_frame doc table'
             (fun a => a.2 <> Data.accountKey data /\ String.eqb a.1 user = true)
             Hrun).
    cbn [account fst snd] in Hf. apply Hf. by intros [? _].
  - intros other Hother. eexists. split; [apply get_spec|].
    rewrite get_spec.
    assert (Hf := upsert_frame doc table'
                    (fun a => String.eqb a.1 other = true) Hrun).
    cbn [account fst snd] in Hf. rewrite Hf; [done|].
    rewrite String.eqb_eq. congruence.
Qed.

End Upsert.

(** *** Snapshot, upserts, undo *)

Section Undo.

Variable env : Env.
Variable user batch : string.

Hypothesis is_configured : configured env = true.
Hypothesis listing_works : listFails env = false.
Hypothesis updates_work : forall n, updateFails env n = false.

(** The table after a restore that went through, document by document. *)
Lemma restore_pointwise table :
  NoDup (map docId table) ->
  exists table',
    restoreBalancesFromSnapshot env user batch table
    = inr (hasSnapshot user batch table, table') /\
    map docId table' = map docId table /\
    forall n d, table !! n = Some d ->
      exists d', table' !! n = Some d' /\
        match previousBalance d with
        | Some p => if inBatch user batch d
                    then exists stamp, d' = restoredDoc stamp p d
                    else d' = d
        | None => d' = d
        end.
Proof.
  intros Hnd. unfold restoreBalancesFromSnapshot.
  rewrite is_configured, listing_works. cbn [negb].
  set (bs := filter (fun d => inBatch user batch d = true) table).
  assert (Hbs : NoDup (map docId bs)).
  { eapply sublist_NoDup; [exact Hnd|]. apply fmap_sublist, sublist_filter. }
  destruct (restoreLoop_spec env bs 0 0 table updates_work Hbs)
    as (table' & Hrun & Hlen & Hpt).
  assert (Hpoint : forall n d, table !! n = Some d ->
            exists d', table' !! n = Some d' /\
              match previousBalance d with
              | Some p => if inBatch user batch d
                          then exists stamp, d' = restoredDoc stamp p d
                          else d' = d
              | None => d' = d
              end).
  { intros n d Hd. destruct (Hpt n d Hd) as (d' & Hd' & Hsame & Hrest).
    exists d'. split; [done|].
    assert (Hin : d ∈ table) by (apply list_elem_of_lookup; eauto).
    assert (Hother : forall x, x ∈ bs -> docId x = docId d -> x = d).
    { intros x [_ Hx]%list_elem_of_filter Hid. by apply (docId_inj table). }
    destruct (previousBalance d) as [p|] eqn:Hp.
    - destruct (inBatch user batch d) eqn:Hb.
      + apply (Hrest d p); [by apply list_elem_of_filter|done..].
      + apply Hsame. intros x Hx _ Hid.
        rewrite (Hother x Hx Hid) in Hx.
        apply list_elem_of_filter in Hx as [Hx _]. congruence.
    - apply Hsame. intros x Hx Hpx Hid. rewrite (Hother x Hx Hid) in Hpx.
      by apply Hpx. }
  assert (Hids : map docId table' = map docId table).
  { apply list_eq. intros n. rewrite !list_lookup_fmap.
    destruct (table !! n) as [d|] eqn:Hd.
    - destruct (Hpoint n d Hd) as (d' & -> & Hd'). cbn. f_equal.
      destruct (previousBalance d); [|by subst].
      destruct (inBatch user batch d); [|by subst].
      by destruct Hd' as [stamp ->].
    - apply lookup_ge_None in Hd. rewrite <- Hlen in Hd.
      apply lookup_ge_None in Hd. by rewrite Hd. }
  destruct bs as [|b bs'] eqn:Hbs_eq.
  - exists table. assert (table' = table) as -> by (cbn in Hrun; congruence).
    rewrite <- (snapshots_hasSnapshot user batch table).
    fold bs. rewrite Hbs_eq. done.
  - exists table'. rewrite Hrun. cbn [Nat.add].
    rewrite <- (snapshots_hasSnapshot user batch table). fold bs.
    by rewrite Hbs_eq.
Qed.

Lemma not_hasSnapshot table :
  (forall d, d ∈ table -> inBatch user batch d = true -> previousBalance d = None) ->
  hasSnapshot user batch table = false.
Proof.
  intros H. unfold hasSnapshot.
  destruct (existsb _ table) eqn:He; [|done].
  apply existsb_exists in He as (d & Hd%list_elem_of_In & [Hb Hp]%andb_true_iff).
  apply bool_decide_eq_true in Hp. by rewrite (H d Hd Hb) in Hp.
Qed.

(** X18: restoring a batch a second time restores nothing: after a restore
    whose remote calls succeeded, no document of the batch carries a snapshot
    any more, so a second call for the same user and batch returns false and
    leaves every document as the first call left it. *)
Theorem restore_twice_restores_once (table : list BalanceDoc) :
  NoDup (map docId table) ->
  exists table',
    restoreBalancesFromSnapshot env user batch table
    = inr (hasSnapshot user batch table, table') /\
    restoreBalancesFromSnapshot env user batch table' = inr (false, table').
Proof.
  intros Hnd.
  destruct (restore_pointwise table Hnd) as (table' & Hrun & Hids & Hpt).
  exists table'. split; [done|].
  assert (Hnd' : NoDup (map docId table')) by (by rewrite Hids).
  assert (Hclean : forall d', d' ∈ table' -> inBatch user batch d' = true ->
                     previousBalance d' = None).
  { intros d' [n Hn]%list_elem_of_lookup Hb.
    assert (is_Some (table !! n)) as [d Hd].
    { apply lookup_lt_is_Some. apply lookup_lt_Some in Hn.
      by rewrite <- (length_map docId), <- Hids, length_map. }
    destruct (Hpt n d Hd) as (d0 & Hd0 & Hcase).
    rewrite Hn in Hd0. injection Hd0 as <-.
    destruct (previousBalance d) as [p|] eqn:Hp; [|by subst].
    destruct (inBatch user batch d) eqn:Hbd; [|subst; congruence].
    destruct Hcase as [stamp ->]. unfold inBatch in Hb. cbn in Hb.
    rewrite bool_decide_false in Hb by done. by rewrite andb_false_r in Hb. }
  destruct (restore_pointwise table' Hnd') as (table'' & Hrun' & Hids' & Hpt').
  rewrite Hrun', (not_hasSnapshot table' Hclean). do 2 f_equal.
  apply list_eq. intros n. destruct (table' !! n) as [d'|] eqn:Hd'.
  - destruct (Hpt' n d' Hd') as (d'' & -> & Hcase). f_equal.
    destruct (previousBalance d') as [p|] eqn:Hp; [|done].
    destruct (inBatch user batch d') eqn:Hb; [|done].
    rewrite (Hclean d' (list_elem_of_lookup_2 _ _ _ Hd') Hb) in Hp. done.
  - apply lookup_ge_None in Hd'.
    rewrite <- (length_map docId), <- Hids', length_map in Hd'.
    by apply lookup_ge_None.
Qed.

(** The documents whose id is in [ids], snapshotted at their own balance. *)
Definition snapshotOf (stamp : string) (ids : list string) (d : BalanceDoc)
    : BalanceDoc :=
  if bool_decide (docId d ∈ ids)
  then snapshotted batch stamp (balance d) d else d.

Lemma snapshotOf_account stamp ids d :
  account (snapshotOf stamp ids d) = account d /\
  docId (snapshotOf stamp ids d) = docId d.
Proof. unfold snapshotOf. by destruct (bool_decide _). Qed.

Lemma snapshotLoop_spec stamp (table : list BalanceDoc) :
  NoDup (map docId table) -> oneDocPerAccount table ->
  forall bs ids updates,
    Forall (fun b => b ∈ table /\ userId b = user) bs ->
    NoDup (ids ++ map docId bs) ->
    snapshotLoop env user batch stamp (map toData bs) updates
      (map (snapshotOf stamp ids) table)
    = (Some tt, map (snapshotOf stamp (ids ++ map docId bs)) table).
Proof.
  intros Hnd Hone. induction bs as [|b bs IH]; intros ids updates Hbs Hids.
  { cbn. by rewrite app_nil_r. }
  apply Forall_cons in Hbs as [[Hb Hu] Hbs]. cbn [map snapshotLoop].
  assert (Hfresh : docId b ∉ ids).
  { apply NoDup_app in Hids as (_ & Hdisj & _). intros Hin.
    apply (Hdisj _ Hin). cbn. by left. }
  assert (Hfirst : firstDocument user (Data.accountKey (toData b))
                     (map (snapshotOf stamp ids) table) = Some b).
  { unfold firstDocument. cbn [toData Data.accountKey].
    rewrite (filter_fmap_comm _ _
               (fun x => sameAccount user (accountKey b) x = true)).
    - rewrite <- Hu, (the_document_of_an_account table b Hone Hb). cbn.
      unfold snapshotOf. by rewrite bool_decide_false.
    - intros x _. rewrite !sameAccount_account.
      by rewrite (proj1 (snapshotOf_account stamp ids x)). }
  rewrite Hfirst, updates_work.
  assert (Hstep : updateDocument (docId b)
                    (snapshotted batch stamp (Data.balance (toData b)))
                    (map (snapshotOf stamp ids) table)
                  = map (snapshotOf stamp (ids ++ [docId b])) table).
  { unfold updateDocument. rewrite <- list_fmap_compose.
    apply list_fmap_ext. intros i x Hx%list_elem_of_lookup_2. cbn.
    rewrite (proj2 (snapshotOf_account stamp ids x)).
    destruct (String.eqb (docId x) (docId b)) eqn:Heq.
    - apply String.eqb_eq, (docId_inj table) in Heq; [|done..]. subst x.
      unfold snapshotOf. rewrite bool_decide_false by done.
      rewrite bool_decide_true; [done|]. apply elem_of_app. right. by left.
    - apply String.eqb_neq in Heq. unfold snapshotOf.
      rewrite (bool_decide_ext (docId x ∈ ids ++ [docId b]) (docId x ∈ ids));
        [done|].
      rewrite elem_of_app, list_elem_of_singleton. intuition. }
  rewrite Hstep, IH; [|done|by rewrite <- (assoc_L (++))].
  by rewrite <- (assoc_L (++)).
Qed.

(** The user's own balances, as getAccountBalancesFromAppwrite lists them,
    saved as the snapshot of [batch]. *)
Lemma save_own_balances table :
  NoDup (map docId table) -> oneDocPerAccount table ->
  saveBalanceSnapshotToAppwrite env user batch
    (map toData (filter (fun d => String.eqb (userId d) user = true) table))
    table
  = inr (Some tt,
         map (fun d => if String.eqb (userId d) user
                       then snapshotted batch (now env 0) (balance d) d
                       else d) table).
Proof.
  intros Hnd Hone. unfold saveBalanceSnapshotToAppwrite.
  rewrite is_configured, listing_works. cbn [negb].
  set (own := filter (fun d => String.eqb (userId d) user = true) table).
  assert (Hown : Forall (fun b => b ∈ table /\ userId b = user) own).
  { apply Forall_forall. intros b [Hu Hb]%list_elem_of_filter.
    by apply String.eqb_eq in Hu. }
  assert (Hids : NoDup ([] ++ map docId own)).
  { cbn. eapply sublist_NoDup; [exact Hnd|]. apply fmap_sublist, sublist_filter. }
  pose proof (snapshotLoop_spec (now env 0) table Hnd Hone own [] 0 Hown Hids)
    as Hloop.
  assert (Hid : map (snapshotOf (now env 0) []) table = table).
  { rewrite <- (list_fmap_id table) at 2. apply list_fmap_ext. intros i x _.
    unfold snapshotOf. rewrite bool_decide_false; [done|]. apply not_elem_of_nil. }
  rewrite Hid in Hloop. cbn [app] in Hloop.
  assert (Hresult : map (snapshotOf (now env 0) (map docId own)) table
                    = map (fun d => if String.eqb (userId d) user
                                    then snapshotted batch (now env 0) (balance d) d
                                    else d) table).
  { apply list_fmap_ext. intros i x Hx%list_elem_of_lookup_2. unfold snapshotOf.
    destruct (String.eqb (userId x) user) eqn:Hu.
    - rewrite bool_decide_true; [done|]. apply list_elem_of_fmap. exists x.
      split; [done|]. by apply list_elem_of_filter.
    - rewrite bool_decide_false; [done|].
      intros (y & Hid' & [Hy Hyin]%list_elem_of_filter)%list_elem_of_fmap.
      apply (docId_inj table) in Hid'; [|done..]. subst y. congruence. }
  destruct (map toData own) eqn:Hempty.
  - f_equal. f_equal. rewrite <- Hresult.
    destruct own; [|done]. cbn. by rewrite Hid.
  - rewrite Hloop, Hresult. done.
Qed.

(** A series of upserts for the user; [None] when one of them fails. *)
Fixpoint upsertAll (todo : list (Creation * Data.t)) (table : list BalanceDoc)
    : option (list BalanceDoc) :=
  match todo with
  | [] => Some table
  | (mk, data) :: rest =>
      match upsertAccountBalance env mk user data table with
      | inr (Some _, table') => upsertAll rest table'
      | _ => None
      end
  end.

(** What upserts keep of a stored document. *)
Definition kept (d d' : BalanceDoc) : Prop :=
  docId d' = docId d /\ userId d' = userId d /\
  previousBalance d' = previousBalance d /\
  importBatchId d' = importBatchId d /\
  (userId d <> user -> d' = d).

Definition grown (table table' : list BalanceDoc) : Prop :=
  (forall n d, table !! n = Some d ->
     exists d', table' !! n = Some d' /\ kept d d') /\
  (forall n d', table' !! n = Some d' -> length table <= n ->
     importBatchId d' = None) /\
  NoDup (map docId table').

Lemma upsert_grown mk data table :
  createFails mk = false ->
  NoDup (map docId table) -> unique mk ∉ map docId table ->
  exists doc table',
    upsertAccountBalance env mk user data table = inr (Some doc, table') /\
    grown table table' /\
    (map docId table' = map docId table
     \/ map docId table' = map docId table ++ [unique mk]).
Proof.
  intros Hcreate Hnd Hfresh.
  destruct (upsert_spec env mk user data table is_configured listing_works
              (updates_work 0) Hcreate Hnd Hfresh)
    as (doc & table' & Hrun & Hacc & _ & Hnd' & Hcase).
  exists doc, table'. split; [done|].
  destruct Hcase as [(old & Hold & Haccold & Hdoc & Htable & _ & Hids)
                    |(Hnone & Hdoc & Htable)].
  - split; [|by left]. split; [|split; [|done]].
    + intros n d Hd. subst table'. rewrite list_lookup_fmap, Hd. cbn.
      eexists. split; [reflexivity|].
      destruct (bool_decide (docId d = docId old)) eqn:Heq.
      * apply bool_decide_eq_true in Heq.
        apply (docId_inj table) in Heq;
          [|done|by eapply list_elem_of_lookup_2|done].
        subst d doc. injection Haccold as Hu Hk. unfold kept. cbn.
        repeat split; done.
      * unfold kept. by repeat split.
    + intros n d' Hd' Hn. apply lookup_lt_Some in Hd'.
      rewrite <- (length_map docId), Hids, length_map in Hd'. lia.
  - split; [|right; subst table' doc; by rewrite fmap_app].
    split; [|split; [|done]].
    + intros n d Hd. exists d. subst table'.
      split; [by apply lookup_app_l_Some|]. unfold kept. by repeat split.
    + intros n d' Hd' Hn. subst table'.
      rewrite lookup_app_r in Hd' by done.
      apply list_lookup_singleton_Some in Hd' as [_ <-]. by subst doc.
Qed.

Lemma kept_trans a b c : kept a b -> kept b c -> kept a c.
Proof.
  intros (H1 & H2 & H3 & H4 & H5) (K1 & K2 & K3 & K4 & K5).
  unfold kept. repeat split; try congruence.
  intros Hne. rewrite K5 by congruence. by apply H5.
Qed.

Lemma grown_trans a b c :
  length a <= length b -> grown a b -> grown b c -> grown a c.
Proof.
  intros Hlen (H1 & H2 & _) (K1 & K2 & K3). split; [|split; [|done]].
  - intros n d Hd. destruct (H1 n d Hd) as (d1 & Hd1 & Hk1).
    destruct (K1 n d1 Hd1) as (d2 & Hd2 & Hk2).
    exists d2. split; [done|]. by eapply kept_trans.
  - intros n d2 Hd2 Hn.
    destruct (decide (length b <= n)) as [Hb|Hb]; [by apply (K2 n)|].
    destruct (lookup_lt_is_Some_2 b n) as [d1 Hd1]; [lia|].
    destruct (K1 n d1 Hd1) as (d2' & Hd2' & (_ & _ & _ & Hbatch & _)).
    rewrite Hd2 in Hd2'. injection Hd2' as <-. rewrite Hbatch.
    by apply (H2 n).
Qed.

Lemma upsertAll_grown todo : forall table,
  Forall (fun u => createFails u.1 = false) todo ->
  NoDup (map docId table ++ map (fun u => unique u.1) todo) ->
  exists table',
    upsertAll todo table = Some table' /\
    length table <= length table' /\
    grown table table'.
Proof.
  induction todo as [|[mk data] todo IH]; intros table Hcreate Hids.
  { exists table. split; [done|]. split; [done|]. split; [|split].
    - intros n d Hd. exists d. split; [done|]. unfold kept. by repeat split.
    - intros n d' Hd'%lookup_lt_Some Hn. lia.
    - cbn in Hids. by rewrite app_nil_r in Hids. }
  apply Forall_cons in Hcreate as [Hmk Hcreate]. cbn [map fst] in Hids, Hmk.
  assert (Hnd : NoDup (map docId table)) by (by apply NoDup_app in Hids as (? & _)).
  assert (Hfresh : unique mk ∉ map docId table).
  { apply NoDup_app in Hids as (_ & Hdisj & _). intros Hin.
    apply (Hdisj _ Hin). by left. }
  destruct (upsert_grown mk data table Hmk Hnd Hfresh)
    as (doc & table1 & Hrun & Hg & Hids1).
  cbn [upsertAll]. rewrite Hrun.
  assert (Hlen1 : length table <= length table1).
  { rewrite <- (length_map docId table), <- (length_map docId table1).
    destruct Hids1 as [-> | ->]; [done|]. rewrite length_app. lia. }
  destruct (IH table1) as (table' & Hall & Hlen & Hg'); [done| |].
  { destruct Hids1 as [-> | ->].
    - apply NoDup_app in Hids as (H1 & H2 & H3). apply NoDup_app.
      split; [done|]. split.
      + intros x Hx Hin. apply (H2 x Hx). by right.
      + by apply NoDup_cons in H3 as [_ ?].
    - by rewrite <- (assoc_L (++)). }
  exists table'. split; [done|]. split; [lia|]. by eapply grown_trans.
Qed.

(** X19: undo gives back what the snapshot recorded. With the remote
    calls succeeding, distinct document ids and one document per account,
    taking the user's balances as getAccountBalancesFromAppwrite lists them,
    saving them with saveBalanceSnapshotToAppwrite, performing any series of
    upserts for that user, and then calling restoreBalancesFromSnapshot for
    the batch returns true when the user had a balance document, puts the
    saved balance back on every one of the user's documents with the snapshot
    fields cleared, leaves every other user's document exactly as it was, and
    neither removes nor changes the documents the upserts created. *)
Theorem snapshot_upserts_undo (table : list BalanceDoc)
    (todo : list (Creation * Data.t)) :
  NoDup (map docId table ++ map (fun u => unique u.1) todo) ->
  oneDocPerAccount table ->
  Forall (fun u => createFails u.1 = false) todo ->
  exists own saved upserted restored,
    getAccountBalancesFromAppwrite env user table = inr (Some own, table) /\
    saveBalanceSnapshotToAppwrite env user batch own table
      = inr (Some tt, saved) /\
    upsertAll todo saved = Some upserted /\
    restoreBalancesFromSnapshot env user batch upserted
      = inr (bool_decide (own <> []), restored) /\
    length restored = length upserted /\
    (forall n d, table !! n = Some d ->
       exists d', restored !! n = Some d' /\
         docId d' = docId d /\
         if String.eqb (userId d) user
         then balance d' = balance d /\ previousBalance d' = None /\
              previousBalanceTimestamp d' = None /\ importBatchId d' = None
         else d' = d) /\
    (forall n, length table <= n -> restored !! n = upserted !! n).
Proof.
  intros Hids Hone Hcreate.
  assert (Hnd : NoDup (map docId table)) by (by apply NoDup_app in Hids as (? & _)).
  eexists _, _. 
  pose proof (save_own_balances table Hnd Hone) as Hsave.
  set (saved := map _ table) in Hsave.
  assert (Hsaved_ids : map docId saved = map docId table).
  { unfold saved. rewrite <- list_fmap_compose. apply list_fmap_ext.
    intros i x _. cbn. by destruct (String.eqb (userId x) user). }
  destruct (upsertAll_grown todo saved Hcreate) as (upserted' & Hall & Hlen & Hg).
  { by rewrite Hsaved_ids. }
  destruct Hg as (Hkept & Hnew & Hnd').
  destruct (restore_pointwise upserted' Hnd') as (restored & Hrun & Hrids & Hpt).
  exists upserted', restored.
  split; [apply get_spec; done|]. split; [exact Hsave|]. split; [exact Hall|].
  assert (Hlen_saved : length saved = length table).
  { unfold saved. by rewrite length_map. }
  assert (Hsnap : hasSnapshot user batch upserted'
                  = bool_decide
                      (map toData
                         (filter (fun d => String.eqb (userId d) user = true) table)
                       <> [])).
  { destruct (filter (fun d => String.eqb (userId d) user = true) table)
      as [|d0 own'] eqn:Hown.
    - rewrite bool_decide_false by (by intros H). apply not_hasSnapshot.
      intros d' [n Hn]%list_elem_of_lookup Hb.
      destruct (decide (length saved <= n)) as [Hge|Hlt].
      { specialize (Hnew n d' Hn Hge). unfold inBatch in Hb.
        rewrite Hnew, bool_decide_false in Hb by done.
        by rewrite andb_false_r in Hb. }
      destruct (lookup_lt_is_Some_2 table n) as [d Hd]; [lia|].
      assert (Hds : saved !! n
                    = Some (if String.eqb (userId d) user
                            then snapshotted batch (now env 0) (balance d) d
                            else d)).
      { unfold saved. by rewrite list_lookup_fmap, Hd. }
      destruct (Hkept n _ Hds) as (d1 & Hd1 & (_ & Hu & _)).
      rewrite Hn in Hd1. injection Hd1 as <-.
      assert (String.eqb (userId d) user = false) as Hnot.
      { destruct (String.eqb (userId d) user) eqn:Heq; [|done].
        assert (d ∈ filter (fun d => String.eqb (userId d) user = true) table)
          as Hin by (apply list_elem_of_filter; split;
                     [done|by eapply list_elem_of_lookup_2]).
        rewrite Hown in Hin. by apply elem_of_nil in Hin. }
      rewrite Hnot in Hu. unfold inBatch in Hb. rewrite Hu, Hnot in Hb. done.
    - rewrite bool_decide_true by done. unfold hasSnapshot.
      apply existsb_exists.
      assert (Hd0 : d0 ∈ filter (fun d => String.eqb (userId d) user = true) table)
        by (rewrite Hown; by left).
      apply list_elem_of_filter in Hd0 as [Hu0 [n Hn]%list_elem_of_lookup].
      assert (Hds : saved !! n
                    = Some (snapshotted batch (now env 0) (balance d0) d0)).
      { unfold saved. rewrite list_lookup_fmap, Hn. cbn. by rewrite Hu0. }
      destruct (Hkept n _ Hds) as (d1 & Hd1 & (_ & Hu & Hp & Hb & _)).
      exists d1. split; [by eapply list_elem_of_In, list_elem_of_lookup_2|].
      unfold inBatch. cbn in Hu, Hp, Hb. rewrite Hu, Hu0, Hb, Hp.
      rewrite !bool_decide_true by done. done. }
  split; [by rewrite Hrun, Hsnap|].
  split; [by rewrite <- (length_map docId), Hrids, length_map|].
  split.
  - intros n d Hd.
    assert (Hds : saved !! n
                  = Some (if String.eqb (userId d) user
                          then snapshotted batch (now env 0) (balance d) d
                          else d)).
    { unfold saved. by rewrite list_lookup_fmap, Hd. }
    destruct (Hkept n _ Hds) as (d1 & Hd1 & (Hi & Hu & Hp & Hb & Hother)).
    destruct (Hpt n d1 Hd1) as (d2 & Hd2 & Hcase).
    exists d2. split; [done|].
    destruct (String.eqb (userId d) user) eqn:Heq.
    + cbn in Hi, Hu, Hp, Hb. rewrite Hp in Hcase.
      assert (inBatch user batch d1 = true) as Hin.
      { unfold inBatch. rewrite Hu, Heq, Hb. by rewrite bool_decide_true. }
      rewrite Hin in Hcase. destruct Hcase as [stamp ->]. by cbn.
    + assert (d1 = d) as ->.
      { apply Hother. by apply String.eqb_neq. }
      split.
      * destruct (previousBalance d); [|by subst].
        destruct (inBatch user batch d); [|by subst].
        by destruct Hcase as [stamp ->].
      * assert (inBatch user batch d = false) as Hout.
        { unfold inBatch. by rewrite Heq. }
        rewrite Hout in Hcase. by destruct (previousBalance d).
  - intros n Hn. destruct (upserted' !! n) as [d1|] eqn:Hd1.
    + destruct (Hpt n d1 Hd1) as (d2 & -> & Hcase). f_equal.
      assert (Hb : importBatchId d1 = None) by (apply (Hnew n); [done|lia]).
      assert (Hout : inBatch user batch d1 = false).
      { unfold inBatch. rewrite Hb, bool_decide_false by done.
        apply andb_false_r. }
      rewrite Hout in Hcase. by destruct (previousBalance d1).
    + apply lookup_ge_None in Hd1. apply lookup_ge_None.
      by rewrite <- (length_map docId), Hrids, length_map.
Qed.

End Undo.

(** An import that tops up the first account of [sampleTable] and brings a
    new savings account. *)
Definition topUp : Data.t :=
  {| Data.accountKey := "revolut-current-eur";
     Data.accountName := "Revolut Current"; Data.accountType := "current";
     Data.provider := Some "revolut"; Data.currency := "EUR";
     Data.balance := 9000%Z; Data.lastUpdated := None |}.

Definition newSavings : Data.t :=
  {| Data.accountKey := "revolut-savings-eur";
     Data.accountName := "Savings"; Data.accountType := "savings";
     Data.provider := Some "revolut"; Data.currency := "EUR";
     Data.balance := 250%Z; Data.lastUpdated := Some "2025-02-03T07:00:00.000Z" |}.

Definition freshId (i : string) : Creation :=
  {| unique := i; createFails := false |}.

Lemma sampleTable_ids :
  NoDup (map docId sampleTable ++ map (fun u => unique u.1)
           [(freshId "b8", topUp); (freshId "b9", newSavings)]).
Proof. apply (bool_decide_unpack _). vm_compute. exact I. Defined.

Lemma sampleTable_accounts : oneDocPerAccount sampleTable.
Proof. apply (bool_decide_unpack _). vm_compute. exact I. Defined.

Example import_then_undo :
  (fun t => map (fun d => (docId d, balance d, importBatchId d)) <$> t)
    (match saveBalanceSnapshotToAppwrite reliable "u1" "batch-8"
             (map toData sampleTable) sampleTable with
     | inr (Some _, saved) =>
         upsertAll reliable "u1"
           [(freshId "b8", topUp); (freshId "b9", newSavings)] saved
           ≫= fun upserted =>
         match restoreBalancesFromSnapshot reliable "u1" "batch-8" upserted with
         | inr (true, restored) => Some restored
         | _ => None
         end
     | _ => None
     end)
  = Some [("b1", 7000%Z, None); ("b2", 500%Z, None); ("b3", 30000%Z, None);
          ("b9", 250%Z, None)].
Proof. vm_compute. done. Qed.

Lemma upsert_then_get_witness :
  exists doc table',
    upsertAccountBalance reliable (freshId "b9") "u1" topUp sampleTable
    = inr (Some doc, table') /\
    Data.balance (toData doc) = 9000%Z.
Proof.
  assert (Hids : NoDup (map docId sampleTable))
    by (apply (bool_decide_unpack _); vm_compute; exact I).
  assert (Hfresh : unique (freshId "b9") ∉ map docId sampleTable)
    by (apply (bool_decide_unpack _); vm_compute; exact I).
  destruct (upsert_then_get reliable (freshId "b9") "u1" topUp sampleTable
              eq_refl eq_refl eq_refl eq_refl Hids Hfresh sampleTable_accounts)
    as (doc & table' & before & after & Hrun & _ & _ & _ & Hbal & _).
  exists doc, table'. split; [exact Hrun|exact Hbal].
Defined.

Lemma restore_twice_restores_once_witness :
  exists table',
    restoreBalancesFromSnapshot reliable "u1" "batch-7" sampleTable
    = inr (true, table') /\
    restoreBalancesFromSnapshot reliable "u1" "batch-7" table'
    = inr (false, table').
Proof.
  assert (Hids : NoDup (map docId sampleTable))
    by (apply (bool_decide_unpack _); vm_compute; exact I).
  exact (restore_twice_restores_once reliable "u1" "batch-7" eq_refl eq_refl
           (fun _ => eq_refl) sampleTable Hids).
Defined.

Lemma snapshot_upserts_undo_witness :
  exists own saved upserted restored,
    saveBalanceSnapshotToAppwrite reliable "u1" "batch-8" own sampleTable
      = inr (Some tt, saved) /\
    upsertAll reliable "u1" [(freshId "b8", topUp); (freshId "b9", newSavings)]
      saved = Some upserted /\
    restoreBalancesFromSnapshot reliable "u1" "batch-8" upserted
      = inr (bool_decide (own <> []), restored).
Proof.
  destruct (snapshot_upserts_undo reliable "u1" "batch-8" eq_refl eq_refl
              (fun _ => eq_refl) sampleTable
              [(freshId "b8", topUp); (freshId "b9", newSavings)]
              sampleTable_ids sampleTable_accounts)
    as (own & saved & upserted & restored & _ & Hsave & Hall & Hrun & _).
  { repeat constructor. }
  exists own, saved, upserted, restored. split; [exact Hsave|].
  split; [exact Hall|exact Hrun].
Defined.

End BalanceFacts.

(** ** Categorisation: keyword rules, learned mappings and the cascade *)

Module CategorizerFacts.

Import Categorizer.

(** *** getMerchantKey

    Titles are strings of 8-bit characters; toLowerCase acts on the ASCII
    letters. *)

(** The ASCII white space that [trim] strips. *)
Definition isSpace (c : Ascii.ascii) : bool :=
  let n := Ascii.nat_of_ascii c in
  ((9 <=? n)%nat && (n <=? 13)%nat) || (n =? 32)%nat.

Fixpoint trimStart (s : string) : string :=
  match s with
  | EmptyString => EmptyString
  | String c s' => if isSpace c then trimStart s' else s
  end.

Fixpoint trimEnd (s : string) : string :=
  match s with
  | EmptyString => EmptyString
  | String c s' =>
      match trimEnd s' with
      | EmptyString => if isSpace c then EmptyString else String c EmptyString
      | t => String c t
      end
  end.

Definition trim (s : string) : string := trimEnd (trimStart s).

(** The characters that [/[^a-z0-9]/g] leaves in place. *)
Definition isKeyChar (c : Ascii.ascii) : bool :=
  let n := Ascii.nat_of_ascii c in
  ((97 <=? n)%nat && (n <=? 122)%nat) || ((48 <=? n)%nat && (n <=? 57)%nat).

(** [s.replace(/[^a-z0-9]/g, '')] *)
Fixpoint keepKeyChars (s : string) : string :=
  match s with
  | EmptyString => EmptyString
  | String c s' => if isKeyChar c then String c (keepKeyChars s')
                   else keepKeyChars s'
  end.

Definition getMerchantKey (title : string) : string :=
  keepKeyChars (Js.toLowerCase (trim title)).


Fixpoint allChars (P : Ascii.ascii -> bool) (s : string) : bool :=
  match s with
  | EmptyString => true
  | String c s' => P c && allChars P s'
  end.











Example getMerchantKey_sample :
  getMerchantKey "  TESCO Stores #1234 " = "tescostores1234".
Proof. reflexivity. Qed.

(** *** Objects built by assignment

    A [MerchantMapping] lists the properties in Object.keys order: the keys
    that are array indices first, in ascending numeric order, then the other
    keys in creation order. *)

Definition isDigit (c : Ascii.ascii) : bool :=
  let n := Ascii.nat_of_ascii c in (48 <=? n)%nat && (n <=? 57)%nat.

Fixpoint digitsValue (acc : N) (s : string) : N :=
  match s with
  | EmptyString => acc
  | String c s' =>
      digitsValue (acc * 10 + N.of_nat (Ascii.nat_of_ascii c - 48)) s'
  end.

(** The value of a key that is an array index: a canonical decimal numeral
    below 2^32 - 1. *)
Definition arrayIndex (k : string) : option N :=
  match k with
  | EmptyString => None
  | String c rest =>
      if allChars isDigit k
         && (negb (Ascii.nat_of_ascii c =? 48)%nat || String.eqb rest "")
         && (digitsValue 0 k <? 4294967295)%N
      then Some (digitsValue 0 k) else None
  end.

(** Where a new array-index property goes. *)
Fixpoint insertIndex (n : N) (k v : string) (m : MerchantMapping)
    : MerchantMapping :=
  match m with
  | [] => [(k, v)]
  | (k', v') :: rest =>
      match arrayIndex k' with
      | Some n' => if (n <? n')%N then (k, v) :: m
                   else (k', v') :: insertIndex n k v rest
      | None => (k, v) :: m
      end
  end.

Fixpoint replaceProp (m : MerchantMapping) (k v : string) : MerchantMapping :=
  match m with
  | [] => []
  | (k', v') :: rest =>
      if String.eqb k' k then (k', v) :: rest
      else (k', v') :: replaceProp rest k v
  end.

(** [m[k] = v] *)
Definition setProp (m : MerchantMapping) (k v : string) : MerchantMapping :=
  match getProp m k with
  | Some _ => replaceProp m k v
  | None =>
      match arrayIndex k with
      | Some n => insertIndex n k v m
      | None => m ++ [(k, v)]
      end
  end.

Lemma getProp_app m1 m2 k :
  getProp (m1 ++ m2) k
  = match getProp m1 k with Some v => Some v | None => getProp m2 k end.
Proof.
  induction m1 as [|[k' v'] m1 IH]; [done|]. cbn.
  by destruct (String.eqb k' k).
Qed.

Lemma getProp_insertIndex n k v m k' :
  getProp m k = None ->
  getProp (insertIndex n k v m) k'
  = if String.eqb k k' then Some v else getProp m k'.
Proof.
  induction m as [|[k0 v0] m IH]; intros Hk; [done|]. cbn in Hk |- *.
  destruct (String.eqb k0 k) eqn:H0; [done|].
  destruct (arrayIndex k0) as [n0|]; [|done].
  destruct (n <? n0)%N; [done|]. cbn. rewrite IH by done.
  destruct (String.eqb k0 k') eqn:H1; [|done].
  apply String.eqb_eq in H1. subst k'.
  by rewrite String.eqb_sym, H0.
Qed.

Lemma getProp_replaceProp m k v k' :
  is_Some (getProp m k) ->
  getProp (replaceProp m k v) k'
  = if String.eqb k k' then Some v else getProp m k'.
Proof.
  induction m as [|[k0 v0] m IH]; intros Hk; [by destruct Hk|]. cbn in Hk |- *.
  destruct (String.eqb k0 k) eqn:H0.
  - apply String.eqb_eq in H0. subst k0. cbn. by destruct (String.eqb k k').
  - cbn. rewrite IH by done. destruct (String.eqb k0 k') eqn:H1; [|done].
    apply String.eqb_eq in H1. subst k'. by rewrite String.eqb_sym, H0.
Qed.

(** Reading a property after an assignment. *)
Lemma getProp_setProp m k v k' :
  getProp (setProp m k v) k' = if String.eqb k k' then Some v else getProp m k'.
Proof.
  unfold setProp. destruct (getProp m k) as [v0|] eqn:Hk.
  - apply getProp_replaceProp. by rewrite Hk.
  - destruct (arrayIndex k) as [n|]; [by apply getProp_insertIndex|].
    rewrite getProp_app. cbn. destruct (String.eqb k k') eqn:Heq.
    + apply String.eqb_eq in Heq. subst k'. by rewrite Hk.
    + by destruct (getProp m k').
Qed.

(** *** Votes *)

(** A document of the merchant votes table. *)
Record VoteDoc := {
  docId : string;
  merchant_key : string;
  merchant_name : string;
  category_id : string;
  votes : Z;
  last_voted : string;
  user_id : option string;
}.

(** [Map<string, number>]: category -> votes, in insertion order. *)
Definition CategoryVotes := list (string * Z).

Fixpoint getVotes (cv : CategoryVotes) (c : string) : option Z :=
  match cv with
  | [] => None
  | (c', n) :: rest => if String.eqb c' c then Some n else getVotes rest c
  end.

Fixpoint setVotes (cv : CategoryVotes) (c : string) (n : Z) : CategoryVotes :=
  match cv with
  | [] => [(c, n)]
  | (c', n') :: rest =>
      if String.eqb c' c then (c', n) :: rest else (c', n') :: setVotes rest c n
  end.

(** [categoryVotes.set(categoryId, (categoryVotes.get(categoryId) || 0) +
    doc.votes)]; a stored 0 is falsy and reads as 0. *)
Definition addVote (cv : CategoryVotes) (doc : VoteDoc) : CategoryVotes :=
  setVotes cv (category_id doc)
           (default 0%Z (getVotes cv (category_id doc)) + votes doc)%Z.

(** [Map<string, Map<string, number>>], in insertion order. *)
Definition VotesByMerchant := list (string * CategoryVotes).

Fixpoint tally (vbm : VotesByMerchant) (doc : VoteDoc) : VotesByMerchant :=
  match vbm with
  | [] => [(merchant_key doc, addVote [] doc)]
  | (k, cv) :: rest =>
      if String.eqb k (merchant_key doc) then (k, addVote cv doc) :: rest
      else (k, cv) :: tally rest doc
  end.

Definition votesByMerchant (documents : list VoteDoc) : VotesByMerchant :=
  foldl tally [] documents.

(** The inner forEach: the running [topCategory] and [topVotes]. *)
Definition pickTop (cv : CategoryVotes) : string * Z :=
  foldl (fun top entry => if (top.2 <? entry.2)%Z then entry else top)
        ("", 0%Z) cv.

(** The outer forEach. *)
Definition mappingsOf (vbm : VotesByMerchant) : MerchantMapping :=
  foldl (fun mappings entry =>
           let topCategory := (pickTop entry.2).1 in
           if Js.truthy topCategory then setProp mappings entry.1 topCategory
           else mappings)
        [] vbm.

(** The mapping computed from a listing of the votes table. *)
Definition aggregate (documents : list VoteDoc) : MerchantMapping :=
  mappingsOf (votesByMerchant documents).

(** The votes table as seen by one call: whether the database id is set,
    and the answer of the n-th listDocuments attempt of the call (the error
    message, or the documents). *)
Record VoteStore := {
  configured : bool;
  listing : nat -> string + list VoteDoc;
}.

Definition isTransient (msg : string) : bool :=
  Js.includes msg "503" || Js.includes (Js.toLowerCase msg) "timeout".

(** getLearnedMappings; [cache] is the parsed AsyncStorage item. *)
Definition getLearnedMappings (cache : option MerchantMapping)
    (store : VoteStore) : MerchantMapping :=
  if negb (configured store) then default [] cache
  else
    match listing store 0 with
    | inr documents => aggregate documents
    | inl msg =>
        if isTransient msg then
          match listing store 1 with
          | inr documents => aggregate documents
          | inl _ => default [] cache
          end
        else default [] cache
    end.

(** The total of the votes cast for a merchant and category. *)
Definition cast (k c : string) (doc : VoteDoc) : bool :=
  String.eqb (merchant_key doc) k && String.eqb (category_id doc) c.

Fixpoint total (documents : list VoteDoc) (k c : string) : Z :=
  match documents with
  | [] => 0
  | doc :: rest => (if cast k c doc then votes doc else 0) + total rest k c
  end%Z.

Fixpoint getCategoryVotes (vbm : VotesByMerchant) (k : string)
    : option CategoryVotes :=
  match vbm with
  | [] => None
  | (k', cv) :: rest => if String.eqb k' k then Some cv
                        else getCategoryVotes rest k
  end.

Definition votesFor (vbm : VotesByMerchant) (k c : string) : option Z :=
  getCategoryVotes vbm k ≫= fun cv => getVotes cv c.

Lemma getVotes_setVotes cv c n c' :
  getVotes (setVotes cv c n) c'
  = if String.eqb c c' then Some n else getVotes cv c'.
Proof.
  induction cv as [|[c0 n0] cv IH]; cbn.
  - by destruct (String.eqb c c').
  - destruct (String.eqb c0 c) eqn:H0; cbn.
    + apply String.eqb_eq in H0. subst c0. by destruct (String.eqb c c').
    + rewrite IH. destruct (String.eqb c0 c') eqn:H1; [|done].
      apply String.eqb_eq in H1. subst c'. by rewrite String.eqb_sym, H0.
Qed.

Lemma getCategoryVotes_tally vbm doc k :
  getCategoryVotes (tally vbm doc) k
  = if String.eqb (merchant_key doc) k
    then Some (addVote (default [] (getCategoryVotes vbm (merchant_key doc))) doc)
    else getCategoryVotes vbm k.
Proof.
  induction vbm as [|[k0 cv0] vbm IH]; cbn.
  - by destruct (String.eqb (merchant_key doc) k).
  - destruct (String.eqb k0 (merchant_key doc)) eqn:H0; cbn.
    + apply String.eqb_eq in H0. subst k0.
      by destruct (String.eqb (merchant_key doc) k).
    + rewrite IH. destruct (String.eqb k0 k) eqn:H1; [|done].
      apply String.eqb_eq in H1. subst k0. by rewrite String.eqb_sym, H0.
Qed.

Lemma votesFor_tally vbm doc k c :
  votesFor (tally vbm doc) k c
  = if cast k c doc
    then Some (default 0 (votesFor vbm k c) + votes doc)%Z
    else votesFor vbm k c.
Proof.
  unfold votesFor, cast. rewrite getCategoryVotes_tally.
  destruct (String.eqb (merchant_key doc) k) eqn:Hk; [|done].
  apply String.eqb_eq in Hk. subst k. cbn [mbind option_bind andb].
  unfold addVote. rewrite getVotes_setVotes.
  destruct (String.eqb (category_id doc) c) eqn:Hc.
  - apply String.eqb_eq in Hc. subst c.
    by destruct (getCategoryVotes vbm (merchant_key doc)).
  - by destruct (getCategoryVotes vbm (merchant_key doc)).
Qed.

Lemma total_none documents k c :
  existsb (cast k c) documents = false -> total documents k c = 0%Z.
Proof.
  induction documents as [|doc documents IH]; [done|]. cbn.
  intros [-> H]%orb_false_iff. by rewrite IH.
Qed.

Lemma votesFor_fold documents : forall vbm k c,
  votesFor (foldl tally vbm documents) k c
  = if existsb (cast k c) documents
    then Some (default 0 (votesFor vbm k c) + total documents k c)%Z
    else votesFor vbm k c.
Proof.
  induction documents as [|doc documents IH]; intros vbm k c; [done|].
  cbn [foldl existsb total]. rewrite IH, votesFor_tally.
  destruct (cast k c doc) eqn:Hd; cbn [orb].
  - destruct (existsb (cast k c) documents) eqn:He.
    + destruct (votesFor vbm k c); cbn; f_equal; lia.
    + rewrite (total_none _ _ _ He).
      destruct (votesFor vbm k c); cbn; f_equal; lia.
  - destruct (existsb (cast k c) documents); [|done].
    destruct (votesFor vbm k c); cbn; f_equal; lia.
Qed.

(** Maps hold each key once. *)
Lemma setVotes_keys cv c n :
  NoDup (map fst cv) -> NoDup (map fst (setVotes cv c n)).
Proof.
  intros Hnd.
  assert (Hkeys : map fst (setVotes cv c n)
                  = if existsb (fun e => String.eqb e.1 c) cv
                    then map fst cv else map fst cv ++ [c]).
  { clear Hnd. induction cv as [|[c0 n0] cv IH]; [done|]. cbn.
    destruct (String.eqb c0 c); cbn; [done|]. rewrite IH.
    by destruct (existsb _ cv). }
  rewrite Hkeys. destruct (existsb _ cv) eqn:He; [done|].
  apply NoDup_app. split; [done|]. split; [|apply NoDup_singleton].
  intros x Hx ->%list_elem_of_singleton.
  apply list_elem_of_fmap in Hx as ([c1 n1] & Hc & Hin). cbn in Hc. subst c1.
  assert (existsb (fun e => String.eqb e.1 c) cv = true); [|congruence].
  apply existsb_exists. exists (c, n1).
  split; [by apply list_elem_of_In|apply String.eqb_refl].
Qed.

Definition wellFormed (vbm : VotesByMerchant) : Prop :=
  NoDup (map fst vbm) /\ Forall (fun e => NoDup (map fst e.2)) vbm.

Lemma tally_wellFormed vbm doc : wellFormed vbm -> wellFormed (tally vbm doc).
Proof.
  intros [Hk Hcv].
  assert (Hkeys : map fst (tally vbm doc)
                  = if existsb (fun e => String.eqb e.1 (merchant_key doc)) vbm
                    then map fst vbm else map fst vbm ++ [merchant_key doc]).
  { clear. induction vbm as [|[k0 cv0] vbm IH]; [done|]. cbn.
    destruct (String.eqb k0 (merchant_key doc)); cbn; [done|]. rewrite IH.
    by destruct (existsb _ vbm). }
  split.
  - rewrite Hkeys. destruct (existsb _ vbm) eqn:He; [done|].
    apply NoDup_app. split; [done|]. split; [|apply NoDup_singleton].
    intros x Hx ->%list_elem_of_singleton.
    apply list_elem_of_fmap in Hx as ([k1 cv1] & Hc & Hin). cbn in Hc. subst k1.
    assert (existsb (fun e => String.eqb e.1 (merchant_key doc)) vbm = true);
      [|congruence].
    apply existsb_exists. exists (merchant_key doc, cv1).
    split; [by apply list_elem_of_In|apply String.eqb_refl].
  - clear Hk Hkeys. induction Hcv as [|[k0 cv0] vbm H0 Hrest IH]; cbn.
    + constructor; [|done]. cbn. apply NoDup_singleton.
    + destruct (String.eqb k0 (merchant_key doc)).
      * constructor; [|done]. cbn [snd]. unfold addVote. by apply setVotes_keys.
      * by constructor.
Qed.

Lemma votesByMerchant_wellFormed documents :
  wellFormed (votesByMerchant documents).
Proof.
  unfold votesByMerchant.
  enough (forall vbm, wellFormed vbm -> wellFormed (foldl tally vbm documents))
    as H by (apply H; split; constructor).
  induction documents as [|doc documents IH]; intros vbm Hwf; [done|].
  cbn. by apply IH, tally_wellFormed.
Qed.

Lemma getVotes_elem cv c n :
  NoDup (map fst cv) -> ((c, n) ∈ cv <-> getVotes cv c = Some n).
Proof.
  induction cv as [|[c0 n0] cv IH]; cbn; intros Hnd.
  { split; [by intros ?%elem_of_nil|done]. }
  apply NoDup_cons in Hnd as [H0 Hnd]. rewrite elem_of_cons, (IH Hnd).
  destruct (String.eqb c0 c) eqn:Heq.
  - apply String.eqb_eq in Heq. subst c0. split.
    + intros [[= ->]|Hin]; [done|]. destruct H0.
      apply (IH Hnd) in Hin. apply list_elem_of_fmap. by exists (c, n).
    + intros [= ->]. by left.
  - apply String.eqb_neq in Heq. split.
    + intros [[= -> ->]|Hin]; [done|done].
    + intros Hin. by right.
Qed.

Lemma getCategoryVotes_elem vbm k cv :
  getCategoryVotes vbm k = Some cv -> (k, cv) ∈ vbm.
Proof.
  induction vbm as [|[k0 cv0] vbm IH]; [done|]. cbn.
  destruct (String.eqb k0 k) eqn:Heq.
  - apply String.eqb_eq in Heq. intros [= ->]. subst. by left.
  - intros H. right. by apply IH.
Qed.

(** The running maximum of the inner loop. *)
Lemma pickTop_fold (cv : CategoryVotes) : forall top,
  let r := foldl (fun top entry => if (top.2 <? entry.2)%Z then entry else top)
                 top cv in
  (forall e, e ∈ cv -> (e.2 <= r.2)%Z) /\
  (top.2 <= r.2)%Z /\
  (r = top \/ (r ∈ cv /\ (top.2 < r.2)%Z)).
Proof.
  induction cv as [|e cv IH]; intros top; cbn zeta.
  { split; [by intros ? ?%elem_of_nil|]. split; [cbn; lia|by left]. }
  cbn [foldl].
  destruct (IH (if (top.2 <? e.2)%Z then e else top)) as (I1 & I2 & I3).
  cbn zeta in I1, I2, I3.
  destruct (top.2 <? e.2)%Z eqn:Hlt.
  - apply Z.ltb_lt in Hlt. split; [|split; [lia|]].
    + intros x [->|Hx]%elem_of_cons; [lia|by apply I1].
    + right. destruct I3 as [->|[Hin Hgt]].
      * split; [by left|done].
      * split; [by right|lia].
  - apply Z.ltb_ge in Hlt. split; [|split; [lia|]].
    + intros x [->|Hx]%elem_of_cons; [lia|by apply I1].
    + destruct I3 as [->|[Hin Hgt]]; [by left|].
      right. split; [by right|done].
Qed.

Lemma pickTop_spec (cv : CategoryVotes) :
  (forall e, e ∈ cv -> (e.2 <= (pickTop cv).2)%Z) /\
  (pickTop cv = ("", 0%Z) \/ (pickTop cv ∈ cv /\ (0 < (pickTop cv).2)%Z)).
Proof.
  destruct (pickTop_fold cv ("", 0%Z)) as (H1 & _ & H3). by split.
Qed.

Lemma mappingsOf_fold (vbm : VotesByMerchant) : forall mappings k,
  NoDup (map fst vbm) ->
  getProp (foldl (fun mappings entry =>
                    let topCategory := (pickTop entry.2).1 in
                    if Js.truthy topCategory
                    then setProp mappings entry.1 topCategory else mappings)
                 mappings vbm) k
  = match getCategoryVotes vbm k with
    | Some cv => if Js.truthy (pickTop cv).1 then Some (pickTop cv).1
                 else getProp mappings k
    | None => getProp mappings k
    end.
Proof.
  induction vbm as [|[k0 cv0] vbm IH]; intros mappings k Hnd; [done|].
  cbn in Hnd. apply NoDup_cons in Hnd as [H0 Hnd].
  cbn [foldl getCategoryVotes fst snd]. rewrite IH by done.
  destruct (String.eqb k0 k) eqn:Heq.
  - apply String.eqb_eq in Heq. subst k0.
    destruct (getCategoryVotes vbm k) as [cv|] eqn:Hcv.
    { destruct H0. apply getCategoryVotes_elem in Hcv.
      apply list_elem_of_fmap. by exists (k, cv). }
    destruct (Js.truthy (pickTop cv0).1); [|done].
    by rewrite getProp_setProp, String.eqb_refl.
  - assert (Hsame : getProp (if Js.truthy (pickTop cv0).1
                             then setProp mappings k0 (pickTop cv0).1
                             else mappings) k = getProp mappings k).
    { destruct (Js.truthy (pickTop cv0).1); [|done].
      by rewrite getProp_setProp, Heq. }
    cbn zeta. rewrite Hsame. done.
Qed.

Lemma getProp_aggregate documents k :
  getProp (aggregate documents) k
  = match getCategoryVotes (votesByMerchant documents) k with
    | Some cv => if Js.truthy (pickTop cv).1 then Some (pickTop cv).1 else None
    | None => None
    end.
Proof.
  unfold aggregate, mappingsOf.
  rewrite mappingsOf_fold by apply votesByMerchant_wellFormed. done.
Qed.

(** The entries of a merchant's vote map are the totals of its votes. *)
Lemma categoryVotes_total documents k cv c n :
  getCategoryVotes (votesByMerchant documents) k = Some cv ->
  ((c, n) ∈ cv <-> existsb (cast k c) documents = true /\ n = total documents k c).
Proof.
  intros Hcv.
  assert (Hnd : NoDup (map fst cv)).
  { destruct (votesByMerchant_wellFormed documents) as [_ Hall].
    rewrite Forall_forall in Hall.
    by apply (Hall (k, cv)), getCategoryVotes_elem. }
  rewrite (getVotes_elem cv c n Hnd).
  pose proof (votesFor_fold documents [] k c) as Hv.
  unfold votesFor at 1 in Hv. fold (votesByMerchant documents) in Hv.
  rewrite Hcv in Hv. cbn in Hv. rewrite Hv.
  destruct (existsb (cast k c) documents).
  - split; [intros [= <-]; split; [done|lia]|intros [_ ->]; f_equal; lia].
  - split; [done|by intros [? _]].
Qed.

Lemma total_positive documents k c :
  (0 < total documents k c)%Z -> existsb (cast k c) documents = true.
Proof.
  intros Hpos. destruct (existsb (cast k c) documents) eqn:He; [done|].
  rewrite (total_none _ _ _ He) in Hpos. lia.
Qed.

Lemma truthy_nonempty c : Js.truthy c = true <-> c <> "".
Proof.
  unfold Js.truthy. rewrite negb_true_iff. split.
  - intros H ->. done.
  - intros H. by apply String.eqb_neq.
Qed.

Lemma most_voted_sound documents k c :
  getProp (aggregate documents) k = Some c ->
  c <> "" /\ (0 < total documents k c)%Z /\
  forall c', (total documents k c' <= total documents k c)%Z.
Proof.
  rewrite getProp_aggregate. intros Hc.
  destruct (getCategoryVotes (votesByMerchant documents) k) as [cv|] eqn:Hcv;
    [|done].
  destruct (Js.truthy (pickTop cv).1) eqn:Ht; [|done].
  injection Hc as Hc. apply truthy_nonempty in Ht.
  destruct (pickTop_spec cv) as [Hmax [Hnone|[Hin Hpos]]].
  { rewrite Hnone in Ht. done. }
  destruct (pickTop cv) as [rc rv] eqn:Hr. cbn in *. subst rc.
  apply (categoryVotes_total documents k cv c rv Hcv) in Hin as [_ ->].
  split; [done|]. split; [done|]. intros c'.
  destruct (existsb (cast k c') documents) eqn:He.
  - specialize (Hmax (c', total documents k c')). cbn in Hmax. apply Hmax.
    by apply (categoryVotes_total documents k cv c' _ Hcv).
  - rewrite (total_none _ _ _ He). lia.
Qed.

Lemma most_voted_complete documents k c :
  c <> "" -> (0 < total documents k c)%Z ->
  (forall c', c' <> c -> (total documents k c' < total documents k c)%Z) ->
  getProp (aggregate documents) k = Some c.
Proof.
  rewrite getProp_aggregate. intros Hne Hpos Hstrict.
  pose proof (total_positive _ _ _ Hpos) as He.
  pose proof (votesFor_fold documents [] k c) as Hv. rewrite He in Hv.
  unfold votesFor at 1 in Hv. fold (votesByMerchant documents) in Hv.
  destruct (getCategoryVotes (votesByMerchant documents) k) as [cv|] eqn:Hcv;
    [|done].
  assert (Hc : (c, total documents k c) ∈ cv)
    by (by apply (categoryVotes_total documents k cv c _ Hcv)).
  destruct (pickTop_spec cv) as [Hmax [Hnone|[Hin Htop]]].
  { specialize (Hmax _ Hc). rewrite Hnone in Hmax. cbn in Hmax. lia. }
  specialize (Hmax _ Hc). cbn in Hmax.
  destruct (pickTop cv) as [rc rv] eqn:Hr. cbn in *.
  apply (categoryVotes_total documents k cv rc rv Hcv) in Hin as [_ ->].
  destruct (decide (rc = c)) as [->|Hrc].
  - by rewrite (proj2 (truthy_nonempty c) Hne).
  - specialize (Hstrict rc Hrc). lia.
Qed.

(** X21: the most voted category wins. Whenever the mapping computed
    from the votes table has an entry for a merchant, that category is not
    empty, its votes add up to a positive total, and no other category has a
    larger total for that merchant; and a non-empty category whose total is
    positive and strictly larger than that of every other category of the
    merchant is the entry. *)
Theorem aggregate_picks_most_voted (documents : list VoteDoc) (k : string) :
  (forall c, getProp (aggregate documents) k = Some c ->
     c <> "" /\ (0 < total documents k c)%Z /\
     forall c', (total documents k c' <= total documents k c)%Z) /\
  (forall c, c <> "" -> (0 < total documents k c)%Z ->
     (forall c', c' <> c -> (total documents k c' < total documents k c)%Z) ->
     getProp (aggregate documents) k = Some c).
Proof.
  split.
  - apply most_voted_sound.
  - apply most_voted_complete.
Qed.

(** *** Keyword rules and the cascade *)

(** The keyword groups of matchKeywordRules, in the order of its tests. *)
Definition keywordRules : list (string * list string) :=
  [("food", ["restaurant"; "cafe"; "coffee"; "pizza"; "burger"; "mcdonald";
             "kfc"; "subway"; "starbucks"; "costa"; "nando"; "greggs"; "pret"]);
   ("groceries", ["grocery"; "supermarket"; "sainsbury"; "tesco"; "asda";
                  "waitrose"; "aldi"; "lidl"; "morrisons"; "coop"; "co-op";
                  "marks & spencer"; "m&s food"]);
   ("transport", ["uber"; "lyft"; "taxi"; "train"; "bus"; "tube"; "metro";
                  "tfl"; "transport for london"; "national rail"; "trainline";
                  "citymapper"]);
   ("entertainment", ["cinema"; "movie"; "theatre"; "concert"; "spotify";
                      "netflix"; "amazon prime"; "disney"; "apple music";
                      "youtube premium"]);
   ("shopping", ["amazon"; "ebay"; "shop"; "store"; "retail"; "zara"; "h&m";
                 "primark"; "next"; "argos"; "john lewis"]);
   ("utilities", ["electric"; "gas"; "water"; "internet"; "broadband";
                  "phone bill"; "mobile"; "vodafone"; "ee "; "o2"; "three";
                  "bt "]);
   ("health", ["pharmacy"; "chemist"; "doctor"; "hospital"; "dental"; "gym";
               "fitness"; "boots"; "superdrug"])].

Definition incomeKeywords : list string :=
  ["salary"; "wage"; "payment received"; "transfer from"].

Definition anyIncluded (desc : string) (words : list string) : bool :=
  existsb (Js.includes desc) words.

Fixpoint firstRule (desc : string) (rules : list (string * list string))
    : option string :=
  match rules with
  | [] => None
  | (slug, words) :: rest =>
      if anyIncluded desc words then Some slug else firstRule desc rest
  end.

Definition matchKeywordRules (description : string) (isExpense : bool)
    : option string :=
  let desc := Js.toLowerCase description in
  match firstRule desc keywordRules with
  | Some slug => Some slug
  | None =>
      if negb isExpense && anyIncluded desc incomeKeywords
      then Some "income" else None
  end.

(** A document of the categories table. *)
Record CategoryDoc := {
  id : string;
  name : string;
  slug : option string;
}.

(** [c.slug === slug || c.name.toLowerCase() === slug] *)
Definition answersTo (s : string) (c : CategoryDoc) : bool :=
  bool_decide (slug c = Some s) || String.eqb (Js.toLowerCase (name c)) s.

(** The lookup shared by getCategoryIdBySlug and getCategoryIdFromCache. *)
Definition getCategoryIdFromCache (categories : list CategoryDoc)
    (s : string) : string :=
  match List.find (answersTo s) categories with
  | Some category => id category
  | None =>
      match List.find (answersTo "general") categories with
      | Some general => id general
      | None => ""
      end
  end.

(** getCategoryIdBySlug; [None] stands for a getCategories call that
    throws. *)
Definition getCategoryIdBySlug (categories : option (list CategoryDoc))
    (s : string) : string :=
  match categories with
  | Some cs => getCategoryIdFromCache cs s
  | None => ""
  end.

(** [const fuzzyMatch = findMatchingCategory(..); if (fuzzyMatch) ..] *)
Definition fuzzyMatch (title : string) (learnedMappings : MerchantMapping)
    : option string :=
  match findMatchingCategory (getMerchantKey title) learnedMappings with
  | Some c => if Js.truthy c then Some c else None
  | None => None
  end.

(** categorizeTransaction, over the learned mappings and the answer of the
    getCategories call it makes. *)
Definition categorizeTransaction (categories : option (list CategoryDoc))
    (learnedMappings : MerchantMapping) (title description : string)
    (isExpense : bool) : string :=
  match fuzzyMatch title learnedMappings with
  | Some c => c
  | None =>
      let combinedText := title +:+ " " +:+ description in
      match matchKeywordRules combinedText isExpense with
      | Some keywordMatch => getCategoryIdBySlug categories keywordMatch
      | None => getCategoryIdBySlug categories "general"
      end
  end.



(** *** learnMerchantCategory *)

Record LearnEnv := {
  store : VoteStore;     (* as read by the fall-back's getLearnedMappings *)
  listFails : bool;      (* the search for an existing vote throws *)
  writeFails : bool;     (* updateDocument / createDocument throws *)
  unique : string;       (* ID.unique() *)
  now : string;          (* new Date().toISOString() *)
}.

(** The votes table and the AsyncStorage item. *)
Record Learned := {
  table : list VoteDoc;
  cache : option MerchantMapping;
}.

(** [{ votes: (doc.votes || 1) + 1, last_voted: .. }] *)
Definition voted (stamp : string) (d : VoteDoc) : VoteDoc :=
  {| docId := docId d; merchant_key := merchant_key d;
     merchant_name := merchant_name d; category_id := category_id d;
     votes := ((if (votes d =? 0)%Z then 1 else votes d) + 1)%Z;
     last_voted := stamp; user_id := user_id d |}.

Definition updateVote (i : string) (payload : VoteDoc -> VoteDoc)
    (t : list VoteDoc) : list VoteDoc :=
  map (fun x => if String.eqb (docId x) i then payload x else x) t.

Definition learnMerchantCategory (env : LearnEnv)
    (merchantName categoryId : string) (userId : option string)
    (s : Learned) : Learned :=
  let merchantKey := getMerchantKey merchantName in
  let fallBack :=
    {| table := table s;
       cache := Some (setProp (getLearnedMappings (cache s) (store env))
                              merchantKey categoryId) |} in
  if configured (store env) then
    if listFails env then fallBack
    else
      match filter (fun d => cast merchantKey categoryId d = true) (table s) with
      | doc :: _ =>
          if writeFails env then fallBack
          else {| table := updateVote (docId doc) (voted (now env)) (table s);
                  cache := cache s |}
      | [] =>
          if writeFails env then fallBack
          else {| table := table s
                    ++ [{| docId := unique env; merchant_key := merchantKey;
                           merchant_name := merchantName;
                           category_id := categoryId; votes := 1;
                           last_voted := now env;
                           user_id := match userId with
                                      | Some u => if Js.truthy u then Some u
                                                  else None
                                      | None => None
                                      end |}];
                  cache := cache s |}
      end
  else fallBack.

Lemma total_app t1 t2 k c :
  total (t1 ++ t2) k c = (total t1 k c + total t2 k c)%Z.
Proof. induction t1 as [|d t1 IH]; [done|]. cbn. rewrite IH. lia. Qed.

Lemma updateVote_absent i payload t :
  i ∉ map docId t -> updateVote i payload t = t.
Proof.
  intros Hi. unfold updateVote. rewrite <- (list_fmap_id t) at 2.
  apply list_fmap_ext. intros n x Hx%list_elem_of_lookup_2. cbn.
  destruct (String.eqb (docId x) i) eqn:Heq; [|done].
  apply String.eqb_eq in Heq. destruct Hi. apply list_elem_of_fmap. by exists x.
Qed.

(** With distinct document ids, an update by id changes the total of the
    updated document's merchant and category only. *)
Lemma total_updateVote payload t d0 k c :
  NoDup (map docId t) -> d0 ∈ t ->
  merchant_key (payload d0) = merchant_key d0 ->
  category_id (payload d0) = category_id d0 ->
  total (updateVote (docId d0) payload t) k c
  = (total t k c
     + (if cast k c d0 then votes (payload d0) - votes d0 else 0))%Z.
Proof.
  intros Hnd Hin Hk Hc. induction t as [|x t IH]; [by apply elem_of_nil in Hin|].
  cbn in Hnd. apply NoDup_cons in Hnd as [Hx Hnd].
  change (updateVote (docId d0) payload (x :: t))
    with ((if String.eqb (docId x) (docId d0) then payload x else x)
          :: updateVote (docId d0) payload t).
  cbn [total]. apply elem_of_cons in Hin as [<-|Hin].
  - rewrite String.eqb_refl, updateVote_absent by done.
    unfold cast. rewrite Hk, Hc. fold (cast k c d0).
    destruct (cast k c d0); lia.
  - rewrite IH by done.
    destruct (String.eqb (docId x) (docId d0)) eqn:Heq; [|lia].
    apply String.eqb_eq in Heq. destruct Hx. rewrite Heq.
    apply list_elem_of_fmap. by exists d0.
Qed.

Lemma exact_match_wins (learnedMappings : MerchantMapping) (t c : string) :
  getProp learnedMappings (getMerchantKey t) = Some c -> c <> "" ->
  fuzzyMatch t learnedMappings = Some c.
Proof.
  intros Hget Hne. apply truthy_nonempty in Hne.
  unfold fuzzyMatch, findMatchingCategory, exactMatch. by rewrite Hget, Hne, Hne.
Qed.

(** X22: a vote makes a leading category the learned one. With the
    database configured, the remote calls succeeding and distinct document
    ids, learnMerchantCategory for a non-empty category whose vote total for
    the merchant is non-negative and not below that of any other category (in
    particular for a merchant never voted on) raises that total by at least
    one, changes no other total and leaves the local cache alone; the mapping
    computed from the table then maps the merchant key to that category, and
    categorizeTransaction returns it for every title with that key, whatever
    the description, the kind and the categories table. *)
Theorem learning_makes_the_category_win (env : LearnEnv)
    (merchantName categoryId : string) (userId : option string) (s : Learned) :
  configured (store env) = true ->
  listFails env = false ->
  writeFails env = false ->
  NoDup (map docId (table s)) ->
  categoryId <> "" ->
  let k := getMerchantKey merchantName in
  (0 <= total (table s) k categoryId)%Z ->
  (forall c', (total (table s) k c' <= total (table s) k categoryId)%Z) ->
  let s' := learnMerchantCategory env merchantName categoryId userId s in
  cache s' = cache s /\
  (total (table s) k categoryId < total (table s') k categoryId)%Z /\
  (forall k' c', (k', c') <> (k, categoryId) ->
     total (table s') k' c' = total (table s) k' c') /\
  getProp (aggregate (table s')) k = Some categoryId /\
  forall categories t description isExpense,
    getMerchantKey t = k ->
    categorizeTransaction categories (aggregate (table s')) t description
                          isExpense = categoryId.
Proof.
  intros Hconf Hlist Hwrite Hnd Hne k Hpos Htop s'.
  assert (Hcast : forall k' c' d, (k', c') <> (k, categoryId) ->
            cast k categoryId d = true -> cast k' c' d = false).
  { intros k' c' d Hother [Hk Hc]%andb_true_iff.
    apply String.eqb_eq in Hk, Hc. unfold cast. rewrite Hk, Hc.
    destruct (String.eqb k k') eqn:H1; [|done].
    destruct (String.eqb categoryId c') eqn:H2; [|done].
    apply String.eqb_eq in H1, H2. subst. done. }
  assert (Htotals :
    cache s' = cache s /\
    (total (table s) k categoryId < total (table s') k categoryId)%Z /\
    (forall k' c', (k', c') <> (k, categoryId) ->
       total (table s') k' c' = total (table s) k' c')).
  { unfold s', learnMerchantCategory. rewrite Hconf, Hlist, Hwrite. fold k.
    destruct (filter (fun d => cast k categoryId d = true) (table s))
      as [|d0 rest] eqn:Hf.
    - cbn [table cache]. split; [done|]. split.
      + rewrite total_app. cbn [total]. unfold cast at 1. cbn.
        rewrite !String.eqb_refl. cbn. lia.
      + intros k' c' Hother. rewrite total_app. cbn.
        rewrite (Hcast k' c'); [lia|done|].
        unfold cast. cbn. by rewrite !String.eqb_refl.
    - assert (Hd0 : d0 ∈ table s /\ cast k categoryId d0 = true).
      { assert (d0 ∈ filter (fun d => cast k categoryId d = true) (table s))
          as Hin by (rewrite Hf; by left).
        apply list_elem_of_filter in Hin. tauto. }
      destruct Hd0 as [Hin Hc0]. cbn [table cache]. split; [done|]. split.
      + rewrite total_updateVote by done. rewrite Hc0. cbn.
        destruct (votes d0 =? 0)%Z eqn:Hz; [apply Z.eqb_eq in Hz|]; lia.
      + intros k' c' Hother. rewrite total_updateVote by done.
        rewrite (Hcast k' c' d0 Hother Hc0). lia. }
  destruct Htotals as (Hcache & Hup & Hframe).
  assert (Hget : getProp (aggregate (table s')) k = Some categoryId).
  { apply (most_voted_complete (table s') k categoryId Hne);
      [lia|].
    intros c' Hc'. rewrite (Hframe k c') by congruence.
    specialize (Htop c'). lia. }
  do 3 (split; [done|]). split; [done|].
  intros categories t description isExpense Hk.
  unfold categorizeTransaction.
  rewrite (exact_match_wins _ t categoryId); [done| |done].
  by rewrite Hk.
Qed.







(** A votes table in which groceries leads for tesco. *)
Definition vote (i k c : string) (n : Z) : VoteDoc :=
  {| docId := i; merchant_key := k; merchant_name := k; category_id := c;
     votes := n; last_voted := "2025-01-01T00:00:00.000Z"; user_id := None |}.

Definition sampleVotes : list VoteDoc :=
  [vote "v1" "tesco" "shopping" 2; vote "v2" "tesco" "groceries" 2;
   vote "v3" "lidl" "groceries" 1; vote "v4" "tesco" "shopping" 1;
   vote "v5" "tesco" "groceries" 2].

Definition votesOnline : LearnEnv :=
  {| store := {| configured := true; listing := fun _ => inr sampleVotes |};
     listFails := false; writeFails := false; unique := "v9";
     now := "2025-03-01T12:00:00.000Z" |}.

Example sampleVotes_mapping :
  aggregate sampleVotes = [("tesco", "groceries"); ("lidl", "groceries")].
Proof. reflexivity. Qed.

Example array_index_keys_come_first :
  setProp (setProp [("tesco", "c1"); ("lidl", "c2")] "365" "c3") "24" "c4"
  = [("24", "c4"); ("365", "c3"); ("tesco", "c1"); ("lidl", "c2")].
Proof. reflexivity. Qed.

Lemma learning_makes_the_category_win_witness :
  getProp (aggregate
             (table (learnMerchantCategory votesOnline "TESCO" "groceries" None
                       {| table := sampleVotes; cache := None |})))
          "tesco"
  = Some "groceries".
Proof.
  assert (Hids : NoDup (map docId sampleVotes))
    by (apply (bool_decide_unpack _); vm_compute; exact I).
  assert (Htop : forall c', (total sampleVotes (getMerchantKey "TESCO") c'
                             <= total sampleVotes (getMerchantKey "TESCO")
                                      "groceries")%Z).
  { intros c'. change (getMerchantKey "TESCO") with "tesco".
    destruct (most_voted_sound sampleVotes "tesco" "groceries" eq_refl)
      as (_ & _ & H). apply H. }
  destruct (learning_makes_the_category_win votesOnline "TESCO" "groceries"
              None {| table := sampleVotes; cache := None |}
              eq_refl eq_refl eq_refl Hids ltac:(discriminate)
              ltac:(vm_compute; discriminate) Htop)
    as (_ & _ & _ & Hget & _).
  exact Hget.
Defined.

End CategorizerFacts.
